(** * socow_vector: a small-buffer, copy-on-write vector

    A shallow embedding of [src/socow-vector.h] and the properties of its
    specification.

    Memory is modelled the way the class lays it out.  A run of element
    storage is a list of slots; a slot is [Some x] when an object [x] has
    been constructed in it and [None] when it is raw (never constructed, or
    destroyed).  Dynamic buffers live in a heap, a finite map from addresses
    to blocks holding [capacity_], [refs_count] and the slots of [data_].
    A vector object is the triple of [size_], [is_small_vector_] and the
    anonymous union, whose active member is the one written last.

    [size_t] and [ptrdiff_t] are modelled by [nat]: arithmetic does not wrap.
    A live vector never holds more elements than were allocated, so the
    values the code computes from the size and the capacity of well-formed
    vectors stay far below 2^64; the theorems carry the preconditions under
    which no subtraction is cut off at zero (a non-empty vector for
    [pop_back], a valid range for [erase]).  The one size that a caller
    chooses freely is the argument of [reserve]; [allocation_size] is the
    byte count that the class computes for it in [size_t], and the theorems
    about a requested capacity carry the hypothesis [representable], under
    which that count has not wrapped.

    Exceptions: the copy constructor and the copy assignment of [T] and
    [operator new] may throw.  The state carries a fault schedule
    [throw_in]: [Some k] lets [k] such operations succeed and makes the next
    one throw, [None] lets all of them succeed.  [T] is taken to have no
    move operations of its own, so that [std::swap] of two elements copies
    one of them into a temporary and assigns twice: it is counted as a copy
    and each of its three steps may throw.  Destructors do not throw.  A
    method returns [Returns s a] or [Throws s e], where [s] is the state of
    the heap and [e] the objects the caller still sees when the exception
    leaves the method (locals have been destroyed by then). *)

From stdpp Require Import base option list gmap fin_maps.

Definition addr := positive.

(** Iterators and data pointers: a pointer into the object's own
    [static_buffer], or into the [data_] of the heap block at an address. *)
Inductive pointer :=
  | static_ptr
  | heap_ptr (p : addr)
  | null_ptr.

#[global] Instance pointer_eq_dec : EqDecision pointer.
Proof. solve_decision. Defined.

Record iterator := { base : pointer; offset : nat }.

(** The argument of [operator new] in [allocate_dynamic_buffer]:
    [sizeof(dynamic_buffer) + capacity * sizeof(T)], computed in a [size_t]
    of 64 bits.  [sizeof(dynamic_buffer)] is the size of the two [size_t]
    fields that precede the elements. *)
Definition sizeof_dynamic_buffer : N := 16.

Definition allocation_size (sizeof_T capacity : N) : N :=
  ((sizeof_dynamic_buffer + capacity * sizeof_T) mod 2 ^ 64)%N.

(** The capacities for which the byte count has not wrapped: the block that
    [operator new] returns then has room for [capacity] elements. *)
Definition representable (sizeof_T : N) (capacity : nat) : Prop :=
  (sizeof_dynamic_buffer + N.of_nat capacity * sizeof_T < 2 ^ 64)%N.

Section socow_vector.

Context {T : Type}.
Variable SMALL_SIZE : nat.

(** A slot of element storage. *)
Local Abbreviation slot := (option T).

Definition raw (n : nat) : list slot := replicate n None.

Record dynamic_buffer := {
  capacity_ : nat;
  refs_count : nat;
  data_ : list slot
}.

(** The anonymous union of the class. *)
Inductive storage :=
  | dynamic_data (p : option addr)
  | static_buffer (a : list slot).

Record socow_vector := {
  size_ : nat;
  is_small_vector_ : bool;
  store_ : storage
}.

Record state := {
  heap : gmap addr dynamic_buffer;
  throw_in : option nat;
  copies : nat
}.

Inductive outcome (A E : Type) :=
  | Returns (s : state) (a : A)
  | Throws (s : state) (e : E).
Arguments Returns {A E} s a.
Arguments Throws {A E} s e.

(** ** Field updates *)

Definition set_size (v : socow_vector) (n : nat) : socow_vector :=
  {| size_ := n; is_small_vector_ := is_small_vector_ v; store_ := store_ v |}.

Definition set_small (v : socow_vector) (b : bool) : socow_vector :=
  {| size_ := size_ v; is_small_vector_ := b; store_ := store_ v |}.

Definition set_store (v : socow_vector) (u : storage) : socow_vector :=
  {| size_ := size_ v; is_small_vector_ := is_small_vector_ v; store_ := u |}.

Definition set_heap (s : state) (h : gmap addr dynamic_buffer) : state :=
  {| heap := h; throw_in := throw_in s; copies := copies s |}.

Definition set_refs (b : dynamic_buffer) (n : nat) : dynamic_buffer :=
  {| capacity_ := capacity_ b; refs_count := n; data_ := data_ b |}.

Definition set_data (b : dynamic_buffer) (d : list slot) : dynamic_buffer :=
  {| capacity_ := capacity_ b; refs_count := refs_count b; data_ := d |}.

(** Reading a member of the union that was not the one written last yields
    indeterminate bytes: raw slots, or a pointer to nothing. *)
Definition union_static (u : storage) : list slot :=
  match u with
  | static_buffer a => a
  | dynamic_data _ => raw SMALL_SIZE
  end.

Definition union_dynamic (u : storage) : option addr :=
  match u with
  | dynamic_data p => p
  | static_buffer _ => None
  end.

Arguments union_static !u /.
Arguments union_dynamic !u /.

Definition get_static_buffer (v : socow_vector) : list slot := union_static (store_ v).

Definition get_dynamic_data (v : socow_vector) : option addr := union_dynamic (store_ v).

(** ** Throwing operations *)

(** One step of the fault schedule: [None] when the operation throws. *)
Definition may_throw (s : state) : option state :=
  match throw_in s with
  | None => Some s
  | Some (S k) => Some {| heap := heap s; throw_in := Some k; copies := copies s |}
  | Some 0 => None
  end.

(** The state in which the exception travels: the fault has been spent. *)
Definition thrown (s : state) : state :=
  {| heap := heap s; throw_in := None; copies := copies s |}.

(** [T(const T&)]: counted in [copies] when it completes. *)
Definition copy_T (s : state) : option state :=
  match may_throw s with
  | Some s' => Some {| heap := heap s'; throw_in := throw_in s'; copies := S (copies s') |}
  | None => None
  end.

(** [T::operator=(const T&)]. *)
Definition assign_T (s : state) : option state := may_throw s.

(** What the target of a copy assignment holds when the assignment has
    thrown: whatever the element type leaves there. *)
Variable assign_failed : T → T → T.

Definition assign_failed_slot (target source : slot) : slot :=
  match target, source with
  | Some x, Some y => Some (assign_failed x y)
  | _, _ => target
  end.

(** [std::swap(a, b)] on two elements: [T tmp(a); a = b; b = tmp;]. *)
Definition std_swap (s : state) (a b : slot) : outcome (slot * slot) (slot * slot) :=
  match copy_T s with
  | None => Throws (thrown s) (a, b)
  | Some s1 =>
      match assign_T s1 with
      | None => Throws (thrown s1) (assign_failed_slot a b, b)
      | Some s2 =>
          match assign_T s2 with
          | None => Throws (thrown s2) (b, assign_failed_slot b a)
          | Some s3 => Returns s3 (b, a)
          end
      end
  end.

Definition slot_at (d : list slot) (i : nat) : slot := default None (d !! i).

(** [std::uninitialized_copy(first, last, d_first)], with [src] the slots of
    [first, last) and [d_first] the slot [off] of [dest].  Objects are
    constructed in order; when a copy throws, the objects constructed so far
    are destroyed and the exception is passed on. *)
Fixpoint uninitialized_copy (src : list slot) (dest : list slot) (off : nat) (s : state)
  : outcome (list slot) (list slot) :=
  match src with
  | [] => Returns s dest
  | x :: src' =>
      match copy_T s with
      | None => Throws (thrown s) dest
      | Some s1 =>
          match uninitialized_copy src' (<[off := x]> dest) (S off) s1 with
          | Returns s2 d => Returns s2 d
          | Throws s2 d => Throws s2 (<[off := None]> d)
          end
      end
  end.

(** [std::destroy_n(first, n)] on the slots starting at [first]. *)
Definition destroy_n (d : list slot) (n : nat) : list slot :=
  raw (n `min` length d) ++ drop n d.

(** ** Private helpers of the class *)

Definition buffer_at (s : state) (v : socow_vector) : option dynamic_buffer :=
  match get_dynamic_data v with
  | Some p => heap s !! p
  | None => None
  end.

(** [const_data()], as the contents of the storage it points to. *)
Definition const_data (s : state) (v : socow_vector) : list slot :=
  if is_small_vector_ v then get_static_buffer v
  else match buffer_at s v with
       | Some b => data_ b
       | None => []
       end.

(** [const_data()], as an address. *)
Definition const_data_ptr (v : socow_vector) : pointer :=
  if is_small_vector_ v then static_ptr
  else match get_dynamic_data v with
       | Some p => heap_ptr p
       | None => null_ptr
       end.

(** Writing [d] back through the pointer [const_data()] returned. *)
Definition store_data (s : state) (v : socow_vector) (d : list slot) : state * socow_vector :=
  if is_small_vector_ v then (s, set_store v (static_buffer d))
  else match get_dynamic_data v with
       | Some p => (set_heap s (alter (λ b, set_data b d) p (heap s)), v)
       | None => (s, v)
       end.

Definition size (v : socow_vector) : nat := size_ v.

Definition empty (v : socow_vector) : bool := size v =? 0.

Definition capacity (s : state) (v : socow_vector) : nat :=
  if is_small_vector_ v then SMALL_SIZE
  else match buffer_at s v with
       | Some b => capacity_ b
       | None => 0
       end.

Definition is_only_vector_ref (s : state) (v : socow_vector) : bool :=
  is_small_vector_ v ||
  match buffer_at s v with
  | Some b => refs_count b =? 1
  | None => false
  end.

(** [is_same_vector] for references to two distinct objects.  A small
    vector's [const_data()] points into the object itself, so the two
    pointers can only be equal when both vectors are dynamic and hold the
    same block (or both hold [nullptr]).  [same_storage] below compares
    the pointers of two objects that may be one and the same. *)
Definition is_same_vector (this other : socow_vector) : bool :=
  match const_data_ptr this, const_data_ptr other with
  | heap_ptr p, heap_ptr q => bool_decide (p = q)
  | null_ptr, null_ptr => true
  | _, _ => false
  end.

Definition add_vector_ref (s : state) (v : socow_vector) : state :=
  if is_small_vector_ v then s
  else match get_dynamic_data v with
       | Some p => set_heap s (alter (λ b, set_refs b (S (refs_count b))) p (heap s))
       | None => s
       end.

(** [release_ref]: the block is destroyed and freed when the count drops
    to zero. *)
Definition release_ref (s : state) (p : option addr) (count : nat) : state :=
  match p with
  | None => s
  | Some p =>
      match heap s !! p with
      | None => s
      | Some b =>
          if refs_count b - 1 =? 0
          then set_heap s (delete p (heap s))
          else set_heap s (<[p := set_refs b (refs_count b - 1)]> (heap s))
      end
  end.

Definition release_vector_ref (s : state) (v : socow_vector) : state :=
  if is_small_vector_ v then s
  else release_ref s (get_dynamic_data v) (size v).

Definition noexcept_clear (s : state) (v : socow_vector) : state * socow_vector :=
  if negb (is_only_vector_ref s v) then
    let v1 := set_size (set_small v true) 0 in
    match get_dynamic_data v with
    | Some p => (set_heap s (alter (λ b, set_refs b (refs_count b - 1)) p (heap s)), v1)
    | None => (s, v1)
    end
  else
    let '(s1, v1) := store_data s v (destroy_n (const_data s v) (size v)) in
    (s1, set_size v1 0).

(** [operator new] followed by the block's constructor.  The block has
    room for [capacity] elements, which is what the code obtains whenever
    [capacity] is [representable]. *)
Definition allocate_dynamic_buffer (s : state) (v : socow_vector) (capacity : nat)
  : outcome socow_vector socow_vector :=
  match may_throw s with
  | None => Throws (thrown s) v
  | Some s1 =>
      let p := fresh (dom (heap s1)) in
      let b := {| capacity_ := capacity; refs_count := 1; data_ := raw capacity |} in
      Returns (set_heap s1 (<[p := b]> (heap s1))) (set_store v (dynamic_data (Some p)))
  end.

(** [operator delete(dynamic_data)]. *)
Definition operator_delete (s : state) (p : option addr) : state :=
  match p with
  | Some p => set_heap s (delete p (heap s))
  | None => s
  end.

(** ** Constructors and destructor *)

(** [socow_vector()]. *)
Definition default_vector : socow_vector :=
  {| size_ := 0; is_small_vector_ := true; store_ := dynamic_data None |}.

(** [socow_vector(const socow_vector& other, size_t new_size, size_t
    new_capacity)].  The call of [data()] is made on the object under
    construction, which is small or holds the block just allocated with
    [refs_count = 1]: its [unshare()] returns at once. *)
Definition construct_from (s : state) (other : socow_vector) (new_size new_capacity : nat)
  : outcome socow_vector unit :=
  let this0 := {| size_ := new_size;
                  is_small_vector_ := bool_decide (new_capacity ≤ SMALL_SIZE);
                  store_ := static_buffer (raw SMALL_SIZE) |} in
  match (if is_small_vector_ this0 then Returns s this0
         else allocate_dynamic_buffer s this0 new_capacity) with
  | Throws s1 _ => Throws s1 ()
  | Returns s1 this1 =>
      match uninitialized_copy (take new_size (const_data s1 other)) (const_data s1 this1) 0 s1 with
      | Returns s2 d => let '(s3, this2) := store_data s2 this1 d in Returns s3 this2
      | Throws s2 d =>
          if is_small_vector_ this1 then Throws s2 ()
          else Throws (operator_delete s2 (get_dynamic_data this1)) ()
      end
  end.

(** [socow_vector(const socow_vector& other)]. *)
Definition copy_construct (s : state) (other : socow_vector) : outcome socow_vector unit :=
  let this0 := {| size_ := size other;
                  is_small_vector_ := is_small_vector_ other;
                  store_ := static_buffer (raw SMALL_SIZE) |} in
  if is_small_vector_ this0 then
    match uninitialized_copy (take (size other) (const_data s other)) (const_data s this0) 0 s with
    | Returns s1 d => let '(s2, this1) := store_data s1 this0 d in Returns s2 this1
    | Throws s1 _ => Throws s1 ()
    end
  else
    let this1 := set_store this0 (dynamic_data (get_dynamic_data other)) in
    Returns (add_vector_ref s this1) this1.

(** [~socow_vector()]. *)
Definition destructor (s : state) (v : socow_vector) : state :=
  if is_small_vector_ v then fst (noexcept_clear s v)
  else release_vector_ref s v.

(** ** Methods

    A method called on an object returns the object's new state together
    with its result, or throws and leaves the object in the state [e]. *)

Definition method (A : Type) : Type := outcome (socow_vector * A) socow_vector.

Definition bind {A B : Type} (r : method A)
    (k : state → socow_vector → A → method B) : method B :=
  match r with
  | Returns s (v, a) => k s v a
  | Throws s v => Throws s v
  end.

Notation "'let!' ( s , v , a ) := r 'in' k" := (bind r (λ s v a, k))
  (at level 10, s name, v name, a name, r at level 100, k at level 200,
   format "'[v' 'let!'  ( s ,  v ,  a )  :=  r  'in' '/' k ']'").

(** End of the scope of a local [tmp] that a two-object call has worked
    on: its destructor runs, on the normal path and during unwinding. *)
Definition leave_scope (r : outcome (socow_vector * socow_vector) (socow_vector * socow_vector))
  : method unit :=
  match r with
  | Returns s (this, tmp) => Returns (destructor s tmp) (this, ())
  | Throws s (this, tmp) => Throws (destructor s tmp) this
  end.

Definition flip_pair {A E : Type} (r : outcome (A * A) (E * E)) : outcome (A * A) (E * E) :=
  match r with
  | Returns s (a, b) => Returns s (b, a)
  | Throws s (a, b) => Throws s (b, a)
  end.

(** [std::iter_swap(d + i, d + j)], which is [std::swap(d[i], d[j])].  When
    it throws, the two elements stay in the storage as the failed step left
    them. *)
Definition iter_swap (s : state) (d : list slot) (i j : nat) : outcome (list slot) (list slot) :=
  match std_swap s (slot_at d i) (slot_at d j) with
  | Returns s1 (a, b) => Returns s1 (<[j := b]> (<[i := a]> d))
  | Throws s1 (a, b) => Throws s1 (<[j := b]> (<[i := a]> d))
  end.

(** [for (i = from; i < n; ++i) std::swap(a[i], b[i])], with enough fuel
    for the [n] iterations.  An exception leaves the loop at once. *)
Fixpoint swap_elements (fuel i n : nat) (s : state) (a b : list slot)
  : outcome (list slot * list slot) (list slot * list slot) :=
  match fuel with
  | 0 => Returns s (a, b)
  | S fuel' =>
      if i <? n
      then match std_swap s (slot_at a i) (slot_at b i) with
           | Returns s1 (x, y) => swap_elements fuel' (S i) n s1 (<[i := x]> a) (<[i := y]> b)
           | Throws s1 (x, y) => Throws s1 (<[i := x]> a, <[i := y]> b)
           end
      else Returns s (a, b)
  end.

(** [const_data()[--size_].~T()], the first branch of [pop_back]. *)
Definition destroy_back (s : state) (v : socow_vector) : state * socow_vector :=
  let v1 := set_size v (size v - 1) in
  store_data s v1 (<[size v1 := None]> (const_data s v1)).

(** [while (v.size() > n) v.pop_back()] on a small vector [v], for which
    [pop_back] takes its first branch. *)
Fixpoint pop_back_small_while (fuel n : nat) (s : state) (v : socow_vector) : state * socow_vector :=
  match fuel with
  | 0 => (s, v)
  | S fuel' =>
      if n <? size v
      then let '(s1, v1) := destroy_back s v in pop_back_small_while fuel' n s1 v1
      else (s, v)
  end.

(** [swap], both vectors small and [size() <= other.size()].  [begin()] and
    [end()] are called on small vectors, where [unshare()] returns at
    once.  Nothing is undone when the exchange of the common prefix
    throws. *)
Definition swap_small_small (s : state) (this other : socow_vector)
  : outcome (socow_vector * socow_vector) (socow_vector * socow_vector) :=
  match uninitialized_copy (drop (size this) (take (size other) (const_data s other)))
          (const_data s this) (size this) s with
  | Throws s1 d => Throws s1 (set_store this (static_buffer d), other)
  | Returns s1 d =>
      let this1 := set_store this (static_buffer d) in
      let tmp_size := size this1 in
      let this2 := set_size this1 (size other) in
      let '(s2, other1) := pop_back_small_while (size other) tmp_size s1 other in
      match swap_elements tmp_size 0 tmp_size s2
              (get_static_buffer other1) (get_static_buffer this2) with
      | Returns s3 (a, b) =>
          Returns s3 (set_store this2 (static_buffer b), set_store other1 (static_buffer a))
      | Throws s3 (a, b) =>
          Throws s3 (set_store this2 (static_buffer b), set_store other1 (static_buffer a))
      end
  end.

(** [swap], [this] dynamic and [other] small. *)
Definition swap_dynamic_small (s : state) (this other : socow_vector)
  : outcome (socow_vector * socow_vector) (socow_vector * socow_vector) :=
  let tmp := get_dynamic_data this in
  let tmp_size := size this in
  let this1 := set_store (set_small this true) (dynamic_data None) in
  match uninitialized_copy (take (size other) (const_data s other)) (const_data s this1) 0 s with
  | Throws s1 d =>
      Throws s1 (set_store (set_small (set_store this1 (static_buffer d)) false) (dynamic_data tmp),
                 other)
  | Returns s1 d =>
      let this2 := set_size (set_store this1 (static_buffer d)) (size other) in
      let '(s2, other1) := noexcept_clear s1 other in
      let other2 := set_size (set_store (set_small other1 false) (dynamic_data tmp)) tmp_size in
      Returns s2 (this2, other2)
  end.

(** [swap(socow_vector& other)] for two distinct objects.  The recursive
    calls [other.swap( *this)] are unfolded: they pass the same tests with
    the roles exchanged. *)
Definition swap (s : state) (this other : socow_vector)
  : outcome (socow_vector * socow_vector) (socow_vector * socow_vector) :=
  if is_same_vector this other then Returns s (this, other)
  else if is_small_vector_ this && is_small_vector_ other then
    if size other <? size this
    then flip_pair (swap_small_small s other this)
    else swap_small_small s this other
  else if is_small_vector_ other then swap_dynamic_small s this other
  else if is_small_vector_ this then flip_pair (swap_dynamic_small s other this)
  else
    Returns s (set_size (set_store this (dynamic_data (get_dynamic_data other))) (size other),
               set_size (set_store other (dynamic_data (get_dynamic_data this))) (size this)).

Definition pop_back (s : state) (this : socow_vector) : method unit :=
  if is_only_vector_ref s this then
    let '(s1, this1) := destroy_back s this in Returns s1 (this1, ())
  else
    match construct_from s this (size this - 1) (capacity s this) with
    | Throws s1 _ => Throws s1 this
    | Returns s1 tmp => leave_scope (swap s1 this tmp)
    end.

Definition unshare (s : state) (this : socow_vector) : method unit :=
  if is_only_vector_ref s this then Returns s (this, ())
  else
    match construct_from s this (size this) (capacity s this) with
    | Throws s1 _ => Throws s1 this
    | Returns s1 tmp => leave_scope (swap s1 this tmp)
    end.

(** The non-const [data()]. *)
Definition data (s : state) (this : socow_vector) : method pointer :=
  let! (s1, this1, _) := unshare s this in
  Returns s1 (this1, const_data_ptr this1).

(** The non-const [begin()] and [end()]. *)
Definition begin (s : state) (this : socow_vector) : method iterator :=
  let! (s1, this1, p) := data s this in
  Returns s1 (this1, {| base := p; offset := 0 |}).

Definition end_ (s : state) (this : socow_vector) : method iterator :=
  let! (s1, this1, b) := begin s this in
  Returns s1 (this1, {| base := base b; offset := offset b + size this1 |}).

(** The const [operator[]]. *)
Definition at_const (s : state) (this : socow_vector) (index : nat) : slot :=
  slot_at (const_data s this) index.

(** The non-const [operator[]], [front()] and [back()], followed by an
    assignment through the reference they return. *)
Definition assign_at (s : state) (this : socow_vector) (index : nat) (value : T) : method unit :=
  let! (s1, this1, _) := data s this in
  let '(s2, this2) := store_data s1 this1 (<[index := Some value]> (const_data s1 this1)) in
  Returns s2 (this2, ()).



(** [from_dynamic_to_static(data_pointer, count)].  [src] holds the slots of
    [data_pointer, data_pointer + count): they lie in the old block or in
    another object, neither of which the method writes before the copy. *)
Definition from_dynamic_to_static (s : state) (this : socow_vector) (src : list slot) (count : nat)
  : method unit :=
  let tmp := get_dynamic_data this in
  let this1 := set_store (set_small this true) (dynamic_data None) in
  match uninitialized_copy src (const_data s this1) 0 s with
  | Returns s1 d =>
      let this2 := set_store this1 (static_buffer d) in
      let s2 := release_ref s1 tmp (size this2) in
      Returns s2 (set_size this2 count, ())
  | Throws s1 d =>
      Throws s1 (set_store (set_small (set_store this1 (static_buffer d)) false) (dynamic_data tmp))
  end.

(** [while (size() > n) pop_back()]. *)
Fixpoint pop_back_while (fuel n : nat) (s : state) (this : socow_vector) : method unit :=
  match fuel with
  | 0 => Returns s (this, ())
  | S fuel' =>
      if n <? size this
      then let! (s1, this1, _) := pop_back s this in pop_back_while fuel' n s1 this1
      else Returns s (this, ())
  end.

(** [operator=(const socow_vector& other)] for two distinct objects. *)
Definition assign (s : state) (this other : socow_vector) : method unit :=
  if is_same_vector this other then Returns s (this, ())
  else if is_small_vector_ this && is_small_vector_ other then
    let tmp := default_vector in
    let m := size this `min` size other in
    match uninitialized_copy (take m (const_data s other)) (const_data s tmp) 0 s with
    | Throws s1 d => Throws (destructor s1 (set_store tmp (static_buffer d))) this
    | Returns s1 d =>
        let tmp1 := set_size (set_store tmp (static_buffer d)) m in
        match uninitialized_copy (drop (size tmp1) (take (size other) (const_data s1 other)))
                (const_data s1 this) (size tmp1) s1 with
        | Throws s2 d2 => Throws (destructor s2 tmp1) (set_store this (static_buffer d2))
        | Returns s2 d2 =>
            let this1 := set_store this (static_buffer d2) in
            match pop_back_while (size this1) (size other) s2 this1 with
            | Throws s3 this2 => Throws (destructor s3 tmp1) this2
            | Returns s3 (this2, _) =>
                let this3 := set_size this2 (size other) in
                match swap_elements (size tmp1) 0 (size tmp1) s3
                        (get_static_buffer tmp1) (get_static_buffer this3) with
                | Returns s4 (a, b) =>
                    Returns (destructor s4 (set_store tmp1 (static_buffer a)))
                            (set_store this3 (static_buffer b), ())
                | Throws s4 (a, b) =>
                    Throws (destructor s4 (set_store tmp1 (static_buffer a)))
                           (set_store this3 (static_buffer b))
                end
            end
        end
    end
  else if is_small_vector_ other then
    from_dynamic_to_static s this (take (size other) (const_data s other)) (size other)
  else
    let '(s1, this1) :=
      if is_small_vector_ this
      then let '(s', t) := noexcept_clear s this in (s', set_small t false)
      else (release_vector_ref s this, this) in
    let this2 := set_store this1 (dynamic_data (get_dynamic_data other)) in
    Returns (add_vector_ref s1 this2) (set_size this2 (size other), ()).

Definition reserve (s : state) (this : socow_vector) (new_capacity : nat) : method unit :=
  if new_capacity <? size this then Returns s (this, ())
  else if negb (is_only_vector_ref s this) && (new_capacity <=? SMALL_SIZE) then
    from_dynamic_to_static s this (take (size this) (const_data s this)) (size this)
  else if (capacity s this <? new_capacity)
          || (negb (is_only_vector_ref s this) && (size this <=? new_capacity)) then
    if is_small_vector_ this then
      match construct_from s this (size this) new_capacity with
      | Throws s1 _ => Throws s1 this
      | Returns s1 tmp =>
          match assign s1 this tmp with
          | Returns s2 (this1, _) => Returns (destructor s2 tmp) (this1, ())
          | Throws s2 this1 => Throws (destructor s2 tmp) this1
          end
      end
    else
      match construct_from s this (size this) new_capacity with
      | Throws s1 _ => Throws s1 this
      | Returns s1 tmp => leave_scope (flip_pair (swap s1 tmp this))
      end
  else Returns s (this, ()).

Definition shrink_to_fit (s : state) (this : socow_vector) : method unit :=
  if is_small_vector_ this || (size this =? capacity s this) then Returns s (this, ())
  else if size this <=? SMALL_SIZE then
    from_dynamic_to_static s this (take (size this) (const_data s this)) (size this)
  else
    match construct_from s this (size this) (size this) with
    | Throws s1 _ => Throws s1 this
    | Returns s1 tmp => leave_scope (flip_pair (swap s1 tmp this))
    end.

Definition clear (s : state) (this : socow_vector) : method unit :=
  if negb (is_only_vector_ref s this) then
    match reserve s default_vector (size this) with
    | Throws s1 tmp => Throws (destructor s1 tmp) this
    | Returns s1 (tmp, _) => leave_scope (swap s1 this tmp)
    end
  else
    let '(s1, this1) := store_data s this (destroy_n (const_data s this) (size this)) in
    let this2 := set_size this1 0 in
    let was_only_ref := is_only_vector_ref s1 this2 in
    let '(s2, this3) := noexcept_clear s1 this2 in
    if negb was_only_ref then
      match allocate_dynamic_buffer s2 this3 (capacity s2 this3) with
      | Throws s3 this4 => Throws s3 this4
      | Returns s3 this4 => Returns s3 (set_small this4 false, ())
      end
    else Returns s2 (this3, ()).

(** [for (i = end() - 1; i > spot; --i) std::iter_swap(i, i - 1)], with
    [i] and [spot] as offsets. *)
Fixpoint rotate_back (fuel i spot : nat) (s : state) (d : list slot)
  : outcome (list slot) (list slot) :=
  match fuel with
  | 0 => Returns s d
  | S fuel' =>
      if spot <? i
      then match iter_swap s d i (i - 1) with
           | Returns s1 d1 => rotate_back fuel' (i - 1) spot s1 d1
           | Throws s1 d1 => Throws s1 d1
           end
      else Returns s d
  end.

(** [insert(pos, value)], with [pos] given by [delta = pos - const_data()].
    In the first branch the vector is the only reference, so the calls of
    [data()], [begin()] and [end()] do not unshare; the loop works on the
    storage itself, which keeps what the loop had done when an exchange
    throws. *)
Definition insert (s : state) (this : socow_vector) (delta : nat) (value : T) : method iterator :=
  if negb (size this =? capacity s this) && is_only_vector_ref s this then
    match copy_T s with
    | None => Throws (thrown s) this
    | Some s1 =>
        let '(s2, this1) := store_data s1 this (<[size this := Some value]> (const_data s1 this)) in
        let this2 := set_size this1 (S (size this1)) in
        match rotate_back (size this2) (size this2 - 1) delta s2 (const_data s2 this2) with
        | Returns s3 d =>
            let '(s4, this3) := store_data s3 this2 d in
            Returns s4 (this3, {| base := const_data_ptr this3; offset := delta |})
        | Throws s3 d =>
            let '(s4, this3) := store_data s3 this2 d in Throws s4 this3
        end
    end
  else
    let tmp := default_vector in
    match allocate_dynamic_buffer s tmp
            (if size this =? capacity s this then 2 * capacity s this else capacity s this) with
    | Throws s1 tmp1 => Throws (destructor s1 tmp1) this
    | Returns s1 tmp1 =>
        let tmp2 := set_small tmp1 false in
        match uninitialized_copy (take delta (const_data s1 this)) (const_data s1 tmp2) 0 s1 with
        | Throws s2 d => Throws (destructor (fst (store_data s2 tmp2 d)) tmp2) this
        | Returns s2 d =>
            let '(s3, tmp3) := store_data s2 tmp2 d in
            let tmp4 := set_size tmp3 delta in
            match copy_T s3 with
            | None => Throws (destructor (thrown s3) tmp4) this
            | Some s4 =>
                let '(s5, tmp5) :=
                  store_data s4 tmp4 (<[delta := Some value]> (const_data s4 tmp4)) in
                let tmp6 := set_size tmp5 (S (size tmp5)) in
                match uninitialized_copy (drop delta (take (size this) (const_data s5 this)))
                        (const_data s5 tmp6) (delta + 1) s5 with
                | Throws s6 d2 => Throws (destructor (fst (store_data s6 tmp6 d2)) tmp6) this
                | Returns s6 d2 =>
                    let '(s7, tmp7) := store_data s6 tmp6 d2 in
                    let tmp8 := set_size tmp7 (size this + 1) in
                    let '(s8, this1) := noexcept_clear s7 this in
                    let! (s9, this2, _) := leave_scope (swap s8 this1 tmp8) in
                    let! (s10, this3, b) := begin s9 this2 in
                    Returns s10 (this3, {| base := base b; offset := offset b + delta |})
                end
            end
        end
    end.

Definition push_back (s : state) (this : socow_vector) (value : T) : method unit :=
  let! (s1, this1, _) := insert s this (size this) value in
  Returns s1 (this1, ()).

(** [for (i = first; i + interval < end(); ++i) std::iter_swap(i, i +
    interval)], with [i] and [end()] as offsets. *)
Fixpoint shift_down (fuel i interval e : nat) (s : state) (d : list slot)
  : outcome (list slot) (list slot) :=
  match fuel with
  | 0 => Returns s d
  | S fuel' =>
      if i + interval <? e
      then match iter_swap s d i (i + interval) with
           | Returns s1 d1 => shift_down fuel' (S i) interval e s1 d1
           | Throws s1 d1 => Throws s1 d1
           end
      else Returns s d
  end.

(** [for (auto i = 0; i < interval; i++) pop_back()]. *)
Fixpoint pop_back_times (interval : nat) (s : state) (this : socow_vector) : method unit :=
  match interval with
  | 0 => Returns s (this, ())
  | S n => let! (s1, this1, _) := pop_back s this in pop_back_times n s1 this1
  end.

(** [erase(first, last)], with the iterators given by their offsets from
    [begin()].  In the first branch the vector is the only reference, so
    [end()] does not unshare; when an exchange throws, the storage keeps
    what the loop had done and no element is popped. *)
Definition erase (s : state) (this : socow_vector) (first last : nat) : method iterator :=
  let interval := last - first in
  let delta := first in
  let! (s1, this1, _) :=
    (if is_only_vector_ref s this then
       let! (s1, this1, _) :=
         (if negb (interval =? 0)
          then match shift_down (size this) first interval (size this) s (const_data s this) with
               | Returns s1 d => let '(s2, this1) := store_data s1 this d in Returns s2 (this1, ())
               | Throws s1 d => let '(s2, this1) := store_data s1 this d in Throws s2 this1
               end
          else Returns s (this, ())) in
       pop_back_times interval s1 this1
     else
       match construct_from s this delta (capacity s this) with
       | Throws s1 _ => Throws s1 this
       | Returns s1 tmp =>
           match begin s1 tmp with
           | Throws s2 tmp1 => Throws (destructor s2 tmp1) this
           | Returns s2 (tmp1, b) =>
               match uninitialized_copy
                       (drop (delta + interval) (take (size this) (const_data s2 this)))
                       (const_data s2 tmp1) (offset b + delta) s2 with
               | Throws s3 d => Throws (destructor (fst (store_data s3 tmp1 d)) tmp1) this
               | Returns s3 d =>
                   let '(s4, tmp2) := store_data s3 tmp1 d in
                   let tmp3 := set_size tmp2 (size this - interval) in
                   leave_scope (swap s4 this tmp3)
               end
           end
       end) in
  let! (s2, this2, b) := begin s1 this1 in
  Returns s2 (this2, {| base := base b; offset := offset b + delta |}).

(** [erase(pos)]. *)
Definition erase1 (s : state) (this : socow_vector) (pos : nat) : method iterator :=
  erase s this pos (pos + 1).


(** * Properties

    ** Slots holding a list of elements *)

(** The slots of a storage of [cap] elements whose first [length l] slots
    hold the objects of [l], the others being raw. *)
Definition slots_of (l : list T) (cap : nat) : list slot :=
  (Some <$> l) ++ raw (cap - length l).

Lemma length_raw n : length (raw n) = n.
Proof. apply length_replicate. Qed.

Lemma length_slots_of l cap : length l ≤ cap → length (slots_of l cap) = cap.
Proof.
  intros H. unfold slots_of. rewrite length_app, length_fmap, length_raw. lia.
Qed.

Lemma slots_of_nil cap : slots_of [] cap = raw cap.
Proof. unfold slots_of. simpl. by rewrite Nat.sub_0_r. Qed.

Lemma slots_of_inj l1 l2 cap : slots_of l1 cap = slots_of l2 cap → length l1 = length l2 → l1 = l2.
Proof.
  unfold slots_of. intros H Hlen.
  apply app_inj_1 in H as [H _]; [|by rewrite !length_fmap].
  revert H. apply (inj (fmap Some)).
Qed.

Lemma raw_S n : raw (S n) = None :: raw n.
Proof. done. Qed.

Lemma insert_slots_of_snoc l cap x :
  length l < cap → <[length l := Some x]> (slots_of l cap) = slots_of (l ++ [x]) cap.
Proof.
  intros H. unfold slots_of.
  rewrite insert_app_r_alt by (rewrite length_fmap; lia).
  rewrite length_fmap, Nat.sub_diag, fmap_app, length_app. simpl.
  replace (cap - length l) with (S (cap - (length l + 1))) by lia.
  by rewrite raw_S, <- app_assoc.
Qed.

Lemma destroy_slots_of_snoc l cap x :
  length l < cap → <[length l := None]> (slots_of (l ++ [x]) cap) = slots_of l cap.
Proof.
  intros H. unfold slots_of.
  rewrite fmap_app, <- app_assoc, length_app. simpl.
  rewrite insert_app_r_alt by (rewrite length_fmap; lia).
  rewrite length_fmap, Nat.sub_diag. simpl.
  replace (cap - length l) with (S (cap - (length l + 1))) by lia.
  by rewrite raw_S.
Qed.

Lemma take_slots_of n l cap : n ≤ length l → take n (slots_of l cap) = Some <$> take n l.
Proof.
  intros H. unfold slots_of.
  rewrite take_app_le by (rewrite length_fmap; lia). by rewrite fmap_take.
Qed.

Lemma take_all_slots_of l cap : take (length l) (slots_of l cap) = Some <$> l.
Proof. rewrite take_slots_of by lia. by rewrite firstn_all. Qed.

Lemma slot_at_slots_of l cap i x : l !! i = Some x → slot_at (slots_of l cap) i = Some x.
Proof.
  intros H. unfold slot_at, slots_of.
  rewrite lookup_app_l by (rewrite length_fmap; by eapply lookup_lt_Some).
  by rewrite list_lookup_fmap, H.
Qed.

Lemma destroy_n_slots_of l cap : length l ≤ cap → destroy_n (slots_of l cap) (length l) = raw cap.
Proof.
  intros H. unfold destroy_n. rewrite length_slots_of by done.
  unfold slots_of. rewrite drop_app_length'; [|by rewrite length_fmap].
  rewrite Nat.min_l by done. unfold raw. rewrite <- replicate_add. f_equal. lia.
Qed.

(** ** [uninitialized_copy] *)

Lemma uninitialized_copy_heap src : ∀ dest off s,
  match uninitialized_copy src dest off s with
  | Returns s' _ => heap s' = heap s ∧ (throw_in s = None → throw_in s' = None)
                    ∧ copies s' = copies s + length src
  | Throws s' _ => heap s' = heap s ∧ throw_in s ≠ None
  end.
Proof.
  induction src as [|x src IH]; intros dest off s; simpl.
  - split_and!; [done..|lia].
  - unfold copy_T, may_throw.
    destruct (throw_in s) as [[|k]|] eqn:Hs; simpl; [done|..].
    all: match goal with |- context [uninitialized_copy ?l ?d ?o ?s1] =>
        specialize (IH d o s1); destruct (uninitialized_copy l d o s1) end;
      simpl in *; destruct IH as (? & ? & ?) || destruct IH as (? & ?);
      split_and?; try done; try lia.
    all: auto.
Qed.

(** Copying [l2] to the end of a storage that holds [l]: on return the
    storage holds [l ++ l2]; on a throw it holds [l] again. *)
Lemma uninitialized_copy_append l2 : ∀ l cap s,
  length l + length l2 ≤ cap →
  match uninitialized_copy (Some <$> l2) (slots_of l cap) (length l) s with
  | Returns _ d => d = slots_of (l ++ l2) cap
  | Throws _ d => d = slots_of l cap
  end.
Proof.
  induction l2 as [|x l2 IH]; intros l cap s Hlen; simpl in *.
  - by rewrite app_nil_r.
  - destruct (copy_T s) as [s1|]; [|done].
    rewrite insert_slots_of_snoc by lia.
    specialize (IH (l ++ [x]) cap s1). rewrite length_app in IH. simpl in IH.
    replace (length l + 1) with (S (length l)) in IH by lia.
    destruct (uninitialized_copy _ _ _ s1).
    + rewrite IH by lia. by rewrite <- app_assoc.
    + rewrite IH by lia. apply destroy_slots_of_snoc. lia.
Qed.

Lemma uninitialized_copy_append' l2 l cap src dest off s :
  src = Some <$> l2 → dest = slots_of l cap → off = length l →
  length l + length l2 ≤ cap →
  match uninitialized_copy src dest off s with
  | Returns _ d => d = slots_of (l ++ l2) cap
  | Throws _ d => d = slots_of l cap
  end.
Proof. intros -> -> ->. apply uninitialized_copy_append. Qed.

(** A copy that returns has made [length src] copies before the fault. *)
Lemma uninitialized_copy_budget src : ∀ dest off s,
  match uninitialized_copy src dest off s with
  | Returns _ _ => ∀ k, throw_in s = Some k → length src ≤ k
  | Throws _ _ => True
  end.
Proof.
  induction src as [|x src IH]; intros dest off s; simpl.
  - intros k _. lia.
  - unfold copy_T, may_throw.
    destruct (throw_in s) as [[|k]|] eqn:Hs; simpl; [done|..].
    all: match goal with |- context [uninitialized_copy ?l ?d ?o ?s1] =>
        specialize (IH d o s1); destruct (uninitialized_copy l d o s1) end;
      simpl in *; try done.
    + intros k' [= <-]. specialize (IH k eq_refl). lia.
Qed.

(** With no fault scheduled a copy returns. *)
Lemma uninitialized_copy_returns src dest off s :
  throw_in s = None → ∃ s' d, uninitialized_copy src dest off s = Returns s' d.
Proof.
  intros Hs. pose proof (uninitialized_copy_heap src dest off s) as H.
  destruct (uninitialized_copy src dest off s); [eauto|]. by destruct H.
Qed.

(** ** The element-shifting loops

    What the loops leave in the storage when every exchange has
    completed. *)
Definition iter_swap_done (d : list slot) (i j : nat) : list slot :=
  <[j := slot_at d i]> (<[i := slot_at d j]> d).

Fixpoint rotate_back_done (fuel i spot : nat) (d : list slot) : list slot :=
  match fuel with
  | 0 => d
  | S fuel' =>
      if spot <? i then rotate_back_done fuel' (i - 1) spot (iter_swap_done d i (i - 1)) else d
  end.

Fixpoint shift_down_done (fuel i interval e : nat) (d : list slot) : list slot :=
  match fuel with
  | 0 => d
  | S fuel' =>
      if i + interval <? e
      then shift_down_done fuel' (S i) interval e (iter_swap_done d i (i + interval))
      else d
  end.

Fixpoint swap_elements_done (fuel i n : nat) (a b : list slot) : list slot * list slot :=
  match fuel with
  | 0 => (a, b)
  | S fuel' =>
      if i <? n
      then swap_elements_done fuel' (S i) n (<[i := slot_at b i]> a) (<[i := slot_at a i]> b)
      else (a, b)
  end.

(** A storage whose first [n] slots hold objects and which goes on with
    the slots [Y]. *)
Definition filled (n : nat) (Y d : list slot) : Prop :=
  ∃ l : list T, length l = n ∧ d = (Some <$> l) ++ Y.

Lemma filled_slot_at n Y d i : filled n Y d → i < n → is_Some (slot_at d i).
Proof.
  intros (l & <- & ->) Hi. unfold slot_at.
  destruct (lookup_lt_is_Some_2 l i Hi) as [x Hx].
  rewrite lookup_app_l by (by rewrite length_fmap).
  rewrite list_lookup_fmap, Hx. simpl. eauto.
Qed.

Lemma filled_insert n Y d i x : filled n Y d → i < n → filled n Y (<[i := Some x]> d).
Proof.
  intros (l & <- & ->) Hi. exists (<[i := x]> l). split; [by rewrite length_insert|].
  rewrite insert_app_l by (by rewrite length_fmap). by rewrite list_fmap_insert.
Qed.

(** One exchange: it completes and has cost one copy, or it throws and
    leaves two objects in the two slots. *)
Lemma std_swap_spec s a b :
  match std_swap s a b with
  | Returns s' (a', b') =>
      a' = b ∧ b' = a ∧ heap s' = heap s ∧ (throw_in s = None → throw_in s' = None)
      ∧ copies s' = S (copies s)
  | Throws s' (a', b') =>
      heap s' = heap s ∧ throw_in s ≠ None
      ∧ (is_Some a → is_Some b → is_Some a' ∧ is_Some b')
  end.
Proof.
  unfold std_swap, assign_T, copy_T, may_throw.
  destruct (throw_in s) as [[|[|[|k]]]|] eqn:E; simpl; rewrite ?E; simpl;
    try (split_and!; try done; intros [x ->] [y ->]; simpl; eauto).
  all: by split_and!.
Qed.

Lemma iter_swap_spec s d i j n Y :
  filled n Y d → i < n → j < n →
  match iter_swap s d i j with
  | Returns s' d' =>
      d' = iter_swap_done d i j ∧ filled n Y d' ∧ heap s' = heap s
      ∧ (throw_in s = None → throw_in s' = None) ∧ copies s' = S (copies s)
  | Throws s' d' => filled n Y d' ∧ heap s' = heap s ∧ throw_in s ≠ None
  end.
Proof.
  intros Hd Hi Hj. unfold iter_swap, iter_swap_done.
  destruct (filled_slot_at _ _ _ _ Hd Hi) as [x Hx].
  destruct (filled_slot_at _ _ _ _ Hd Hj) as [y Hy].
  pose proof (std_swap_spec s (slot_at d i) (slot_at d j)) as H.
  destruct (std_swap s (slot_at d i) (slot_at d j)) as [s' [a b]|s' [a b]].
  - destruct H as (-> & -> & Hh & Ht & Hc). split_and!; try done.
    rewrite Hx, Hy. apply filled_insert; [by apply filled_insert|done].
  - destruct H as (Hh & Ht & Hsome). split_and!; try done.
    destruct Hsome as [[a' ->] [b' ->]]; [by rewrite Hx|by rewrite Hy|].
    apply filled_insert; [by apply filled_insert|done].
Qed.

(** The loop of [insert] completes with the storage rotated, having
    copied once for every exchange, or throws and leaves [n] objects. *)
Lemma rotate_back_spec fuel : ∀ i spot s d n Y,
  filled n Y d → i < n →
  match rotate_back fuel i spot s d with
  | Returns s' d' =>
      d' = rotate_back_done fuel i spot d ∧ heap s' = heap s
      ∧ (throw_in s = None → throw_in s' = None)
      ∧ copies s' = copies s + fuel `min` (i - spot)
  | Throws s' d' => filled n Y d' ∧ heap s' = heap s ∧ throw_in s ≠ None ∧ spot < i
  end.
Proof.
  induction fuel as [|fuel IH]; intros i spot s d n Y Hd Hi;
    cbn [rotate_back rotate_back_done].
  { split_and!; (done || lia). }
  destruct (Nat.ltb_spec spot i) as [Hlt|Hge].
  2:{ split_and!; (done || lia). }
  pose proof (iter_swap_spec s d i (i - 1) n Y Hd Hi ltac:(lia)) as H.
  destruct (iter_swap s d i (i - 1)) as [s1 d1|s1 d1].
  - destruct H as (-> & Hd1 & Hh & Ht & Hc).
    specialize (IH (i - 1) spot s1 _ n Y Hd1 ltac:(lia)).
    destruct (rotate_back fuel (i - 1) spot s1 _) as [s' d'|s' d'].
    + destruct IH as (-> & Hh' & Ht' & Hc'). split_and!; [done|congruence|auto|lia].
    + destruct IH as (Hd' & Hh' & Ht' & _). split_and!; [done|congruence| |done].
      intros Hs. by apply Ht', Ht.
  - destruct H as (Hd1 & Hh & Ht). by split_and!.
Qed.

(** The loop of [erase]. *)
Lemma shift_down_spec fuel : ∀ i interval e s d n Y,
  filled n Y d → e ≤ n →
  match shift_down fuel i interval e s d with
  | Returns s' d' =>
      d' = shift_down_done fuel i interval e d ∧ heap s' = heap s
      ∧ (throw_in s = None → throw_in s' = None)
      ∧ copies s' = copies s + fuel `min` (e - interval - i)
  | Throws s' d' => filled n Y d' ∧ heap s' = heap s ∧ throw_in s ≠ None ∧ i + interval < e
  end.
Proof.
  induction fuel as [|fuel IH]; intros i interval e s d n Y Hd He;
    cbn [shift_down shift_down_done].
  { split_and!; (done || lia). }
  destruct (Nat.ltb_spec (i + interval) e) as [Hlt|Hge].
  2:{ split_and!; (done || lia). }
  pose proof (iter_swap_spec s d i (i + interval) n Y Hd ltac:(lia) ltac:(lia)) as H.
  destruct (iter_swap s d i (i + interval)) as [s1 d1|s1 d1].
  - destruct H as (-> & Hd1 & Hh & Ht & Hc).
    specialize (IH (S i) interval e s1 _ n Y Hd1 He).
    destruct (shift_down fuel (S i) interval e s1 _) as [s' d'|s' d'].
    + destruct IH as (-> & Hh' & Ht' & Hc'). split_and!; [done|congruence|auto|lia].
    + destruct IH as (Hd' & Hh' & Ht' & _). split_and!; [done|congruence| |done].
      intros Hs. by apply Ht', Ht.
  - destruct H as (Hd1 & Hh & Ht). by split_and!.
Qed.

(** The loop of [swap] and of [operator=] over the common prefix of two
    storages. *)
Lemma swap_elements_spec fuel : ∀ i n s a b na Ya nb Yb,
  filled na Ya a → filled nb Yb b → n ≤ na → n ≤ nb →
  match swap_elements fuel i n s a b with
  | Returns s' (a', b') =>
      (a', b') = swap_elements_done fuel i n a b ∧ heap s' = heap s
      ∧ (throw_in s = None → throw_in s' = None)
      ∧ copies s' = copies s + fuel `min` (n - i)
  | Throws s' (a', b') =>
      filled na Ya a' ∧ filled nb Yb b' ∧ heap s' = heap s ∧ throw_in s ≠ None ∧ i < n
  end.
Proof.
  induction fuel as [|fuel IH]; intros i n s a b na Ya nb Yb Ha Hb Hna Hnb;
    cbn [swap_elements swap_elements_done].
  { split_and!; (done || lia). }
  destruct (Nat.ltb_spec i n) as [Hlt|Hge].
  2:{ split_and!; (done || lia). }
  destruct (filled_slot_at _ _ _ i Ha ltac:(lia)) as [x Hx].
  destruct (filled_slot_at _ _ _ i Hb ltac:(lia)) as [y Hy].
  pose proof (std_swap_spec s (slot_at a i) (slot_at b i)) as H.
  destruct (std_swap s (slot_at a i) (slot_at b i)) as [s1 [a1 b1]|s1 [a1 b1]].
  - destruct H as (-> & -> & Hh & Ht & Hc).
    assert (Ha1 : filled na Ya (<[i := slot_at b i]> a))
      by (rewrite Hy; apply filled_insert; [done|lia]).
    assert (Hb1 : filled nb Yb (<[i := slot_at a i]> b))
      by (rewrite Hx; apply filled_insert; [done|lia]).
    specialize (IH (S i) n s1 _ _ na Ya nb Yb Ha1 Hb1 Hna Hnb).
    destruct (swap_elements fuel (S i) n s1 _ _) as [s' [a' b']|s' [a' b']].
    + destruct IH as (-> & Hh' & Ht' & Hc'). split_and!; [done|congruence|auto|lia].
    + destruct IH as (Ha' & Hb' & Hh' & Ht' & _). split_and!; [done|done|congruence| |done].
      intros Hs. by apply Ht', Ht.
  - destruct H as (Hh & Ht & Hsome).
    destruct Hsome as [[a' ->] [b' ->]]; [by rewrite Hx|by rewrite Hy|].
    split_and!; try done; apply filled_insert; (done || lia).
Qed.

Lemma slot_at_app_r (X Y : list slot) i : slot_at (X ++ Y) (length X + i) = slot_at Y i.
Proof.
  unfold slot_at. rewrite lookup_app_r by lia.
  by replace (length X + i - length X) with i by lia.
Qed.

Lemma slot_at_middle (X Y : list slot) a : slot_at (X ++ a :: Y) (length X) = a.
Proof.
  rewrite <- (Nat.add_0_r (length X)) at 1. by rewrite slot_at_app_r.
Qed.

Lemma insert_middle (X Y : list slot) a b : <[length X := b]> (X ++ a :: Y) = X ++ b :: Y.
Proof.
  rewrite insert_app_r_alt by lia. by rewrite Nat.sub_diag.
Qed.

Lemma iter_swap_app (X M Y : list slot) a b :
  iter_swap_done (X ++ a :: M ++ b :: Y) (length X) (length X + S (length M))
  = X ++ b :: M ++ a :: Y.
Proof.
  unfold iter_swap_done.
  rewrite slot_at_middle.
  replace (slot_at (X ++ a :: M ++ b :: Y) (length X + S (length M))) with b.
  2:{ rewrite slot_at_app_r. change (a :: M ++ b :: Y) with ([a] ++ M ++ b :: Y).
      rewrite app_assoc. change (S (length M)) with (length ([a] ++ M)).
      by rewrite slot_at_middle. }
  rewrite insert_middle.
  change (b :: M ++ b :: Y) with ([b] ++ M ++ b :: Y).
  rewrite !app_assoc.
  replace (length X + S (length M)) with (length ((X ++ [b]) ++ M))
    by (rewrite !length_app; simpl; lia).
  rewrite insert_middle. by rewrite <- !app_assoc.
Qed.

Lemma iter_swap_comm (d : list slot) i j : i ≠ j → iter_swap_done d i j = iter_swap_done d j i.
Proof. intros H. unfold iter_swap_done. by rewrite list_insert_insert_ne by auto. Qed.

(** The loop of [insert]: the element at [i] travels down to [spot]. *)
Lemma rotate_back_app (M : list slot) : ∀ fuel (X Y : list slot) v,
  length M ≤ fuel →
  rotate_back_done fuel (length X + length M) (length X) (X ++ M ++ v :: Y) = X ++ v :: M ++ Y.
Proof.
  induction M as [|m M IH] using rev_ind; intros fuel X Y v Hfuel.
  - simpl. rewrite Nat.add_0_r. destruct fuel; [done|]. simpl.
    by rewrite Nat.ltb_irrefl.
  - rewrite length_app in *. simpl in *. destruct fuel as [|fuel]; [lia|]. simpl.
    destruct (Nat.ltb_spec (length X) (length X + (length M + 1))); [|lia].
    rewrite iter_swap_comm by lia.
    replace (length X + (length M + 1) - 1) with (length (X ++ M))
      by (rewrite length_app; lia).
    replace (X ++ (M ++ [m]) ++ v :: Y) with ((X ++ M) ++ m :: [] ++ v :: Y)
      by (by rewrite <- !app_assoc).
    replace (length X + (length M + 1)) with (length (X ++ M) + S (length (@nil slot)))
      by (rewrite length_app; simpl; lia).
    rewrite iter_swap_app. simpl.
    rewrite <- app_assoc, length_app. rewrite IH by lia.
    by rewrite <- !app_assoc.
Qed.

(** The loop of [erase]: the elements after the erased range move down
    over it; the erased objects end up, in some order, behind them. *)
Lemma shift_down_app (C : list slot) : ∀ fuel (X B Y : list slot),
  length C ≤ fuel → 0 < length B →
  ∃ B', B' ≡ₚ B ∧
    shift_down_done fuel (length X) (length B) (length X + length B + length C)
      (X ++ B ++ C ++ Y)
    = X ++ C ++ B' ++ Y.
Proof.
  induction C as [|c C IH]; intros fuel X B Y Hfuel HB.
  - exists B. split; [done|]. simpl. rewrite Nat.add_0_r.
    destruct fuel; [done|]. simpl. by rewrite Nat.ltb_irrefl.
  - simpl in *. destruct fuel as [|fuel]; [lia|]. simpl.
    destruct (Nat.ltb_spec (length X + length B) (length X + length B + S (length C))); [|lia].
    destruct B as [|b B]; [simpl in HB; lia|]. simpl.
    replace (X ++ b :: B ++ c :: C ++ Y) with (X ++ b :: B ++ c :: (C ++ Y)) by done.
    rewrite iter_swap_app.
    destruct (IH fuel (X ++ [c]) (B ++ [b]) Y) as (B' & HB' & Heq); [lia|rewrite length_app; simpl; lia|].
    exists B'. split.
    { rewrite HB'. by rewrite <- Permutation_cons_append. }
    rewrite !length_app in Heq. simpl in Heq.
    replace (length X + 1) with (S (length X)) in Heq by lia.
    replace (S (length X) + (length B + 1) + length C) with
      (length X + S (length B) + S (length C)) in Heq by lia.
    replace (length B + 1) with (S (length B)) in Heq by lia.
    rewrite <- !app_assoc in Heq. simpl in Heq.
    done.
Qed.

(** ** Well-formed vectors

    [rep s v l]: in the state [s] the vector [v] is well formed and holds
    the elements [l].  A small vector keeps them in the first slots of its
    inline storage.  A dynamic vector points to a live block of capacity
    above [SMALL_SIZE] whose first slots hold them; the block is counted at
    least once. *)
Inductive rep (s : state) : socow_vector → list T → Prop :=
  | rep_small u l :
      length l ≤ SMALL_SIZE →
      union_static u = slots_of l SMALL_SIZE →
      rep s {| size_ := length l; is_small_vector_ := true; store_ := u |} l
  | rep_dynamic p cap refs l :
      heap s !! p = Some {| capacity_ := cap; refs_count := refs; data_ := slots_of l cap |} →
      SMALL_SIZE < cap → length l ≤ cap → 1 ≤ refs →
      rep s {| size_ := length l; is_small_vector_ := false; store_ := dynamic_data (Some p) |} l.

Definition wf (s : state) (v : socow_vector) : Prop := ∃ l, rep s v l.

(** What a caller observes of the elements: the slots of [begin(), end()). *)
Definition contents (s : state) (v : socow_vector) : list slot :=
  take (size v) (const_data s v).

Ltac simp :=
  unfold set_size, set_small, set_store, set_heap, set_refs, set_data, thrown,
         get_static_buffer, get_dynamic_data, size in *;
  cbn [size_ is_small_vector_ store_ heap throw_in copies capacity_ refs_count data_
       set_size set_small set_store set_heap set_refs set_data thrown
       get_static_buffer get_dynamic_data union_static union_dynamic size
       buffer_at const_data const_data_ptr capacity is_only_vector_ref store_data
       base offset fst snd negb orb andb bind leave_scope flip_pair default_vector] in *.

Lemma rep_small_intro s n u l :
  n = length l → length l ≤ SMALL_SIZE → union_static u = slots_of l SMALL_SIZE →
  rep s {| size_ := n; is_small_vector_ := true; store_ := u |} l.
Proof. intros ->. apply rep_small. Qed.

Lemma rep_dynamic_intro s n p cap refs l :
  n = length l →
  heap s !! p = Some {| capacity_ := cap; refs_count := refs; data_ := slots_of l cap |} →
  SMALL_SIZE < cap → length l ≤ cap → 1 ≤ refs →
  rep s {| size_ := n; is_small_vector_ := false; store_ := dynamic_data (Some p) |} l.
Proof. intros ->. apply rep_dynamic. Qed.

Lemma rep_default s : rep s default_vector [].
Proof. apply rep_small_intro; simpl; [done|lia|by rewrite slots_of_nil]. Qed.

Lemma rep_size s v l : rep s v l → size v = length l.
Proof. by destruct 1. Qed.

Lemma rep_const_data s v l : rep s v l → const_data s v = slots_of l (capacity s v).
Proof. destruct 1 as [u l Hl Hu|p cap refs l Hp Hcap Hl Hr]; simp; [done|]. by rewrite Hp. Qed.

Lemma rep_capacity s v l : rep s v l → length l ≤ capacity s v ∧ SMALL_SIZE ≤ capacity s v.
Proof.
  destruct 1 as [u l Hl Hu|p cap refs l Hp Hcap Hl Hr]; simp; [lia|]. rewrite Hp. simpl. lia.
Qed.

Lemma rep_contents s v l : rep s v l → contents s v = Some <$> l.
Proof.
  intros H. unfold contents. rewrite (rep_const_data _ _ _ H), (rep_size _ _ _ H).
  apply take_all_slots_of.
Qed.

Lemma rep_inj s v l1 l2 : rep s v l1 → rep s v l2 → l1 = l2.
Proof.
  intros H1 H2. apply rep_contents in H1, H2. rewrite H1 in H2.
  revert H2. apply (inj (fmap Some)).
Qed.

(** A state with the same heap represents the same vectors. *)
Lemma rep_heap s s' v l : heap s' = heap s → rep s v l → rep s' v l.
Proof.
  intros Hh. destruct 1; [by apply rep_small|]. eapply rep_dynamic; eauto. by rewrite Hh.
Qed.

(** The heap after the vector has given up its reference. *)
Lemma release_vector_ref_small s v : is_small_vector_ v = true → release_vector_ref s v = s.
Proof. unfold release_vector_ref. by intros ->. Qed.

Lemma fresh_heap (h : gmap addr dynamic_buffer) : h !! fresh (dom h) = None.
Proof. apply not_elem_of_dom, is_fresh. Qed.

Lemma alter_lookup (h : gmap addr dynamic_buffer) p b f :
  h !! p = Some b → alter f p h = <[p := f b]> h.
Proof.
  intros H. apply map_eq. intros q. destruct (decide (p = q)) as [->|Hne].
  - by rewrite lookup_alter_eq, lookup_insert_eq, H.
  - by rewrite lookup_alter_ne, lookup_insert_ne.
Qed.

Ltac heap_norm :=
  repeat first
    [ rewrite lookup_insert_eq
    | rewrite insert_insert_eq
    | match goal with
      | H : ?h !! ?p = Some _ |- context [alter _ ?p ?h] =>
          rewrite (alter_lookup _ _ _ _ H)
      | |- context [alter ?f ?p (<[?p := ?b]> ?h)] =>
          rewrite (alter_lookup (<[p := b]> h) p b f (lookup_insert_eq _ _ _))
      end
    | progress simp ].


(** ** The throwing primitives *)

Lemma copy_T_spec s :
  match copy_T s with
  | Some s1 => heap s1 = heap s ∧ (throw_in s = None → throw_in s1 = None)
               ∧ copies s1 = S (copies s)
  | None => throw_in s ≠ None
  end.
Proof.
  unfold copy_T, may_throw.
  destruct (throw_in s) as [[|k]|] eqn:E; simpl; rewrite ?E; naive_solver.
Qed.

Lemma allocate_dynamic_buffer_spec s v cap :
  match allocate_dynamic_buffer s v cap with
  | Returns s1 v1 =>
      v1 = set_store v (dynamic_data (Some (fresh (dom (heap s)))))
      ∧ heap s1 = <[fresh (dom (heap s)) :=
                     {| capacity_ := cap; refs_count := 1; data_ := slots_of [] cap |}]> (heap s)
      ∧ (throw_in s = None → throw_in s1 = None)
      ∧ copies s1 = copies s
  | Throws s1 v1 => v1 = v ∧ heap s1 = heap s ∧ throw_in s ≠ None
  end.
Proof.
  unfold allocate_dynamic_buffer, may_throw. rewrite slots_of_nil.
  destruct (throw_in s) as [[|k]|] eqn:E; simpl; rewrite ?E; naive_solver.
Qed.

(** A vector is still represented after a block has been allocated. *)
Lemma rep_insert_fresh s s1 v l p b :
  rep s v l → heap s !! p = None → heap s1 = <[p := b]> (heap s) → rep s1 v l.
Proof.
  intros Hrep Hp Hh. destruct Hrep as [u l Hl Hu|q cap refs l Hq Hc Hl Hr].
  - by apply rep_small.
  - eapply rep_dynamic; eauto. rewrite Hh, lookup_insert_ne; [done|]. intros ->. congruence.
Qed.

Lemma rep_take s v l n : rep s v l → n ≤ length l → take n (const_data s v) = Some <$> take n l.
Proof. intros H Hn. rewrite (rep_const_data _ _ _ H). by apply take_slots_of. Qed.

Lemma rep_drop_take s v l n :
  rep s v l → drop n (take (length l) (const_data s v)) = Some <$> drop n l.
Proof.
  intros H. rewrite (rep_take _ _ _ _ H) by done. by rewrite firstn_all, fmap_drop.
Qed.

(** Running [uninitialized_copy] on the end of a storage that holds [l]. *)
Ltac copy_step l l2 cap :=
  match goal with
  | |- context [uninitialized_copy ?a ?b ?c ?d] =>
      let Hh := fresh "Hheap" in
      let Ha := fresh "Hcopy" in
      let s' := fresh "s" in
      let d' := fresh "d" in
      pose proof (uninitialized_copy_heap a b c d) as Hh;
      assert (Ha : match uninitialized_copy a b c d with
                   | Returns _ d' => d' = slots_of (l ++ l2) cap
                   | Throws _ d' => d' = slots_of l cap
                   end);
      [ apply (uninitialized_copy_append' l2 l cap)
      | destruct (uninitialized_copy a b c d) as [s' d'|s' d'];
        [destruct Hh as (Hh & ? & ?)|destruct Hh as (Hh & ?)]; subst d' ]
  end.

(** ** The three-argument constructor *)

(** Called with a capacity above [SMALL_SIZE], the constructor allocates a
    fresh block holding the first [n] elements of [other], or throws and
    leaves the heap as it found it. *)
Lemma construct_from_spec s other l n cap' :
  rep s other l → n ≤ length l → n ≤ cap' → SMALL_SIZE < cap' →
  match construct_from s other n cap' with
  | Returns s1 tmp =>
      tmp = {| size_ := n; is_small_vector_ := false;
               store_ := dynamic_data (Some (fresh (dom (heap s)))) |}
      ∧ heap s1 = <[fresh (dom (heap s)) :=
                     {| capacity_ := cap'; refs_count := 1;
                        data_ := slots_of (take n l) cap' |}]> (heap s)
      ∧ (throw_in s = None → throw_in s1 = None)
  | Throws s1 _ => heap s1 = heap s ∧ throw_in s ≠ None
  end.
Proof.
  intros Hrep Hn Hcap HN. unfold construct_from.
  rewrite bool_decide_eq_false_2 by lia. simp.
  match goal with |- context [allocate_dynamic_buffer ?a ?b ?c] =>
    pose proof (allocate_dynamic_buffer_spec a b c) as Ha;
    destruct (allocate_dynamic_buffer a b c) as [s1 v1|s1 v1] end.
  2:{ by destruct Ha as (_ & ? & ?). }
  destruct Ha as (-> & Hh1 & Ht1 & _). simp.
  pose proof (rep_insert_fresh _ _ _ _ _ _ Hrep (fresh_heap _) Hh1) as Hrep1.
  rewrite (rep_take _ _ _ _ Hrep1) by done.
  rewrite Hh1, lookup_insert_eq. simp.
  copy_step (@nil T) (take n l) cap'; [done|done|done|simpl; rewrite length_take; lia|..]; simp.
  - split; [done|]. split; [|auto].
    rewrite Hheap, Hh1.
    rewrite (alter_lookup _ _ _ _ (lookup_insert_eq _ _ _)).
    by rewrite insert_insert_eq.
  - unfold operator_delete. simp. split; [|auto].
    rewrite Hheap, Hh1. apply delete_insert_id, fresh_heap.
Qed.

(** ** Transitions of one vector

    Every mutating method takes the vector from one representation to
    another in one of five ways.  [transition s this s' this' l'] lists
    them, with the heap each one leaves behind:
    - the elements change inside the inline storage;
    - the elements change inside the block that the vector alone owns;
    - the vector gives up its block and becomes small;
    - the vector gives up its storage and adopts a block allocated at a
      fresh address, which it alone owns;
    - nothing changes. *)
Inductive transition (s : state) (this : socow_vector)
    (s' : state) (this' : socow_vector) (l' : list T) : Prop :=
  | in_small :
      is_small_vector_ this = true → is_small_vector_ this' = true →
      heap s' = heap s → rep s' this' l' →
      transition s this s' this' l'
  | in_block p cap d :
      is_small_vector_ this = false → store_ this = dynamic_data (Some p) →
      heap s !! p = Some {| capacity_ := cap; refs_count := 1; data_ := d |} →
      SMALL_SIZE < cap → length l' ≤ cap →
      heap s' = <[p := {| capacity_ := cap; refs_count := 1; data_ := slots_of l' cap |}]> (heap s) →
      this' = {| size_ := length l'; is_small_vector_ := false; store_ := dynamic_data (Some p) |} →
      transition s this s' this' l'
  | to_small :
      is_small_vector_ this = false → is_small_vector_ this' = true →
      heap s' = heap (release_vector_ref s this) → rep s' this' l' →
      transition s this s' this' l'
  | to_fresh cap' :
      heap s' = <[fresh (dom (heap s)) :=
                   {| capacity_ := cap'; refs_count := 1; data_ := slots_of l' cap' |}]>
                  (heap (release_vector_ref s this)) →
      this' = {| size_ := length l'; is_small_vector_ := false;
                 store_ := dynamic_data (Some (fresh (dom (heap s)))) |} →
      SMALL_SIZE < cap' → length l' ≤ cap' →
      transition s this s' this' l'
  | unchanged :
      heap s' = heap s → this' = this → rep s this l' →
      transition s this s' this' l'.

(** The heap after a dynamic vector has released its block. *)
Definition release_block (h : gmap addr dynamic_buffer) (p : addr) : gmap addr dynamic_buffer :=
  match h !! p with
  | Some b => if refs_count b - 1 =? 0 then delete p h
              else <[p := set_refs b (refs_count b - 1)]> h
  | None => h
  end.

Lemma release_ref_heap s p count : heap (release_ref s (Some p) count) = release_block (heap s) p.
Proof.
  unfold release_ref, release_block. destruct (heap s !! p) as [b|]; [|done].
  by destruct (refs_count b - 1 =? 0).
Qed.

Lemma release_vector_ref_dynamic s n p :
  heap (release_vector_ref s {| size_ := n; is_small_vector_ := false;
                                store_ := dynamic_data (Some p) |})
  = release_block (heap s) p.
Proof. unfold release_vector_ref. simp. apply release_ref_heap. Qed.

Lemma release_block_insert_ne h p q b :
  p ≠ q → release_block (<[q := b]> h) p = <[q := b]> (release_block h p).
Proof.
  intros Hne. unfold release_block. rewrite lookup_insert_ne by done.
  destruct (h !! p) as [b'|]; [|done].
  destruct (refs_count b' - 1 =? 0).
  - by rewrite delete_insert_ne.
  - by rewrite insert_insert_ne.
Qed.

Lemma release_block_lookup_ne h p q : p ≠ q → release_block h p !! q = h !! q.
Proof.
  intros Hne. unfold release_block. destruct (h !! p) as [b|]; [|done].
  destruct (refs_count b - 1 =? 0).
  - by rewrite lookup_delete_ne.
  - by rewrite lookup_insert_ne.
Qed.

Lemma release_block_shared h p b :
  h !! p = Some b → 2 ≤ refs_count b →
  release_block h p = <[p := set_refs b (refs_count b - 1)]> h.
Proof.
  intros Hp Hr. unfold release_block. rewrite Hp.
  destruct (Nat.eqb_spec (refs_count b - 1) 0); [lia|done].
Qed.

Lemma release_block_last h p b :
  h !! p = Some b → refs_count b = 1 → release_block h p = delete p h.
Proof. intros Hp Hr. unfold release_block. by rewrite Hp, Hr. Qed.

(** A transition ends in a well-formed vector holding [l']. *)
Lemma transition_rep s this s' this' l' : transition s this s' this' l' → rep s' this' l'.
Proof.
  destruct 1 as [? ? ? Hrep|p cap d ? ? Hp ? ? Hh ->|? ? ? Hrep|cap' Hh -> ? ?|Hh -> Hrep].
  - done.
  - eapply rep_dynamic; eauto. by rewrite Hh, lookup_insert_eq.
  - done.
  - eapply rep_dynamic; eauto. by rewrite Hh, lookup_insert_eq.
  - by eapply rep_heap.
Qed.

(** Swapping a dynamic vector with a block allocated at another address,
    then destroying the temporary that took over the old block. *)
Lemma swap_dynamic_dynamic s n p m q :
  p ≠ q →
  swap s {| size_ := n; is_small_vector_ := false; store_ := dynamic_data (Some p) |}
         {| size_ := m; is_small_vector_ := false; store_ := dynamic_data (Some q) |}
  = Returns s ({| size_ := m; is_small_vector_ := false; store_ := dynamic_data (Some q) |},
               {| size_ := n; is_small_vector_ := false; store_ := dynamic_data (Some p) |}).
Proof.
  intros Hne. unfold swap, is_same_vector. simp. by rewrite bool_decide_eq_false_2.
Qed.

Lemma rep_dynamic_inv s n p l :
  rep s {| size_ := n; is_small_vector_ := false; store_ := dynamic_data (Some p) |} l →
  ∃ cap refs, n = length l
    ∧ heap s !! p = Some {| capacity_ := cap; refs_count := refs; data_ := slots_of l cap |}
    ∧ SMALL_SIZE < cap ∧ length l ≤ cap ∧ 1 ≤ refs.
Proof. inversion 1; subst. eauto 10. Qed.

Lemma rep_not_fresh s v l :
  rep s v l → is_small_vector_ v = false → store_ v ≠ dynamic_data (Some (fresh (dom (heap s)))).
Proof.
  destruct 1 as [|p cap refs l Hp]; [done|]. simpl. intros _ [= ->].
  by rewrite fresh_heap in Hp.
Qed.

(** ** Replacing the storage by a fresh block *)

Ltac construct_step Hrep :=
  match goal with
  | |- context [construct_from ?s ?o ?n ?c] =>
      let Hc := fresh "Hcons" in
      let s' := fresh "s" in
      let tmp := fresh "tmp" in
      let Hh := fresh "Hheap" in
      let Ht := fresh "Hthrow" in
      pose proof (construct_from_spec s o _ n c Hrep) as Hc;
      lapply Hc; [clear Hc; intros Hc; lapply Hc; [clear Hc; intros Hc; lapply Hc;
        [clear Hc; intros Hc;
         destruct (construct_from s o n c) as [s' tmp|s' []];
         [destruct Hc as (-> & Hh & Ht)|destruct Hc as (Hh & Ht)] |] |] |]
  end.

Lemma length_snoc {A} (l : list A) x : length (l ++ [x]) = S (length l).
Proof. rewrite length_app. simpl. lia. Qed.

Lemma release_ref_throw_in s p count : throw_in (release_ref s p count) = throw_in s.
Proof.
  unfold release_ref. destruct p as [p|]; [|done].
  destruct (heap s !! p) as [b|]; [|done]. by destruct (refs_count b - 1 =? 0).
Qed.

Lemma noexcept_clear_throw_in s v : throw_in (fst (noexcept_clear s v)) = throw_in s.
Proof.
  unfold noexcept_clear, store_data.
  destruct (is_only_vector_ref s v), (is_small_vector_ v), (get_dynamic_data v); by simp.
Qed.

Lemma destructor_throw_in s v : throw_in (destructor s v) = throw_in s.
Proof.
  unfold destructor, release_vector_ref. destruct (is_small_vector_ v).
  - apply noexcept_clear_throw_in.
  - apply release_ref_throw_in.
Qed.

Lemma destructor_dynamic s n p :
  heap (destructor s {| size_ := n; is_small_vector_ := false; store_ := dynamic_data (Some p) |})
  = release_block (heap s) p.
Proof. unfold destructor, release_vector_ref. simp. apply release_ref_heap. Qed.

(** [swap(tmp)] with a temporary that holds a block allocated after the
    vector was last touched, followed by the temporary's destructor. *)
Lemma adopt_fresh s s0 this l n' nb :
  rep s this l → is_small_vector_ this = false →
  heap s0 = <[fresh (dom (heap s)) := nb]> (heap s) →
  let tmp := {| size_ := n'; is_small_vector_ := false;
                store_ := dynamic_data (Some (fresh (dom (heap s)))) |} in
  ∃ s', leave_scope (swap s0 this tmp) = Returns s' (tmp, ())
        ∧ leave_scope (flip_pair (swap s0 tmp this)) = Returns s' (tmp, ())
        ∧ heap s' = <[fresh (dom (heap s)) := nb]> (heap (release_vector_ref s this))
        ∧ throw_in s' = throw_in s0.
Proof.
  intros Hrep Hsmall Hh tmp. subst tmp.
  destruct Hrep as [|p cap refs l Hp Hc Hl Hr]; [done|].
  assert (p ≠ fresh (dom (heap s))) as Hne.
  { intros ->. by rewrite fresh_heap in Hp. }
  rewrite !swap_dynamic_dynamic by done. simpl.
  eexists. split; [done|]. split; [done|].
  rewrite destructor_throw_in, destructor_dynamic. split; [|done].
  rewrite release_vector_ref_dynamic, Hh. by apply release_block_insert_ne.
Qed.

(** ** [pop_back] *)

Lemma pop_back_spec s this l x :
  rep s this (l ++ [x]) →
  match pop_back s this with
  | Returns s' (this', _) =>
      transition s this s' this' l ∧ (throw_in s = None → throw_in s' = None)
  | Throws s' this' => this' = this ∧ heap s' = heap s ∧ throw_in s ≠ None
  end.
Proof.
  intros Hrep. remember (l ++ [x]) as lx eqn:Hlx.
  destruct Hrep as [u lx Hl Hu|p cap refs lx Hp Hc Hl Hr] eqn:Hr0; subst lx; clear Hr0;
    rewrite length_snoc in *; unfold pop_back, destroy_back; simp.
  - split; [|done]. apply in_small; [done..|]. simpl.
    rewrite Nat.sub_0_r, Hu. apply rep_small_intro; [done|lia|]. simpl.
    apply destroy_slots_of_snoc. lia.
  - rewrite Hp. simp. destruct (Nat.eqb_spec refs 1) as [->|Hne].
    + split; [|done].
      eapply in_block; simpl; eauto; try lia.
      * rewrite (alter_lookup _ _ _ _ Hp). simpl. do 3 f_equal.
        rewrite Nat.sub_0_r. apply destroy_slots_of_snoc. lia.
      * by rewrite Nat.sub_0_r.
    + construct_step Hrep; simp; [| |lia|lia|rewrite length_snoc; lia].
      * edestruct (adopt_fresh s s0 _ _ (S (length l) - 1) _ Hrep eq_refl Hheap)
          as (s' & -> & _ & Hh' & Ht').
        split; [|by rewrite Ht'; auto].
        replace (S (length l) - 1) with (length l) in * by lia.
        rewrite take_app_length in Hh'.
        eapply to_fresh; eauto; lia.
      * done.
Qed.

(** ** [unshare], [data], [begin], [end] *)

(** What a method promises when it throws: the strong guarantee. *)
Definition rolled_back (s : state) (this : socow_vector) (s' : state) (this' : socow_vector) : Prop :=
  this' = this ∧ heap s' = heap s ∧ throw_in s ≠ None.

Lemma unshare_spec s this l :
  rep s this l →
  match unshare s this with
  | Returns s' (this', _) =>
      transition s this s' this' l ∧ is_only_vector_ref s' this' = true
      ∧ (throw_in s = None → throw_in s' = None)
      ∧ (is_only_vector_ref s this = true → s' = s ∧ this' = this)
  | Throws s' this' => rolled_back s this s' this'
  end.
Proof.
  intros Hrep. unfold unshare.
  destruct (is_only_vector_ref s this) eqn:Honly.
  { split_and!; try done. by apply unchanged. }
  destruct Hrep as [u l Hl Hu|p cap refs l Hp Hc Hl Hr] eqn:Hr0; clear Hr0; [done|].
  simp. rewrite Hp in *. simp.
  construct_step Hrep; simp; [| |lia..].
  - edestruct (adopt_fresh s s0 _ _ (length l) _ Hrep eq_refl Hheap)
      as (s' & -> & _ & Hh' & Ht').
    rewrite firstn_all in Hh'.
    split_and!; [eapply to_fresh; eauto| |by rewrite Ht'; auto|done].
    simp. by rewrite Hh', lookup_insert_eq.
  - done.
Qed.

Lemma begin_spec s this l :
  rep s this l →
  match begin s this with
  | Returns s' (this', b) =>
      transition s this s' this' l ∧ is_only_vector_ref s' this' = true
      ∧ (throw_in s = None → throw_in s' = None)
      ∧ (is_only_vector_ref s this = true → s' = s ∧ this' = this)
      ∧ b = {| base := const_data_ptr this'; offset := 0 |}
  | Throws s' this' => rolled_back s this s' this'
  end.
Proof.
  intros Hrep. unfold begin, data. pose proof (unshare_spec s this l Hrep) as H.
  destruct (unshare s this) as [s' [this' []]|s' this']; simpl; [|done].
  by destruct H as (? & ? & ? & ?).
Qed.

Lemma begin_only_ref s this :
  is_only_vector_ref s this = true →
  begin s this = Returns s (this, {| base := const_data_ptr this; offset := 0 |}).
Proof. intros H. unfold begin, data, unshare. by rewrite H. Qed.

Lemma end_spec s this l :
  rep s this l →
  match end_ s this with
  | Returns s' (this', e) =>
      transition s this s' this' l ∧ is_only_vector_ref s' this' = true
      ∧ (throw_in s = None → throw_in s' = None)
      ∧ (is_only_vector_ref s this = true → s' = s ∧ this' = this)
      ∧ e = {| base := const_data_ptr this'; offset := length l |}
  | Throws s' this' => rolled_back s this s' this'
  end.
Proof.
  intros Hrep. unfold end_. pose proof (begin_spec s this l Hrep) as H.
  destruct (begin s this) as [s' [this' b]|s' this']; simpl; [|done].
  destruct H as (Htr & ? & ? & ? & ->). split_and!; try done. simpl.
  by rewrite (rep_size _ _ _ (transition_rep _ _ _ _ _ Htr)).
Qed.

(** ** [from_dynamic_to_static] *)

Lemma from_dynamic_to_static_spec s this l l' :
  rep s this l → is_small_vector_ this = false → length l' ≤ SMALL_SIZE →
  match from_dynamic_to_static s this (Some <$> l') (length l') with
  | Returns s' (this', _) =>
      transition s this s' this' l' ∧ is_small_vector_ this' = true
      ∧ heap s' = heap (release_vector_ref s this)
      ∧ (throw_in s = None → throw_in s' = None)
  | Throws s' this' => rolled_back s this s' this'
  end.
Proof.
  intros Hrep Hsmall Hl'.
  destruct Hrep as [u l Hl Hu|p cap refs l Hp Hc Hl Hr] eqn:Hr0; clear Hr0; [done|].
  unfold from_dynamic_to_static. simp.
  copy_step (@nil T) l' SMALL_SIZE; [done|by rewrite slots_of_nil|done|simpl; lia|..]; simp.
  - assert (Hh : heap (release_ref s0 (Some p) (length l))
                 = heap (release_vector_ref s {| size_ := length l; is_small_vector_ := false;
                                                 store_ := dynamic_data (Some p) |})).
    { by rewrite release_ref_heap, release_vector_ref_dynamic, Hheap. }
    split_and!; try done.
    + apply to_small; [done..|]. by apply rep_small_intro.
    + intros Hs. unfold release_ref. destruct (heap s0 !! p) as [b|]; [|auto].
      destruct (refs_count b - 1 =? 0); simpl; auto.
  - done.
Qed.

(** ** [reserve] and [shrink_to_fit] *)

Lemma rep_is_only_dynamic s n p cap refs d :
  heap s !! p = Some {| capacity_ := cap; refs_count := refs; data_ := d |} →
  is_only_vector_ref s {| size_ := n; is_small_vector_ := false; store_ := dynamic_data (Some p) |}
  = (refs =? 1).
Proof. intros Hp. simp. by rewrite Hp. Qed.

(** The three things [reserve] can do, each with the condition under
    which it does it. *)
Lemma reserve_cases s this l k :
  rep s this l →
  match reserve s this k with
  | Returns s' (this', _) =>
      ((s' = s ∧ this' = this
        ∧ (k < length l ∨ (is_only_vector_ref s this = true ∧ k ≤ capacity s this)))
       ∨ (is_only_vector_ref s this = false ∧ length l ≤ k ∧ k ≤ SMALL_SIZE
          ∧ is_small_vector_ this = false ∧ is_small_vector_ this' = true
          ∧ heap s' = heap (release_vector_ref s this) ∧ rep s' this' l)
       ∨ (SMALL_SIZE < k ∧ length l ≤ k
          ∧ heap s' = <[fresh (dom (heap s)) :=
                         {| capacity_ := k; refs_count := 1; data_ := slots_of l k |}]>
                        (heap (release_vector_ref s this))
          ∧ this' = {| size_ := length l; is_small_vector_ := false;
                       store_ := dynamic_data (Some (fresh (dom (heap s)))) |}))
      ∧ (throw_in s = None → throw_in s' = None)
  | Throws s' this' => rolled_back s this s' this'
  end.
Proof.
  intros Hrep. unfold reserve.
  pose proof (rep_size _ _ _ Hrep) as Hsize.
  destruct (Nat.ltb_spec k (size this)) as [Hk|Hk].
  { split; [|done]. left. split_and!; [done..|]. left. lia. }
  destruct (negb (is_only_vector_ref s this) && (k <=? SMALL_SIZE)) eqn:Hdemote.
  { apply andb_true_iff in Hdemote as [Hshared Hle]. apply Nat.leb_le in Hle.
    apply negb_true_iff in Hshared.
    rewrite (rep_take _ _ _ _ Hrep) by lia. rewrite Hsize, firstn_all.
    pose proof (from_dynamic_to_static_spec s this l l Hrep) as H.
    destruct (is_small_vector_ this) eqn:Hsmall.
    { unfold is_only_vector_ref in Hshared. by rewrite Hsmall in Hshared. }
    specialize (H eq_refl ltac:(lia)).
    destruct (from_dynamic_to_static _ _ _ _) as [s' [this' []]|s' this']; [|done].
    destruct H as (Htr & Hs' & Hh' & ?). split; [|done].
    right. left. split_and!; try done; try lia. by eapply transition_rep. }
  destruct ((capacity s this <? k) || _) eqn:Hgrow.
  2:{ apply orb_false_iff in Hgrow as [Hcap Hsh]. apply Nat.ltb_ge in Hcap.
      split; [|done]. left. split_and!; [done..|]. right. split; [|done].
      destruct (is_only_vector_ref s this); [done|]. simpl in Hsh.
      apply Nat.leb_gt in Hsh. lia. }
  assert (Hcap : SMALL_SIZE < k).
  { apply orb_true_iff in Hgrow as [Hcap|Hsh].
    - apply Nat.ltb_lt in Hcap. pose proof (rep_capacity _ _ _ Hrep). lia.
    - apply andb_true_iff in Hsh as [Hsh _]. rewrite Hsh in Hdemote. simpl in Hdemote.
      apply Nat.leb_gt in Hdemote. lia. }
  destruct Hrep as [u l Hl Hu|p cap refs l Hp Hc Hl Hr] eqn:Hr0; clear Hr0; simp.
  - construct_step Hrep; simp; [| |lia..].
    + unfold assign, is_same_vector, noexcept_clear, add_vector_ref. simp.
      rewrite firstn_all in Hheap.
      rewrite Hheap, (alter_lookup _ _ _ _ (lookup_insert_eq _ _ _)), insert_insert_eq.
      rewrite destructor_throw_in. simp.
      split; [|auto]. right. right. split_and!; [done..| |done].
      rewrite release_vector_ref_small by done.
      rewrite destructor_dynamic. simpl.
      rewrite (release_block_shared _ _ _ (lookup_insert_eq _ _ _)) by (simpl; lia).
      by rewrite insert_insert_eq.
    + done.
  - construct_step Hrep; simp; [| |lia..].
    + edestruct (adopt_fresh s s0 _ _ (length l) _ Hrep eq_refl Hheap)
        as (s' & _ & -> & Hh' & Ht').
      rewrite firstn_all in Hh'.
      split; [|by rewrite Ht'; auto]. right. right. by split_and!.
    + done.
Qed.

Lemma reserve_spec s this l k :
  rep s this l →
  match reserve s this k with
  | Returns s' (this', _) =>
      transition s this s' this' l
      ∧ (length l ≤ k → k ≤ capacity s' this')
      ∧ (throw_in s = None → throw_in s' = None)
  | Throws s' this' => rolled_back s this s' this'
  end.
Proof.
  intros Hrep. pose proof (reserve_cases s this l k Hrep) as H.
  destruct (reserve s this k) as [s' [this' []]|s' this']; [|done].
  destruct H as ([(-> & -> & Hc)|[(Hsh & Hk & HN & Hd & Hs & Hh & Hrep')
                                 |(HN & Hk & Hh & ->)]] & Ht); split_and!; try done.
  - by apply unchanged.
  - intros Hk. destruct Hc as [?|[_ ?]]; [lia|done].
  - by apply to_small.
  - intros _. unfold capacity. by rewrite Hs.
  - by eapply to_fresh.
  - intros _. simp. by rewrite Hh, lookup_insert_eq.
Qed.

Lemma shrink_to_fit_spec s this l :
  rep s this l →
  match shrink_to_fit s this with
  | Returns s' (this', _) =>
      transition s this s' this' l
      ∧ capacity s' this' = length l `max` SMALL_SIZE
      ∧ (throw_in s = None → throw_in s' = None)
  | Throws s' this' => rolled_back s this s' this'
  end.
Proof.
  intros Hrep. unfold shrink_to_fit.
  destruct Hrep as [u l Hl Hu|p cap refs l Hp Hc Hl Hr] eqn:Hr0; clear Hr0; simp.
  { split_and!; [by apply unchanged|lia|done]. }
  rewrite Hp. simp.
  destruct (Nat.eqb_spec (length l) cap) as [Heq|Hne].
  { split_and!; [by apply unchanged| |done]. simp. rewrite Hp. simpl. lia. }
  destruct (Nat.leb_spec (length l) SMALL_SIZE) as [Hle|Hgt].
  - rewrite take_slots_of, firstn_all by done.
    pose proof (from_dynamic_to_static_spec s _ l l Hrep eq_refl Hle) as H.
    destruct (from_dynamic_to_static _ _ _ _) as [s' [this' []]|s' this']; [|done].
    destruct H as (Htr & Hs' & _ & ?). split_and!; try done.
    unfold capacity. rewrite Hs'. lia.
  - construct_step Hrep; simp; [| |lia..].
    + edestruct (adopt_fresh s s0 _ _ (length l) _ Hrep eq_refl Hheap)
        as (s' & _ & -> & Hh' & Ht').
      rewrite firstn_all in Hh'.
      split_and!; [eapply to_fresh; eauto; lia| |by rewrite Ht'; auto].
      simp. rewrite Hh', lookup_insert_eq. simpl. lia.
    + done.
Qed.

(** ** [clear] *)

Lemma swap_dynamic_default s n p :
  swap s {| size_ := n; is_small_vector_ := false; store_ := dynamic_data (Some p) |}
         default_vector
  = Returns s ({| size_ := 0; is_small_vector_ := true;
                  store_ := static_buffer (raw SMALL_SIZE) |},
               {| size_ := n; is_small_vector_ := false; store_ := dynamic_data (Some p) |}).
Proof.
  unfold swap, is_same_vector, swap_dynamic_small, noexcept_clear. simp. simpl.
  unfold destroy_n. by simpl.
Qed.

(** On a vector that shares its block, [clear] gives the reference up.  It
    is left with a fresh empty block whose capacity is the old size when
    that exceeds [SMALL_SIZE], and with the empty inline storage
    otherwise.  On a vector that owns its storage alone, [clear] destroys
    the elements where they are and keeps the storage. *)
Lemma clear_spec s this l :
  rep s this l →
  match clear s this with
  | Returns s' (this', _) =>
      transition s this s' this' []
      ∧ (if is_only_vector_ref s this
         then capacity s' this' = capacity s this
              ∧ const_data_ptr this' = const_data_ptr this
         else is_only_vector_ref s' this' = true
              ∧ capacity s' this' = length l `max` SMALL_SIZE
              ∧ is_small_vector_ this' = bool_decide (length l ≤ SMALL_SIZE))
      ∧ (throw_in s = None → throw_in s' = None)
  | Throws s' this' => rolled_back s this s' this' ∧ is_only_vector_ref s this = false
  end.
Proof.
  intros Hrep. unfold clear.
  destruct Hrep as [u l Hl Hu|p cap refs l Hp Hc Hl Hr] eqn:Hr0; clear Hr0; simp.
  - unfold noexcept_clear. simp. rewrite Hu, destroy_n_slots_of by done.
    unfold destroy_n. simpl. rewrite drop_0.
    split_and!; try done. apply in_small; [done..|].
    apply (rep_small_intro _ _ _ []); [done|simpl; lia|by rewrite slots_of_nil].
  - rewrite Hp. simp. destruct (Nat.eqb_spec refs 1) as [->|Hne]; simp.
    + unfold noexcept_clear. heap_norm.
      rewrite destroy_n_slots_of by done.
      unfold destroy_n. simpl. rewrite drop_0.
      split_and!; try done; [|by heap_norm].
      eapply (in_block _ _ _ _ []); simpl; eauto; try lia.
      by rewrite slots_of_nil.
    + pose proof (reserve_cases s default_vector [] (length l) (rep_default s)) as H.
      destruct (reserve s default_vector (length l)) as [s1 [tmp []]|s1 tmp].
      2:{ destruct H as (-> & Hh & ?). split; [|done]. by split_and!. }
      destruct H as ([(-> & -> & Hc1)|[(Hsh & _)|(HN & _ & Hh & ->)]] & Ht); [| done |].
      * assert (length l ≤ SMALL_SIZE) as HlN.
        { destruct Hc1 as [Hc1|[_ Hc1]]; simpl in Hc1; [lia|done]. }
        rewrite swap_dynamic_default. simp.
        rewrite destructor_throw_in, bool_decide_eq_true_2 by done.
        split_and!; try done; [|lia].
        apply to_small; [done..| |].
        { rewrite destructor_dynamic. by rewrite release_vector_ref_dynamic. }
        apply (rep_small_intro _ _ _ []); [done|simpl; lia|by rewrite slots_of_nil].
      * rewrite release_vector_ref_small in Hh by done.
        edestruct (adopt_fresh s s1 _ _ (length (@nil T)) _ Hrep eq_refl Hh)
          as (s' & -> & _ & Hh' & Ht').
        rewrite bool_decide_eq_false_2 by lia.
        split_and!; [eapply (to_fresh _ _ _ _ []); eauto; simpl; lia| | |done|by rewrite Ht'].
        -- simp. by rewrite Hh', lookup_insert_eq.
        -- simp. rewrite Hh', lookup_insert_eq. simpl. lia.
Qed.

(** ** [insert] *)

Lemma slots_of_app l1 l2 cap :
  slots_of (l1 ++ l2) cap = (Some <$> l1) ++ (Some <$> l2) ++ raw (cap - length (l1 ++ l2)).
Proof. unfold slots_of. by rewrite fmap_app, <- app_assoc. Qed.

Lemma rotate_back_slots l v delta cap fuel i :
  fuel = S (length l) → i = length l → delta ≤ length l →
  rotate_back_done fuel i delta (slots_of (l ++ [v]) cap)
  = slots_of (take delta l ++ v :: drop delta l) cap.
Proof.
  intros -> -> Hd.
  set (X := Some <$> take delta l). set (M := Some <$> drop delta l).
  set (Y := raw (cap - S (length l))).
  assert (HX : length X = delta) by (unfold X; rewrite length_fmap, length_take; lia).
  assert (HM : length M = length l - delta) by (unfold M; by rewrite length_fmap, length_drop).
  assert (H1 : slots_of (l ++ [v]) cap = X ++ M ++ Some v :: Y).
  { assert (HXM : Some <$> l = X ++ M) by (unfold X, M; by rewrite <- fmap_app, take_drop).
    unfold slots_of. by rewrite fmap_app, length_snoc, HXM, <- !app_assoc. }
  assert (H2 : slots_of (take delta l ++ v :: drop delta l) cap = X ++ Some v :: M ++ Y).
  { unfold slots_of, X, M, Y.
    rewrite fmap_app, fmap_cons, <- !app_assoc, length_app, length_take. simpl.
    rewrite length_drop. do 4 f_equal. lia. }
  rewrite H1, H2.
  replace (length l) with (length X + length M) at 2 by lia.
  clearbody X M Y. subst delta. apply rotate_back_app. lia.
Qed.

Lemma length_inserted (l : list T) v delta :
  delta ≤ length l → length (take delta l ++ v :: drop delta l) = S (length l).
Proof. intros H. rewrite length_app, length_take. simpl. rewrite length_drop. lia. Qed.

(** The last steps of the second branch of [insert]: the vector drops its
    own storage, takes the block built in [tmp], and [tmp] is destroyed. *)
Lemma insert_commit s s7 this l cap' l' :
  rep s this l → SMALL_SIZE < cap' → length l' ≤ cap' →
  heap s7 = <[fresh (dom (heap s)) :=
               {| capacity_ := cap'; refs_count := 1; data_ := slots_of l' cap' |}]> (heap s) →
  let tmp := {| size_ := length l'; is_small_vector_ := false;
                store_ := dynamic_data (Some (fresh (dom (heap s)))) |} in
  ∃ s9, (let '(s8, this1) := noexcept_clear s7 this in leave_scope (swap s8 this1 tmp))
        = Returns s9 (tmp, ())
        ∧ heap s9 = <[fresh (dom (heap s)) :=
               {| capacity_ := cap'; refs_count := 1; data_ := slots_of l' cap' |}]>
               (heap (release_vector_ref s this))
        ∧ throw_in s9 = throw_in s7.
Proof.
  intros Hrep HN Hl' Hh7 tmp. subst tmp.
  destruct Hrep as [u l Hl Hu|p cap refs l Hp Hc Hl Hr] eqn:Hr0; clear Hr0.
  - unfold noexcept_clear. simp.
    unfold swap, is_same_vector, swap_dynamic_small, noexcept_clear. simp. simpl.
    eexists. split; [done|]. rewrite destructor_throw_in. split; [|done].
    unfold destructor, noexcept_clear. simp. simpl.
    by rewrite release_vector_ref_small.
  - assert (p ≠ fresh (dom (heap s))) as Hne.
    { intros ->. by rewrite fresh_heap in Hp. }
    assert (Hp7 : heap s7 !! p = Some {| capacity_ := cap; refs_count := refs;
                                          data_ := slots_of l cap |}).
    { by rewrite Hh7, lookup_insert_ne. }
    unfold noexcept_clear. simp. rewrite Hp7. simp.
    rewrite release_vector_ref_dynamic.
    destruct (Nat.eqb_spec refs 1) as [->|Hrefs]; simp.
    + rewrite swap_dynamic_dynamic by done. simp.
      eexists. split; [done|]. rewrite destructor_throw_in. split; [|done].
      rewrite destructor_dynamic. simp.
      rewrite (alter_lookup _ _ _ _ Hp7). simp.
      rewrite (release_block_last _ _ _ (lookup_insert_eq _ _ _)) by done.
      rewrite (release_block_last _ _ _ Hp) by done.
      rewrite delete_insert_eq, Hh7. by rewrite delete_insert_ne.
    + unfold swap, is_same_vector, swap_dynamic_small, noexcept_clear. simp. simpl.
      eexists. split; [done|]. rewrite destructor_throw_in. split; [|done].
      unfold destructor, noexcept_clear. simp. simpl.
      rewrite (alter_lookup _ _ _ _ Hp7). simp.
      rewrite (release_block_shared _ _ _ Hp) by (simpl; lia).
      rewrite Hh7. by rewrite insert_insert_ne.
Qed.

(** Destroying a temporary that alone owns a block allocated at a fresh
    address gives the heap back as it was. *)
Lemma destructor_fresh s' (h : gmap addr dynamic_buffer) p cap d n :
  heap s' = <[p := {| capacity_ := cap; refs_count := 1; data_ := d |}]> h →
  h !! p = None →
  heap (destructor s' {| size_ := n; is_small_vector_ := false;
                         store_ := dynamic_data (Some p) |}) = h.
Proof.
  intros Hh Hp. rewrite destructor_dynamic, Hh.
  rewrite (release_block_last _ _ _ (lookup_insert_eq _ _ _)) by done.
  by apply delete_insert_id.
Qed.

Lemma insert_slots_of_take l cap delta x :
  delta ≤ length l → delta < cap →
  <[delta := Some x]> (slots_of (take delta l) cap) = slots_of (take delta l ++ [x]) cap.
Proof.
  intros Hd Hc. rewrite <- insert_slots_of_snoc by (rewrite length_take; lia).
  by rewrite length_take, Nat.min_l.
Qed.

Ltac copyT_step :=
  match goal with
  | |- context [copy_T ?s] =>
      let H := fresh "HcT" in
      let s' := fresh "s" in
      pose proof (copy_T_spec s) as H;
      destruct (copy_T s) as [s'|]; [destruct H as (H & ? & ?)|]
  end.

Lemma filled_slots_of (l : list T) cap : filled (length l) (raw (cap - length l)) (slots_of l cap).
Proof. by exists l. Qed.

Lemma filled_slots_of_inv n cap d :
  filled n (raw (cap - n)) d → ∃ l, length l = n ∧ d = slots_of l cap.
Proof. intros (l & <- & ->). by exists l. Qed.

(** Running the loop of [insert] on a storage that holds [l ++ [v]]. *)
Ltac rotate_step :=
  match goal with
  | |- context [rotate_back ?f ?i ?d ?st (slots_of (?l ++ [?v]) ?c)] =>
      let H := fresh "Hrot" in
      let s' := fresh "s" in
      let d' := fresh "d" in
      pose proof (rotate_back_spec f i d st (slots_of (l ++ [v]) c) _ _
                    (filled_slots_of (l ++ [v]) c)) as H;
      rewrite length_snoc in H; specialize (H ltac:(lia));
      destruct (rotate_back f i d st (slots_of (l ++ [v]) c)) as [s' d'|s' d'];
      [ destruct H as (-> & H & ? & ?); rewrite (rotate_back_slots l v d c f i) by lia
      | destruct H as ((? & ? & ->)%filled_slots_of_inv & H & ? & ?) ]
  end.

(** What is left of a vector when an exchange of two of its elements has
    thrown in the middle of a loop: the vector is where it was, alone on
    its storage, well formed with [n] elements; the loop has moved some of
    them. *)
Definition disturbed (s : state) (this : socow_vector) (s' : state) (this' : socow_vector)
    (n : nat) : Prop :=
  throw_in s ≠ None ∧ is_only_vector_ref s this = true
  ∧ const_data_ptr this' = const_data_ptr this ∧ capacity s' this' = capacity s this
  ∧ ∃ l', length l' = n ∧ transition s this s' this' l'.

Lemma insert_spec s this l delta value :
  rep s this l → delta ≤ length l → 0 < SMALL_SIZE →
  match insert s this delta value with
  | Returns s' (this', it) =>
      transition s this s' this' (take delta l ++ value :: drop delta l)
      ∧ it = {| base := const_data_ptr this'; offset := delta |}
      ∧ (if size this =? capacity s this
         then capacity s' this' = 2 * capacity s this
              ∧ const_data_ptr this' = heap_ptr (fresh (dom (heap s)))
         else capacity s' this' = capacity s this)
      ∧ (throw_in s = None → throw_in s' = None)
  | Throws s' this' =>
      rolled_back s this s' this'
      ∨ (delta < length l ∧ size this ≠ capacity s this ∧ throw_in s ≠ Some 0
         ∧ disturbed s this s' this' (S (length l)))
  end.
Proof.
  intros Hrep Hdelta HN. unfold insert.
  pose proof (rep_size _ _ _ Hrep) as Hsize.
  pose proof (rep_capacity _ _ _ Hrep) as [Hcapl HcapN].
  pose proof (length_inserted l value delta Hdelta) as Hlen.
  destruct (negb (size this =? capacity s this) && is_only_vector_ref s this) eqn:Hbranch.
  - apply andb_true_iff in Hbranch as [Hfull Honly].
    apply negb_true_iff in Hfull. rewrite Hfull. apply Nat.eqb_neq in Hfull.
    assert (Hfirst : copy_T s ≠ None → throw_in s ≠ Some 0).
    { intros Hsome E. unfold copy_T, may_throw in Hsome. by rewrite E in Hsome. }
    pose proof (copy_T_spec s) as HcT.
    destruct (copy_T s) as [s0|]; [destruct HcT as (HcT & ? & ?)|by left].
    specialize (Hfirst ltac:(done)).
    destruct Hrep as [u l Hl Hu|p cap refs l Hp Hc Hl Hr] eqn:Hr0; clear Hr0; simp.
    + rewrite Hu, insert_slots_of_snoc by lia.
      rotate_step; simp.
      * split_and!; try done; [|auto].
        apply in_small; [done|done|congruence|]. apply rep_small_intro; [done|lia|done].
      * right. split; [lia|]. split; [done|]. split; [done|]. unfold disturbed. simp.
        split_and!; try done; [naive_solver|].
        eexists. split; [done|]. apply in_small; [done|done|simpl; congruence|].
        apply rep_small_intro; [done|lia|done].
    + rewrite Hp in *. simp. apply Nat.eqb_eq in Honly as ->.
      rewrite HcT, Hp. heap_norm.
      rewrite insert_slots_of_snoc by lia.
      rotate_step; simp.
      * rewrite Hrot. heap_norm. split_and!; try done; [|auto].
        eapply in_block; simpl; eauto; try lia.
        by rewrite Hlen.
      * rewrite Hrot. heap_norm. right. split; [lia|]. split; [lia|]. split; [done|].
        unfold disturbed. simp.
        rewrite Hp. heap_norm.
        split_and!; try done; [naive_solver|].
        eexists. split; [done|].
        eapply in_block; simpl; eauto; try lia. congruence.
  - set (cap' := if size this =? capacity s this then 2 * capacity s this
                 else capacity s this).
    assert (Hcap' : SMALL_SIZE < cap' ∧ S (length l) ≤ cap').
    { subst cap'. destruct (Nat.eqb_spec (size this) (capacity s this)) as [Heq|Hneq]; [lia|].
      simpl in Hbranch.
      destruct Hrep as [u l Hl Hu|p cap refs l Hp Hc Hl Hr]; simp; [done|].
      rewrite Hp in *. simp. lia. }
    destruct Hcap' as [HcapN' Hcapl'].
    match goal with |- context [allocate_dynamic_buffer ?a ?b ?c] =>
      pose proof (allocate_dynamic_buffer_spec a b c) as Ha;
      destruct (allocate_dynamic_buffer a b c) as [s1 v1|s1 v1] end.
    2:{ destruct Ha as (-> & Hh & ?). left. by split_and!. }
    destruct Ha as (-> & Hh1 & Ht1 & _).
    pose proof (rep_insert_fresh _ _ _ _ _ _ Hrep (fresh_heap _) Hh1) as Hrep1.
    set (p' := fresh (dom (heap s))) in *.
    unfold default_vector. simp.
    rewrite (rep_take _ _ _ _ Hrep1) by lia.
    rewrite Hh1, lookup_insert_eq. simp.
    copy_step (@nil T) (take delta l) cap'; [done..|simpl; rewrite length_take; lia| |]; simp.
    2:{ left. split_and!; [done| |naive_solver]. eapply destructor_fresh; [|apply fresh_heap].
        simp. rewrite Hheap, Hh1. by heap_norm. }
    rewrite Hheap, Hh1. heap_norm. simpl app.
    copyT_step; simp.
    2:{ left. split_and!; [done| |naive_solver]. eapply destructor_fresh; [|apply fresh_heap].
        by simp. }
    rewrite HcT. heap_norm. rewrite insert_slots_of_take by lia.
    match goal with |- context [const_data ?st this] =>
      assert (Hrep5 : rep st this l)
        by (eapply rep_insert_fresh; [exact Hrep|apply fresh_heap|done]);
      rewrite Hsize, (rep_drop_take _ _ _ _ Hrep5)
    end.
    copy_step (take delta l ++ [value]) (drop delta l) cap';
      [done|done|rewrite length_snoc, length_take; lia
      |rewrite length_snoc, length_take, length_drop; lia| |]; simp.
    2:{ left. split_and!; [done| |naive_solver]. eapply destructor_fresh; [|apply fresh_heap].
        simp. rewrite Hheap0. by heap_norm. }
    rewrite Hheap0. heap_norm. rewrite <- app_assoc. simpl app.
    replace (length l + 1) with (length (take delta l ++ value :: drop delta l)) by lia.
    match goal with |- context [noexcept_clear ?st this] =>
      edestruct (insert_commit s st this l cap' (take delta l ++ value :: drop delta l) Hrep)
        as (s9 & Hcommit & Hh9 & Ht9); [done|lia|done|];
      destruct (noexcept_clear st this) as [s8 this1]
    end.
    fold p' in Hcommit, Hh9. rewrite Hcommit. simp.
    assert (Htr : transition s this s9
              {| size_ := length (take delta l ++ value :: drop delta l);
                 is_small_vector_ := false; store_ := dynamic_data (Some p') |}
              (take delta l ++ value :: drop delta l)).
    { eapply to_fresh; eauto. lia. }
    rewrite begin_only_ref by (simp; by rewrite Hh9, lookup_insert_eq).
    simp. rewrite Hh9, lookup_insert_eq. simp.
    simpl in Ht9. split_and!; [done|done| |rewrite Ht9; auto].
    subst cap'. rewrite Hsize. destruct (length l =? capacity s this); done.
Qed.

Lemma push_back_spec s this l value :
  rep s this l → 0 < SMALL_SIZE →
  match push_back s this value with
  | Returns s' (this', _) =>
      transition s this s' this' (l ++ [value])
      ∧ (if size this =? capacity s this
         then capacity s' this' = 2 * capacity s this
              ∧ const_data_ptr this' = heap_ptr (fresh (dom (heap s)))
         else capacity s' this' = capacity s this)
      ∧ (throw_in s = None → throw_in s' = None)
  | Throws s' this' => rolled_back s this s' this'
  end.
Proof.
  intros Hrep HN. unfold push_back.
  pose proof (insert_spec s this l (size this) value Hrep) as H.
  rewrite (rep_size _ _ _ Hrep) in *.
  specialize (H ltac:(lia) HN). rewrite firstn_all, drop_all in H.
  destruct (insert s this (length l) value) as [s' [this' it]|s' this'].
  - simpl. by destruct H as (? & _ & ? & ?).
  - destruct H as [H|[H _]]; [done|lia].
Qed.

(** ** [erase] *)

Lemma raw_snoc k (Y : list slot) : raw k ++ None :: Y = raw (S k) ++ Y.
Proof. unfold raw. by rewrite replicate_S_end, <- app_assoc. Qed.

(** Popping [k] elements off a small vector. *)
Lemma pop_back_times_small (B : list slot) : ∀ s n (Z Y : list slot),
  length Z = n →
  pop_back_times (length B) s
    {| size_ := n + length B; is_small_vector_ := true; store_ := static_buffer (Z ++ B ++ Y) |}
  = Returns s ({| size_ := n; is_small_vector_ := true;
                  store_ := static_buffer (Z ++ raw (length B) ++ Y) |}, ()).
Proof.
  induction B as [|b B IH] using rev_ind; intros s n Z Y HZ.
  - simpl. by rewrite Nat.add_0_r.
  - rewrite length_snoc. simpl. unfold pop_back, destroy_back. simp.
    replace (n + S (length B) - 1) with (length (Z ++ B)) by (rewrite length_app; lia).
    rewrite <- !app_assoc. simpl. rewrite (app_assoc Z B), insert_middle.
    replace (length (Z ++ B)) with (n + length B) by (rewrite length_app; lia).
    rewrite <- app_assoc.
    rewrite (IH s n Z (None :: Y) HZ). by rewrite raw_snoc.
Qed.

(** Popping [k] elements off a vector that alone owns its block. *)
Lemma pop_back_times_block (B : list slot) : ∀ s n p cap (Z Y : list slot),
  length Z = n → 0 < length B →
  heap s !! p = Some {| capacity_ := cap; refs_count := 1; data_ := Z ++ B ++ Y |} →
  ∃ s', pop_back_times (length B) s
          {| size_ := n + length B; is_small_vector_ := false; store_ := dynamic_data (Some p) |}
        = Returns s' ({| size_ := n; is_small_vector_ := false;
                         store_ := dynamic_data (Some p) |}, ())
      ∧ heap s' = <[p := {| capacity_ := cap; refs_count := 1;
                            data_ := Z ++ raw (length B) ++ Y |}]> (heap s)
      ∧ throw_in s' = throw_in s.
Proof.
  induction B as [|b B IH] using rev_ind; intros s n p cap Z Y HZ HB Hp.
  - simpl in HB. lia.
  - rewrite length_snoc. simpl. unfold pop_back, destroy_back. simp. rewrite Hp. heap_norm.
    replace (n + S (length B) - 1) with (length (Z ++ B)) by (rewrite length_app; lia).
    rewrite <- !app_assoc. simpl. rewrite (app_assoc Z B), insert_middle.
    replace (length (Z ++ B)) with (n + length B) by (rewrite length_app; lia).
    rewrite <- app_assoc.
    change (None :: replicate (length B) None ++ Y) with (raw (S (length B)) ++ Y).
    rewrite <- raw_snoc.
    destruct B as [|b' B'] eqn:HBeq.
    + simpl. rewrite Nat.add_0_r. eexists. split; [done|]. done.
    + rewrite <- HBeq in *.
      edestruct (IH {| heap := <[p := {| capacity_ := cap; refs_count := 1;
                                        data_ := Z ++ B ++ None :: Y |}]> (heap s);
                       throw_in := throw_in s; copies := copies s |} n p cap Z (None :: Y) HZ)
        as (s' & Heq & Hh & Ht).
      { rewrite HBeq. simpl. lia. }
      { simpl. by rewrite lookup_insert_eq. }
      exists s'. split; [done|]. simpl in Hh, Ht. split; [|done].
      by rewrite Hh, insert_insert_eq.
Qed.

Lemma pop_back_times_small' k s n m (Z B Y : list slot) :
  k = length B → m = n + length B → length Z = n →
  pop_back_times k s
    {| size_ := m; is_small_vector_ := true; store_ := static_buffer (Z ++ B ++ Y) |}
  = Returns s ({| size_ := n; is_small_vector_ := true;
                  store_ := static_buffer (Z ++ raw (length B) ++ Y) |}, ()).
Proof. intros -> -> HZ. by apply pop_back_times_small. Qed.

Lemma pop_back_times_block' k s n m p cap (Z B Y : list slot) :
  k = length B → m = n + length B → length Z = n → 0 < length B →
  heap s !! p = Some {| capacity_ := cap; refs_count := 1; data_ := Z ++ B ++ Y |} →
  ∃ s', pop_back_times k s
          {| size_ := m; is_small_vector_ := false; store_ := dynamic_data (Some p) |}
        = Returns s' ({| size_ := n; is_small_vector_ := false;
                         store_ := dynamic_data (Some p) |}, ())
      ∧ heap s' = <[p := {| capacity_ := cap; refs_count := 1;
                            data_ := Z ++ raw (length B) ++ Y |}]> (heap s)
      ∧ throw_in s' = throw_in s.
Proof. intros -> -> HZ. by apply pop_back_times_block. Qed.

Lemma slots_of_split l cap first last :
  first ≤ last → last ≤ length l →
  slots_of l cap
  = (Some <$> take first l) ++ (Some <$> drop first (take last l))
    ++ (Some <$> drop last l) ++ raw (cap - length l).
Proof.
  intros H1 H2. unfold slots_of. rewrite !app_assoc. f_equal.
  rewrite <- !fmap_app. f_equal.
  rewrite <- (take_drop last l) at 1. f_equal.
  rewrite <- (take_drop first (take last l)) at 1. f_equal.
  rewrite take_take. f_equal. lia.
Qed.

Lemma slots_of_erased l cap first last (B : list slot) :
  first ≤ last → last ≤ length l → length l ≤ cap → length B = last - first →
  ((Some <$> take first l) ++ (Some <$> drop last l)) ++ raw (length B) ++ raw (cap - length l)
  = slots_of (take first l ++ drop last l) cap.
Proof.
  intros H1 H2 H3 HB. unfold slots_of, raw. rewrite fmap_app, <- replicate_add.
  do 2 f_equal. rewrite length_app, length_take, length_drop. lia.
Qed.

Lemma erase_spec s this l first last :
  rep s this l → first ≤ last → last ≤ length l →
  match erase s this first last with
  | Returns s' (this', it) =>
      transition s this s' this' (take first l ++ drop last l)
      ∧ it = {| base := const_data_ptr this'; offset := first |}
      ∧ (throw_in s = None → throw_in s' = None)
  | Throws s' this' =>
      rolled_back s this s' this'
      ∨ (first < last ∧ last < length l ∧ disturbed s this s' this' (length l))
  end.
Proof.
  intros Hrep Hfl Hlast. unfold erase.
  assert (Hlen : length (take first l ++ drop last l) = length l - (last - first)).
  { rewrite length_app, length_take, length_drop. lia. }
  destruct (is_only_vector_ref s this) eqn:Honly.
  - destruct (Nat.eqb_spec (last - first) 0) as [Hz|Hnz]; simpl negb; cbv iota.
    + rewrite Hz. simpl. rewrite begin_only_ref by done. simpl.
      replace last with first by lia. rewrite take_drop.
      split_and!; [by apply unchanged|done|done].
    + set (X := Some <$> take first l). set (B := Some <$> drop first (take last l)).
      set (C := Some <$> drop last l).
      assert (HX : length X = first) by (unfold X; rewrite length_fmap, length_take; lia).
      assert (HB : length B = last - first).
      { unfold B. rewrite length_fmap, length_drop, length_take. lia. }
      assert (HC : length C = length l - last) by (unfold C; by rewrite length_fmap, length_drop).
      assert (Hshift : ∀ cap, ∃ B', length B' = last - first ∧
        shift_down_done (length l) first (last - first) (length l) (slots_of l cap)
        = (X ++ C) ++ B' ++ raw (cap - length l)).
      { intros cap. rewrite (slots_of_split l cap first last) by done. fold X B C.
        destruct (shift_down_app C (length l) X B (raw (cap - length l)))
          as (B' & HB' & Heq); [lia..|].
        exists B'. split; [by rewrite (Permutation_length HB')|].
        rewrite <- app_assoc, <- Heq. f_equal; lia. }
      assert (Hrun : ∀ cap,
        match shift_down (length l) first (last - first) (length l) s (slots_of l cap) with
        | Returns s1 d =>
            d = shift_down_done (length l) first (last - first) (length l) (slots_of l cap)
            ∧ heap s1 = heap s ∧ (throw_in s = None → throw_in s1 = None)
        | Throws s1 d =>
            (∃ l', length l' = length l ∧ d = slots_of l' cap)
            ∧ heap s1 = heap s ∧ throw_in s ≠ None ∧ last < length l
        end).
      { intros cap.
        pose proof (shift_down_spec (length l) first (last - first) (length l) s (slots_of l cap)
                      _ _ (filled_slots_of l cap) (le_n _)) as H.
        destruct (shift_down _ _ _ _ s _) as [s1 d|s1 d].
        - by destruct H as (? & ? & ? & _).
        - destruct H as (Hd%filled_slots_of_inv & ? & ? & ?). split_and!; try done. lia. }
      destruct Hrep as [u l Hl Hu|p cap refs l Hp Hc Hl Hr] eqn:Hr0; clear Hr0; simp.
      * rewrite Hu. specialize (Hrun SMALL_SIZE).
        destruct (shift_down _ _ _ _ s _) as [s1 d|s1 d]; simp.
        2:{ destruct Hrun as ((l' & Hl' & ->) & Hh1 & Ht1 & Hlt). right.
            split; [lia|]. split; [done|]. unfold disturbed. simp.
            split_and!; try done. exists l'. split; [done|].
            apply in_small; [done..|]. apply rep_small_intro; [done|lia|done]. }
        destruct Hrun as (-> & Hh1 & Ht1).
        destruct (Hshift SMALL_SIZE) as (B' & HB' & ->). simp.
        rewrite (pop_back_times_small' _ _ (length (X ++ C)) _ (X ++ C) B')
          by (done || rewrite length_app; lia).
        simp. rewrite begin_only_ref by done. simp.
        split_and!; try done. apply in_small; [done..|].
        apply rep_small_intro; simpl.
        -- rewrite Hlen, length_app. lia.
        -- lia.
        -- unfold X, C. apply slots_of_erased; [done..|lia].
      * rewrite Hp in *. simp. apply Nat.eqb_eq in Honly as ->.
        specialize (Hrun cap).
        destruct (shift_down _ _ _ _ s _) as [s1 d|s1 d]; simp.
        2:{ destruct Hrun as ((l' & Hl' & ->) & Hh1 & Ht1 & Hlt). right.
            split; [lia|]. split; [done|]. unfold disturbed. simp.
            rewrite Hh1, Hp. heap_norm.
            split_and!; try done. exists l'. split; [done|].
            eapply in_block; simpl; eauto; try lia. congruence. }
        destruct Hrun as (-> & Hh1 & Ht1). rewrite Hh1. heap_norm.
        destruct (Hshift cap) as (B' & HB' & ->).
        match goal with |- context [pop_back_times _ ?st _] =>
          edestruct (pop_back_times_block' (last - first) st (length (X ++ C)) (length l) p cap
                       (X ++ C) B') as (s' & -> & Hh' & Ht');
            [done|rewrite length_app; lia|done|lia|simpl; by rewrite lookup_insert_eq|]
        end.
        simpl in Hh', Ht'. rewrite insert_insert_eq in Hh'. simp.
        unfold X, C in Hh'. rewrite slots_of_erased in Hh' by (done || lia).
        rewrite begin_only_ref by (simp; by rewrite Hh', lookup_insert_eq). simp.
        split_and!; [|done|rewrite Ht'; auto].
        eapply in_block; simpl; eauto; try lia.
        f_equal. rewrite Hlen, length_app. lia.
  - destruct Hrep as [u l Hl Hu|p cap refs l Hp Hc Hl Hr] eqn:Hr0; clear Hr0; [done|]. simp.
    rewrite Hp in *. simp.
    construct_step Hrep; simp; [| |lia..].
    2:{ by left. }
    rewrite begin_only_ref by (simp; by rewrite Hheap, lookup_insert_eq). simp.
    pose proof (rep_insert_fresh _ _ _ _ _ _ Hrep (fresh_heap _) Hheap) as Hrep1.
    replace (first + (last - first)) with last by lia.
    match goal with |- context [drop last (take (length l) ?d)] =>
      change d with (const_data s0 {| size_ := length l; is_small_vector_ := false;
                                      store_ := dynamic_data (Some p) |}) end.
    rewrite (rep_drop_take _ _ _ _ Hrep1).
    rewrite Hheap, lookup_insert_eq. simp.
    copy_step (take first l) (drop last l) cap;
      [done|done|rewrite length_take; lia|rewrite length_take, length_drop; lia| |]; simp.
    + match goal with |- context [swap ?st _ _] =>
        edestruct (adopt_fresh s st _ _ (length l - (last - first))
                     {| capacity_ := cap; refs_count := 1;
                        data_ := slots_of (take first l ++ drop last l) cap |} Hrep eq_refl)
          as (s' & -> & _ & Hh' & Ht') end.
      { simpl. rewrite Hheap0, Hheap. by heap_norm. }
      simp. rewrite begin_only_ref by (simp; by rewrite Hh', lookup_insert_eq). simp.
      split_and!; [|done|rewrite Ht'; simpl; auto].
      rewrite <- Hlen. eapply to_fresh; eauto. rewrite Hlen. lia.
    + left. split_and!; [done| |naive_solver].
      eapply destructor_fresh; [|apply fresh_heap]. simp. rewrite Hheap0, Hheap. by heap_norm.
Qed.

(** ** [swap] *)

Lemma swap_elements_app (A1 : list slot) : ∀ fuel (P Q B1 A2 B2 : list slot),
  length P = length Q → length A1 = length B1 → length A1 ≤ fuel →
  swap_elements_done fuel (length P) (length P + length A1) (P ++ A1 ++ A2) (Q ++ B1 ++ B2)
  = (P ++ B1 ++ A2, Q ++ A1 ++ B2).
Proof.
  induction A1 as [|a A1 IH]; intros fuel P Q B1 A2 B2 HPQ HAB Hfuel.
  - destruct B1; [|done]. simpl. rewrite Nat.add_0_r.
    destruct fuel; [done|]. simpl. by rewrite Nat.ltb_irrefl.
  - destruct B1 as [|b B1]; [done|]. simpl in *. destruct fuel as [|fuel]; [lia|]. simpl.
    destruct (Nat.ltb_spec (length P) (length P + S (length A1))); [|lia].
    rewrite slot_at_middle, insert_middle.
    replace (slot_at (Q ++ b :: B1 ++ B2) (length P)) with b
      by (by rewrite HPQ, slot_at_middle).
    replace (<[length P:=a]> (Q ++ b :: B1 ++ B2)) with (Q ++ a :: B1 ++ B2)
      by (by rewrite HPQ, insert_middle).
    specialize (IH fuel (P ++ [b]) (Q ++ [a]) B1 A2 B2).
    rewrite !length_app in IH. simpl in IH. rewrite <- !app_assoc in IH. simpl in IH.
    replace (length P + 1) with (S (length P)) in IH by lia.
    replace (S (length P) + length A1) with (length P + S (length A1)) in IH by lia.
    apply IH; lia.
Qed.

Lemma swap_elements_prefix n (A1 B1 A2 B2 : list slot) :
  length A1 = n → length B1 = n →
  swap_elements_done n 0 n (A1 ++ A2) (B1 ++ B2) = (B1 ++ A2, A1 ++ B2).
Proof.
  intros HA HB.
  pose proof (swap_elements_app A1 n [] [] B1 A2 B2) as H. simpl in H.
  rewrite HA in H. apply H; lia.
Qed.

(** [while (v.size() > n) v.pop_back()] on a small vector. *)
Lemma pop_back_small_while_app (B : list slot) : ∀ fuel s n m u (Z Y : list slot),
  m = n + length B → length Z = n → length B ≤ fuel →
  union_static u = Z ++ B ++ Y →
  ∃ u', pop_back_small_while fuel n s {| size_ := m; is_small_vector_ := true; store_ := u |}
        = (s, {| size_ := n; is_small_vector_ := true; store_ := u' |})
      ∧ union_static u' = Z ++ raw (length B) ++ Y.
Proof.
  induction B as [|b B IH] using rev_ind; intros fuel s n m u Z Y -> HZ Hfuel Hu.
  - simpl. rewrite Nat.add_0_r. exists u. split; [|done].
    destruct fuel; [done|]. simpl. by rewrite Nat.ltb_irrefl.
  - rewrite length_snoc in *. destruct fuel as [|fuel]; [lia|]. simpl.
    destruct (Nat.ltb_spec n (n + S (length B))); [|lia].
    unfold destroy_back. simp. rewrite Hu.
    replace (n + S (length B) - 1) with (length (Z ++ B)) by (rewrite length_app; lia).
    rewrite <- !app_assoc. simpl. rewrite (app_assoc Z B), insert_middle.
    rewrite <- app_assoc.
    edestruct (IH fuel s n (length (Z ++ B)) (static_buffer (Z ++ B ++ None :: Y)) Z (None :: Y))
      as (u' & -> & Hu'); [rewrite length_app; lia|done|lia|done|].
    exists u'. split; [done|]. by rewrite Hu', raw_snoc.
Qed.

(** Two vectors are in the same state: nothing a caller can see tells them
    apart. *)
Definition same_state (s : state) (v v' : socow_vector) : Prop :=
  size v' = size v ∧ is_small_vector_ v' = is_small_vector_ v
  ∧ const_data_ptr v' = const_data_ptr v ∧ const_data s v' = const_data s v.

Lemma same_state_refl s v : same_state s v v.
Proof. done. Qed.

(** Running the exchange of the common prefix of two storages that hold
    [la] and [lb] in their first slots. *)
Ltac swap_step :=
  match goal with
  | |- context [swap_elements ?f ?i ?n ?st ((Some <$> ?la) ++ ?Ya) ((Some <$> ?lb) ++ ?Yb)] =>
      let H := fresh "Hswap" in
      let s' := fresh "s" in
      let a' := fresh "a" in
      let b' := fresh "b" in
      pose proof (swap_elements_spec f i n st ((Some <$> la) ++ Ya) ((Some <$> lb) ++ Yb)
                    (length la) Ya (length lb) Yb
                    (ex_intro _ la (conj eq_refl eq_refl))
                    (ex_intro _ lb (conj eq_refl eq_refl))) as H;
      destruct (swap_elements f i n st ((Some <$> la) ++ Ya) ((Some <$> lb) ++ Yb))
        as [s' [a' b']|s' [a' b']]
  end.

Lemma slots_of_take_drop (l : list T) n cap :
  n ≤ length l → length l ≤ cap →
  slots_of l cap = (Some <$> take n l) ++ (Some <$> drop n l) ++ raw (cap - length l).
Proof.
  intros. unfold slots_of. by rewrite app_assoc, <- fmap_app, take_drop.
Qed.

Lemma slots_of_take_raw (l : list T) n cap :
  n ≤ length l → length l ≤ cap →
  slots_of (take n l) cap = (Some <$> take n l) ++ raw (length l - n) ++ raw (cap - length l).
Proof.
  intros. unfold slots_of, raw. rewrite <- replicate_add, length_take.
  do 2 f_equal. lia.
Qed.

(** [swap] of two small vectors, the first not longer than the second. *)
Lemma swap_small_small_spec s u1 l1 u2 l2 :
  length l1 ≤ length l2 → length l2 ≤ SMALL_SIZE →
  union_static u1 = slots_of l1 SMALL_SIZE → union_static u2 = slots_of l2 SMALL_SIZE →
  let this := {| size_ := length l1; is_small_vector_ := true; store_ := u1 |} in
  let other := {| size_ := length l2; is_small_vector_ := true; store_ := u2 |} in
  match swap_small_small s this other with
  | Returns s' (this', other') =>
      heap s' = heap s ∧ (throw_in s = None → throw_in s' = None)
      ∧ this' = {| size_ := length l2; is_small_vector_ := true;
                   store_ := static_buffer (slots_of l2 SMALL_SIZE) |}
      ∧ other' = {| size_ := length l1; is_small_vector_ := true;
                    store_ := static_buffer (slots_of l1 SMALL_SIZE) |}
  | Throws s' (this', other') =>
      heap s' = heap s ∧ throw_in s ≠ None
      ∧ ((same_state s this this' ∧ other' = other)
         ∨ (0 < length l1
            ∧ (∀ k, throw_in s = Some k → length l2 - length l1 ≤ k)
            ∧ ∃ l1' l2', length l1' = length l2 ∧ length l2' = length l1
                ∧ this' = {| size_ := length l2; is_small_vector_ := true;
                             store_ := static_buffer (slots_of l1' SMALL_SIZE) |}
                ∧ other' = {| size_ := length l1; is_small_vector_ := true;
                              store_ := static_buffer (slots_of l2' SMALL_SIZE) |}))
  end.
Proof.
  intros H12 H2N Hu1 Hu2 this other. subst this other.
  unfold swap_small_small. simp. rewrite Hu1, Hu2.
  rewrite take_all_slots_of, <- fmap_drop.
  match goal with |- context [uninitialized_copy ?a ?b ?c ?d] =>
    assert (Hbudget : ∃ r, r = uninitialized_copy a b c d ∧
              match r with
              | Returns _ _ => ∀ k, throw_in s = Some k → length l2 - length l1 ≤ k
              | Throws _ _ => True
              end)
  end.
  { eexists. split; [done|].
    match goal with |- context [uninitialized_copy ?a ?b ?c ?d] =>
      pose proof (uninitialized_copy_budget a b c d) as Hb;
      destruct (uninitialized_copy a b c d); [|done] end.
    by rewrite length_fmap, length_drop in Hb. }
  destruct Hbudget as (r & Hr & Hbudget).
  copy_step l1 (drop (length l1) l2) SMALL_SIZE;
    [done|done|done|rewrite length_drop; lia| |]; simp.
  2:{ split_and!; try done. by left. }
  subst r.
  edestruct (pop_back_small_while_app (Some <$> drop (length l1) l2) (length l2) s0
               (length l1) (length l2) u2 (Some <$> take (length l1) l2)
               (raw (SMALL_SIZE - length l2))) as (u' & -> & Hu').
  { rewrite length_fmap, length_drop. lia. }
  { rewrite length_fmap, length_take. lia. }
  { rewrite length_fmap, length_drop. lia. }
  { rewrite Hu2. apply slots_of_take_drop; lia. }
  simp. rewrite Hu'.
  assert (Hthis : slots_of (l1 ++ drop (length l1) l2) SMALL_SIZE
                  = (Some <$> l1) ++ (Some <$> drop (length l1) l2)
                    ++ raw (SMALL_SIZE - length l2)).
  { unfold slots_of. rewrite fmap_app, <- app_assoc, length_app, length_drop.
    do 3 f_equal. lia. }
  rewrite Hthis.
  assert (Htake : length (take (length l1) l2) = length l1) by (rewrite length_take; lia).
  assert (Hraw : raw (length (Some <$> drop (length l1) l2)) ++ raw (SMALL_SIZE - length l2)
                 = raw (SMALL_SIZE - length l1)).
  { rewrite length_fmap, length_drop. unfold raw. rewrite <- replicate_add. f_equal. lia. }
  swap_step; rewrite Htake in Hswap; specialize (Hswap (le_n _) (le_n _)).
  - destruct Hswap as (Heq & Hh3 & Ht3 & _).
    rewrite swap_elements_prefix in Heq.
    2:{ by rewrite length_fmap. }
    2:{ by rewrite length_fmap. }
    injection Heq as -> ->.
    split_and!; [congruence|auto| |].
    + do 2 f_equal. by rewrite (slots_of_take_drop l2 (length l1)) by lia.
    + do 2 f_equal. by rewrite Hraw.
  - destruct Hswap as ((la & Hla & ->) & (lb & Hlb & ->) & Hh3 & Ht3 & Hlt).
    split_and!; [congruence|naive_solver|]. right. split; [done|]. split; [done|].
    exists (lb ++ drop (length l1) l2), la.
    split_and!; [rewrite length_app, length_drop; lia|done| |].
    + do 2 f_equal. unfold slots_of.
      rewrite fmap_app, <- app_assoc, length_app, length_drop. do 3 f_equal. lia.
    + do 2 f_equal. unfold slots_of. by rewrite Hraw, Hla.
Qed.

Lemma slots_of_inj_le l1 : ∀ l2 cap,
  length l1 ≤ cap → length l2 ≤ cap → slots_of l1 cap = slots_of l2 cap → l1 = l2.
Proof.
  unfold slots_of.
  induction l1 as [|x l1 IH]; intros [|y l2] cap H1 H2 Heq; simpl in *; try done.
  - destruct cap; [lia|done].
  - destruct cap; [lia|done].
  - destruct cap as [|cap]; [lia|]. simpl in Heq. injection Heq as -> Heq.
    f_equal. apply (IH l2 cap); [lia..|done].
Qed.

(** Two dynamic vectors on the same block hold the same elements. *)
Lemma rep_same_block s n1 n2 p l1 l2 :
  rep s {| size_ := n1; is_small_vector_ := false; store_ := dynamic_data (Some p) |} l1 →
  rep s {| size_ := n2; is_small_vector_ := false; store_ := dynamic_data (Some p) |} l2 →
  l1 = l2.
Proof.
  intros (c1 & r1 & -> & Hp1 & ? & ? & ?)%rep_dynamic_inv
         (c2 & r2 & -> & Hp2 & ? & ? & ?)%rep_dynamic_inv.
  rewrite Hp1 in Hp2. injection Hp2 as -> -> Heq. by eapply slots_of_inj_le.
Qed.

(** [swap] of a dynamic vector with a small one. *)
Lemma swap_dynamic_small_spec s n p u2 l2 :
  length l2 ≤ SMALL_SIZE → union_static u2 = slots_of l2 SMALL_SIZE →
  let this := {| size_ := n; is_small_vector_ := false; store_ := dynamic_data (Some p) |} in
  let other := {| size_ := length l2; is_small_vector_ := true; store_ := u2 |} in
  match swap_dynamic_small s this other with
  | Returns s' (this', other') =>
      heap s' = heap s ∧ (throw_in s = None → throw_in s' = None)
      ∧ this' = {| size_ := length l2; is_small_vector_ := true;
                   store_ := static_buffer (slots_of l2 SMALL_SIZE) |}
      ∧ other' = this
  | Throws s' (this', other') =>
      heap s' = heap s ∧ throw_in s ≠ None ∧ this' = this ∧ other' = other
  end.
Proof.
  intros H2N Hu2 this other. subst this other.
  unfold swap_dynamic_small. simp. rewrite Hu2, take_all_slots_of.
  copy_step (@nil T) l2 SMALL_SIZE; [done|by rewrite slots_of_nil|done|simpl; lia| |]; simp.
  2:{ by split_and!. }
  unfold noexcept_clear. simp. by split_and!.
Qed.

(** The contract of [swap] on two distinct objects: the two vectors
    exchange their elements and their storage.  When the copy of an
    element into a raw slot throws, both are what they were; when the
    exchange of two elements of two small vectors throws, the two vectors
    have exchanged their sizes and hold some elements. *)
Lemma swap_spec s this other l1 l2 :
  rep s this l1 → rep s other l2 →
  match swap s this other with
  | Returns s' (this', other') =>
      heap s' = heap s ∧ (throw_in s = None → throw_in s' = None)
      ∧ rep s' this' l2 ∧ rep s' other' l1
      ∧ const_data_ptr this' = const_data_ptr other
      ∧ const_data_ptr other' = const_data_ptr this
  | Throws s' (this', other') =>
      heap s' = heap s ∧ throw_in s ≠ None
      ∧ ((same_state s this this' ∧ same_state s other other')
         ∨ (is_small_vector_ this = true ∧ is_small_vector_ other = true
            ∧ l1 ≠ [] ∧ l2 ≠ []
            ∧ is_small_vector_ this' = true ∧ is_small_vector_ other' = true
            ∧ (∀ k, throw_in s = Some k →
                 length l1 `max` length l2 - length l1 `min` length l2 ≤ k)
            ∧ ∃ l1' l2', length l1' = length l2 ∧ length l2' = length l1
                ∧ rep s' this' l1' ∧ rep s' other' l2'))
  end.
Proof.
  intros Hrep1 Hrep2. unfold swap, is_same_vector.
  destruct Hrep1 as [u1 l1 Hl1 Hu1|p1 cap1 refs1 l1 Hp1 Hc1 Hl1 Hr1] eqn:E1;
  destruct Hrep2 as [u2 l2 Hl2 Hu2|p2 cap2 refs2 l2 Hp2 Hc2 Hl2 Hr2] eqn:E2;
    clear E1 E2; simp.
  - destruct (Nat.ltb_spec (length l2) (length l1)) as [Hlt|Hge].
    + pose proof (swap_small_small_spec s u2 l2 u1 l1 ltac:(lia) Hl1 Hu2 Hu1) as H.
      simpl in H. destruct (swap_small_small _ _ _) as [s' [o' t']|s' [o' t']]; simpl.
      * destruct H as (Hh & Ht & -> & ->). split_and!; try done.
        -- by apply rep_small_intro.
        -- by apply rep_small_intro.
      * destruct H as (Hh & Ht & [[Hs ->]|(Hpos & Hk & la & lb & Hla & Hlb & -> & ->)]).
        { split_and!; try done. by left. }
        split_and!; try done. right.
        split_and!; try done; try (intros ->; simpl in *; lia).
        { intros k Hsk. specialize (Hk k Hsk). lia. }
        exists lb, la. split_and!; try done; apply rep_small_intro; simpl; (done || lia).
    + pose proof (swap_small_small_spec s u1 l1 u2 l2 ltac:(lia) Hl2 Hu1 Hu2) as H.
      simpl in H. destruct (swap_small_small _ _ _) as [s' [t' o']|s' [t' o']]; simpl.
      * destruct H as (Hh & Ht & -> & ->). split_and!; try done.
        -- by apply rep_small_intro.
        -- by apply rep_small_intro.
      * destruct H as (Hh & Ht & [[Hs ->]|(Hpos & Hk & la & lb & Hla & Hlb & -> & ->)]).
        { split_and!; try done. by left. }
        split_and!; try done. right.
        split_and!; try done; try (intros ->; simpl in *; lia).
        { intros k Hsk. specialize (Hk k Hsk). lia. }
        exists la, lb. split_and!; try done; apply rep_small_intro; simpl; (done || lia).
  - pose proof (swap_dynamic_small_spec s (length l2) p2 u1 l1 Hl1 Hu1) as H.
    simpl in H. destruct (swap_dynamic_small _ _ _) as [s' [o' t']|s' [o' t']]; simpl.
    + destruct H as (Hh & Ht & -> & ->). split_and!; try done.
      * eapply rep_heap; [done|]. by eapply rep_dynamic.
      * by apply rep_small_intro.
    + destruct H as (Hh & Ht & -> & ->). split_and!; try done. by left.
  - pose proof (swap_dynamic_small_spec s (length l1) p1 u2 l2 Hl2 Hu2) as H.
    simpl in H. destruct (swap_dynamic_small _ _ _) as [s' [t' o']|s' [t' o']]; simpl.
    + destruct H as (Hh & Ht & -> & ->). split_and!; try done.
      * by apply rep_small_intro.
      * eapply rep_heap; [done|]. by eapply rep_dynamic.
    + destruct H as (Hh & Ht & -> & ->). split_and!; try done. by left.
  - case_bool_decide as Hpp.
    + subst p2.
      assert (l1 = l2) as ->.
      { eapply rep_same_block; by eapply rep_dynamic. }
      split_and!; try done; by eapply rep_dynamic.
    + split_and!; try done; by eapply rep_dynamic.
Qed.

(** ** Copy construction and copy assignment *)

(** Copying a dynamic vector shares its block and copies no element; it
    cannot throw.  Copying a small vector copies its elements into the
    inline storage of the new object. *)
Lemma copy_construct_spec s other l :
  rep s other l →
  match copy_construct s other with
  | Returns s' this' =>
      rep s' this' l ∧ rep s' other l
      ∧ const_data_ptr this' = const_data_ptr other
      ∧ (throw_in s = None → throw_in s' = None)
      ∧ (if is_small_vector_ other
         then heap s' = heap s ∧ copies s' = copies s + length l
         else this' = other ∧ s' = add_vector_ref s other)
  | Throws s' _ => is_small_vector_ other = true ∧ heap s' = heap s ∧ throw_in s ≠ None
  end.
Proof.
  intros Hrep. unfold copy_construct.
  destruct Hrep as [u l Hl Hu|p cap refs l Hp Hc Hl Hr] eqn:E; clear E; simp.
  - rewrite Hu, take_all_slots_of.
    copy_step (@nil T) l SMALL_SIZE; [done|by rewrite slots_of_nil|done|simpl; lia| |]; simp.
    + split_and!; try done.
      * by apply rep_small_intro.
      * by apply rep_small_intro.
      * by rewrite length_fmap in *.
    + done.
  - unfold add_vector_ref. simp. rewrite (alter_lookup _ _ _ _ Hp). simp.
    split_and!; try done.
    + eapply rep_dynamic; [|done..|]; simpl; [by rewrite lookup_insert_eq|lia].
    + eapply rep_dynamic; [|done..|]; simpl; [by rewrite lookup_insert_eq|lia].
Qed.

Lemma pop_back_while_small fuel : ∀ n s v,
  is_small_vector_ v = true →
  pop_back_while fuel n s v
  = let '(s', v') := pop_back_small_while fuel n s v in Returns s' (v', ()).
Proof.
  induction fuel as [|fuel IH]; intros n s v Hv; simpl; [done|].
  destruct (n <? size v); [|done].
  unfold pop_back, is_only_vector_ref. rewrite Hv. simpl.
  unfold destroy_back, store_data. simp. rewrite Hv. simpl.
  by rewrite IH.
Qed.

Lemma destructor_small s v : is_small_vector_ v = true → heap (destructor s v) = heap s.
Proof.
  intros Hv. unfold destructor, noexcept_clear, is_only_vector_ref, store_data.
  rewrite Hv. by simp.
Qed.

Lemma pop_back_small_while_done fuel n s v :
  size v ≤ n → pop_back_small_while fuel n s v = (s, v).
Proof.
  intros H. destruct fuel; [done|]. simpl.
  by destruct (Nat.ltb_spec n (size v)); [lia|].
Qed.

(** Copy assignment between two small vectors. *)
Lemma assign_small_small_spec s u1 l1 u2 l2 :
  length l1 ≤ SMALL_SIZE → length l2 ≤ SMALL_SIZE →
  union_static u1 = slots_of l1 SMALL_SIZE → union_static u2 = slots_of l2 SMALL_SIZE →
  let this := {| size_ := length l1; is_small_vector_ := true; store_ := u1 |} in
  let other := {| size_ := length l2; is_small_vector_ := true; store_ := u2 |} in
  match assign s this other with
  | Returns s' (this', _) =>
      heap s' = heap s ∧ (throw_in s = None → throw_in s' = None)
      ∧ this' = {| size_ := length l2; is_small_vector_ := true;
                   store_ := static_buffer (slots_of l2 SMALL_SIZE) |}
  | Throws s' this' =>
      heap s' = heap s ∧ throw_in s ≠ None
      ∧ (same_state s this this'
         ∨ (0 < length l1 ∧ 0 < length l2
            ∧ ∃ l', length l' = length l2
                ∧ this' = {| size_ := length l2; is_small_vector_ := true;
                             store_ := static_buffer (slots_of l' SMALL_SIZE) |}))
  end.
Proof.
  intros H1N H2N Hu1 Hu2 this other. subst this other.
  unfold assign, is_same_vector. simp. rewrite Hu2.
  rewrite take_slots_of by lia.
  unfold default_vector. simp.
  copy_step (@nil T) (take (length l1 `min` length l2) l2) SMALL_SIZE;
    [done|by rewrite slots_of_nil|done|simpl; rewrite length_take; lia| |]; simp.
  2:{ rewrite destructor_small by done. split_and!; try done. by left. }
  rewrite Hu1, take_all_slots_of, <- fmap_drop.
  destruct (decide (length l1 ≤ length l2)) as [Hle|Hgt].
  - rewrite Nat.min_l by done.
    copy_step l1 (drop (length l1) l2) SMALL_SIZE;
      [done|done|done|rewrite length_drop; lia| |]; simp.
    2:{ rewrite destructor_small by done. split_and!; [congruence|naive_solver|by left]. }
    rewrite pop_back_while_small by done.
    rewrite pop_back_small_while_done by (simpl; lia). simp.
    rewrite (slots_of_take_raw l2 (length l1)) by lia.
    assert (Hthis : slots_of (l1 ++ drop (length l1) l2) SMALL_SIZE
                    = (Some <$> l1) ++ (Some <$> drop (length l1) l2)
                      ++ raw (SMALL_SIZE - length l2)).
    { unfold slots_of. rewrite fmap_app, <- app_assoc, length_app, length_drop.
      do 3 f_equal. lia. }
    rewrite Hthis.
    assert (Htake : length (take (length l1) l2) = length l1) by (rewrite length_take; lia).
    swap_step; rewrite Htake in Hswap; specialize (Hswap (le_n _) (le_n _)).
    + destruct Hswap as (Heq & Hh3 & Ht3 & _).
      rewrite swap_elements_prefix in Heq.
      2:{ by rewrite length_fmap. }
      2:{ by rewrite length_fmap. }
      injection Heq as -> ->.
      rewrite destructor_small by done.
      split_and!; [congruence|naive_solver|].
      do 2 f_equal. by rewrite (slots_of_take_drop l2 (length l1)) by lia.
    + destruct Hswap as ((la & Hla & ->) & (lb & Hlb & ->) & Hh3 & Ht3 & Hlt).
      rewrite destructor_small by done.
      split_and!; [congruence|naive_solver|]. right. split_and!; [lia..|].
      exists (lb ++ drop (length l1) l2).
      split; [rewrite length_app, length_drop; lia|].
      do 2 f_equal. unfold slots_of.
      rewrite fmap_app, <- app_assoc, length_app, length_drop. do 3 f_equal. lia.
  - rewrite Nat.min_r by lia. rewrite drop_all. simpl.
    rewrite pop_back_while_small by done.
    match goal with
    | |- context [pop_back_small_while ?f ?n ?st
                    {| size_ := ?m; is_small_vector_ := true; store_ := ?u |}] =>
        edestruct (pop_back_small_while_app (Some <$> drop (length l2) l1) f st n m u
                     (Some <$> take (length l2) l1) (raw (SMALL_SIZE - length l1)))
          as (u' & -> & Hu')
    end.
    { rewrite length_fmap, length_drop. lia. }
    { rewrite length_fmap, length_take. lia. }
    { rewrite length_fmap, length_drop. lia. }
    { simpl. apply slots_of_take_drop; lia. }
    simp. rewrite Hu', firstn_all.
    unfold slots_of at 1.
    assert (Htake : length (take (length l2) l1) = length l2) by (rewrite length_take; lia).
    assert (Hraw : raw (length (Some <$> drop (length l2) l1)) ++ raw (SMALL_SIZE - length l1)
                   = raw (SMALL_SIZE - length l2)).
    { rewrite length_fmap, length_drop. unfold raw. rewrite <- replicate_add. f_equal. lia. }
    swap_step; rewrite Htake in Hswap; specialize (Hswap (le_n _) (le_n _)).
    + destruct Hswap as (Heq & Hh3 & Ht3 & _).
      rewrite swap_elements_prefix in Heq.
      2:{ by rewrite length_fmap. }
      2:{ by rewrite length_fmap. }
      injection Heq as -> ->.
      rewrite destructor_small by done.
      split_and!; [congruence|naive_solver|].
      do 2 f_equal. by rewrite Hraw.
    + destruct Hswap as ((la & Hla & ->) & (lb & Hlb & ->) & Hh3 & Ht3 & Hlt).
      rewrite destructor_small by done.
      split_and!; [congruence|naive_solver|]. right. split_and!; [lia..|].
      exists lb. split; [done|].
      do 2 f_equal. unfold slots_of. by rewrite Hraw, Hlb.
Qed.

(** The contract of copy assignment between two distinct objects: the
    target ends up holding the elements of the source, which is untouched.
    A small source is copied into the inline storage; a dynamic source
    shares its block, and then nothing is copied and nothing can throw.
    When the copy of an element into a raw slot throws, the target is
    what it was; when the exchange of two elements throws, between two
    small vectors, the target has the size of the source and holds some
    elements. *)
Lemma assign_spec s this other l1 l2 :
  rep s this l1 → rep s other l2 →
  match assign s this other with
  | Returns s' (this', _) =>
      rep s' this' l2 ∧ rep s' other l2
      ∧ (throw_in s = None → throw_in s' = None)
      ∧ ((is_small_vector_ other = true ∧ is_small_vector_ this' = true
          ∧ heap s' = heap (release_vector_ref s this))
         ∨ (is_same_vector this other = true ∧ s' = s ∧ this' = this)
         ∨ (is_same_vector this other = false ∧ this' = other
            ∧ ∃ p, store_ other = dynamic_data (Some p) ∧ is_small_vector_ other = false
              ∧ heap s' = alter (λ b, set_refs b (S (refs_count b))) p
                            (heap (release_vector_ref s this))
              ∧ copies s' = copies s))
  | Throws s' this' =>
      heap s' = heap s ∧ throw_in s ≠ None
      ∧ (same_state s this this'
         ∨ (is_small_vector_ this = true ∧ is_small_vector_ this' = true
            ∧ l1 ≠ [] ∧ l2 ≠ []
            ∧ ∃ l', length l' = length l2 ∧ rep s' this' l'))
      ∧ is_small_vector_ other = true
  end.
Proof.
  intros Hrep1 Hrep2.
  destruct Hrep1 as [u1 l1 Hl1 Hu1|p1 cap1 refs1 l1 Hp1 Hc1 Hl1 Hr1] eqn:E1;
  destruct Hrep2 as [u2 l2 Hl2 Hu2|p2 cap2 refs2 l2 Hp2 Hc2 Hl2 Hr2] eqn:E2;
    clear E1 E2.
  - pose proof (assign_small_small_spec s u1 l1 u2 l2 Hl1 Hl2 Hu1 Hu2) as H. simpl in H.
    destruct (assign s _ _) as [s' [this' []]|s' this'].
    + destruct H as (Hh & Ht & ->). split_and!; try done.
      * by apply rep_small_intro.
      * by apply rep_small_intro.
      * left. by rewrite release_vector_ref_small.
    + destruct H as (? & ? & [?|(? & ? & l' & ? & ->)]); split_and!; try done; [by left|].
      right. split_and!; try done; try (intros ->; simpl in *; lia).
      exists l'. split; [done|]. apply rep_small_intro; simpl; (done || lia).
  - unfold assign, is_same_vector, noexcept_clear, add_vector_ref. simp.
    rewrite (alter_lookup _ _ _ _ Hp2). simp.
    split_and!; try done.
    + eapply rep_dynamic; [|done..|]; simpl; [by rewrite lookup_insert_eq|lia].
    + eapply rep_dynamic; [|done..|]; simpl; [by rewrite lookup_insert_eq|lia].
    + right. right. split_and!; try done. exists p2. split_and!; try done.
      rewrite release_vector_ref_small by done. simpl.
      by rewrite (alter_lookup _ _ _ _ Hp2).
  - unfold assign, is_same_vector. simp. rewrite Hu2, take_all_slots_of.
    pose proof (from_dynamic_to_static_spec s _ l1 l2 (rep_dynamic _ _ _ _ _ Hp1 Hc1 Hl1 Hr1)
                  eq_refl Hl2) as H.
    destruct (from_dynamic_to_static _ _ _ _) as [s' [this' []]|s' this'].
    + destruct H as (Htr & Hsm & Hh & Ht). split_and!; try done.
      * by eapply transition_rep.
      * by apply rep_small_intro.
      * by left.
    + destruct H as (-> & ? & ?). split_and!; try done. by left.
  - unfold assign, is_same_vector. simp. case_bool_decide as Hpp.
    + subst p2.
      assert (l1 = l2) as ->.
      { eapply rep_same_block; by eapply rep_dynamic. }
      split_and!; try done; [by eapply rep_dynamic..|]. right. left. done.
    + unfold add_vector_ref, release_vector_ref. simp.
      rewrite release_ref_throw_in, release_ref_heap.
      assert (Hp2' : release_block (heap s) p1 !! p2 =
                Some {| capacity_ := cap2; refs_count := refs2; data_ := slots_of l2 cap2 |}).
      { by rewrite release_block_lookup_ne. }
      rewrite (alter_lookup _ _ _ _ Hp2'). simp.
      split_and!; try done.
      * eapply rep_dynamic; [|done..|]; simpl; [by rewrite lookup_insert_eq|lia].
      * eapply rep_dynamic; [|done..|]; simpl; [by rewrite lookup_insert_eq|lia].
      * right. right. split_and!; try done. exists p2. split_and!; try done.
        -- rewrite ?release_ref_heap. by rewrite (alter_lookup _ _ _ _ Hp2').
        -- unfold release_ref. destruct (heap s !! p1) as [b|]; [|done].
           by destruct (refs_count b - 1 =? 0).
Qed.

(** ** Writing through [operator[]] *)

Lemma insert_slots_of (l : list T) cap i x :
  i < length l → <[i := Some x]> (slots_of l cap) = slots_of (<[i := x]> l) cap.
Proof.
  intros Hi. unfold slots_of.
  rewrite insert_app_l by (by rewrite length_fmap).
  by rewrite list_fmap_insert, length_insert.
Qed.

Lemma assign_at_spec s this l index value :
  rep s this l → index < length l →
  match assign_at s this index value with
  | Returns s' (this', _) =>
      transition s this s' this' (<[index := value]> l)
      ∧ (throw_in s = None → throw_in s' = None)
  | Throws s' this' => rolled_back s this s' this'
  end.
Proof.
  intros Hrep Hi. unfold assign_at, data, unshare.
  destruct Hrep as [u l Hl Hu|p cap refs l Hp Hc Hl Hr] eqn:Hr0; clear Hr0; simp.
  - rewrite Hu, insert_slots_of by done. split; [|done].
    apply in_small; [done..|]. apply rep_small_intro; by rewrite ?length_insert.
  - rewrite Hp. simp. destruct (Nat.eqb_spec refs 1) as [->|Hne]; simp.
    + rewrite Hp. heap_norm. rewrite insert_slots_of by done. split; [|done].
      eapply in_block; simpl; eauto; by rewrite ?length_insert.
    + construct_step Hrep; simp; [| |lia..].
      2:{ done. }
      edestruct (adopt_fresh s s0 _ _ (length l) _ Hrep eq_refl Hheap)
        as (s' & -> & _ & Hh' & Ht').
      rewrite firstn_all in Hh'. simp.
      rewrite Hh'. heap_norm. rewrite insert_slots_of by done.
      split; [|rewrite Ht'; auto].
      rewrite <- (length_insert l index value) at 1.
      eapply to_fresh; eauto; by rewrite ?length_insert.
Qed.

(** ** The mutating interface

    The methods through which a caller changes one vector, with the
    arguments they take, the precondition the class leaves to the caller,
    and what each does to the sequence of elements. *)
Inductive call :=
  | call_push_back (x : T)
  | call_pop_back
  | call_insert (pos : nat) (x : T)
  | call_erase (first last : nat)
  | call_erase1 (pos : nat)
  | call_reserve (new_capacity : nat)
  | call_shrink_to_fit
  | call_clear
  | call_assign_at (index : nat) (x : T)
  | call_data.

Definition forget {A : Type} (r : method A) : method unit :=
  let! (s, v, _) := r in Returns s (v, ()).

Definition run (c : call) (s : state) (this : socow_vector) : method unit :=
  match c with
  | call_push_back x => push_back s this x
  | call_pop_back => pop_back s this
  | call_insert pos x => forget (insert s this pos x)
  | call_erase first last => forget (erase s this first last)
  | call_erase1 pos => forget (erase1 s this pos)
  | call_reserve k => reserve s this k
  | call_shrink_to_fit => shrink_to_fit s this
  | call_clear => clear s this
  | call_assign_at i x => assign_at s this i x
  | call_data => forget (data s this)
  end.

Definition allowed (c : call) (l : list T) : Prop :=
  match c with
  | call_pop_back => l ≠ []
  | call_insert pos _ => pos ≤ length l
  | call_erase first last => first ≤ last ∧ last ≤ length l
  | call_erase1 pos => pos < length l
  | call_assign_at i _ => i < length l
  | _ => True
  end.

Definition effect (c : call) (l : list T) : list T :=
  match c with
  | call_push_back x => l ++ [x]
  | call_pop_back => removelast l
  | call_insert pos x => take pos l ++ x :: drop pos l
  | call_erase first last => take first l ++ drop last l
  | call_erase1 pos => take pos l ++ drop (pos + 1) l
  | call_clear => []
  | call_assign_at i x => <[i := x]> l
  | call_reserve _ | call_shrink_to_fit | call_data => l
  end.

(** The calls that move elements about by exchanging them when the vector
    is the only owner of its storage and has room, and the number of
    elements that the vector holds while they do. *)
Definition shifts (c : call) (l : list T) : Prop :=
  match c with
  | call_insert pos _ => pos < length l
  | call_erase first last => first < last ∧ last < length l
  | call_erase1 pos => pos + 1 < length l
  | _ => False
  end.

Definition shifted_size (c : call) (l : list T) : nat :=
  match c with
  | call_insert _ _ => S (length l)
  | _ => length l
  end.

(** Every mutating method makes one transition to the expected elements,
    or throws; the vector is then rolled back, unless the exception came
    out of an exchange of elements in place. *)
Lemma run_spec c s this l :
  0 < SMALL_SIZE → rep s this l → allowed c l →
  match run c s this with
  | Returns s' (this', _) =>
      transition s this s' this' (effect c l) ∧ (throw_in s = None → throw_in s' = None)
  | Throws s' this' =>
      rolled_back s this s' this'
      ∨ (shifts c l ∧ disturbed s this s' this' (shifted_size c l))
  end.
Proof.
  intros HN Hrep Hc. destruct c as [x| |pos x|first lst|pos|k| | |i x|]; simpl in *.
  - pose proof (push_back_spec s this l x Hrep HN) as H.
    destruct (push_back s this x) as [s' [this' []]|]; [|by left]. by destruct H as (? & _ & ?).
  - destruct l as [|x l _] using rev_ind; [done|].
    rewrite removelast_last. pose proof (pop_back_spec s this l x Hrep) as H.
    destruct (pop_back s this) as [s' [this' []]|]; [done|by left].
  - pose proof (insert_spec s this l pos x Hrep Hc HN) as H. unfold forget.
    destruct (insert s this pos x) as [s' [this' it]|]; simpl.
    + by destruct H as (? & _ & _ & ?).
    + destruct H as [H|(? & _ & _ & ?)]; [by left|by right].
  - destruct Hc as [H1 H2].
    pose proof (erase_spec s this l first lst Hrep H1 H2) as H. unfold forget.
    destruct (erase s this first lst) as [s' [this' it]|]; simpl.
    + by destruct H as (? & _ & ?).
    + destruct H as [H|(? & ? & ?)]; [by left|by right].
  - pose proof (erase_spec s this l pos (pos + 1) Hrep ltac:(lia) ltac:(lia)) as H.
    unfold forget, erase1.
    destruct (erase s this pos (pos + 1)) as [s' [this' it]|]; simpl.
    + by destruct H as (? & _ & ?).
    + destruct H as [H|(? & ? & ?)]; [by left|by right].
  - pose proof (reserve_spec s this l k Hrep) as H.
    destruct (reserve s this k) as [s' [this' []]|]; [|by left].
    by destruct H as (? & _ & ?).
  - pose proof (shrink_to_fit_spec s this l Hrep) as H.
    destruct (shrink_to_fit s this) as [s' [this' []]|]; [|by left].
    by destruct H as (? & _ & ?).
  - pose proof (clear_spec s this l Hrep) as H.
    destruct (clear s this) as [s' [this' []]|]; [|left; by destruct H].
    by destruct H as (? & _ & ?).
  - pose proof (assign_at_spec s this l i x Hrep Hc) as H.
    destruct (assign_at s this i x) as [s' [this' []]|]; [done|by left].
  - pose proof (unshare_spec s this l Hrep) as H. unfold forget, data.
    destruct (unshare s this) as [s' [this' []]|]; [|by left]. simpl.
    by destruct H as (? & _ & ? & _).
Qed.

(** Whether it returns or throws, a call leaves the vector well formed
    after one transition. *)
Lemma run_transition c s this l :
  0 < SMALL_SIZE → rep s this l → allowed c l →
  ∃ l', match run c s this with
        | Returns s' (this', _) | Throws s' this' => transition s this s' this' l'
        end.
Proof.
  intros HN Hrep Hc. pose proof (run_spec c s this l HN Hrep Hc) as H.
  destruct (run c s this) as [s' [this' []]|s' this'].
  - exists (effect c l). by destruct H.
  - destruct H as [(-> & Hh & _)|(_ & _ & _ & _ & _ & l' & _ & Htr)].
    + exists l. by apply unchanged.
    + by exists l'.
Qed.

(** ** What a transition does to the heap *)

(** The vector's storage is the block at [p]. *)
Definition owns (v : socow_vector) (p : addr) : Prop := const_data_ptr v = heap_ptr p.

Global Instance owns_dec v p : Decision (owns v p).
Proof. unfold owns. apply _. Defined.

Lemma rep_owns s v l p : rep s v l → owns v p → ∃ b, heap s !! p = Some b ∧ 1 ≤ refs_count b.
Proof.
  destruct 1 as [|q cap refs l Hq ? ? ?]; unfold owns; simpl; [done|].
  intros [= ->]. eauto.
Qed.

Lemma owns_dynamic n p q :
  owns {| size_ := n; is_small_vector_ := false; store_ := dynamic_data (Some p) |} q ↔ p = q.
Proof. unfold owns. simpl. split; [by intros [= ->]|by intros ->]. Qed.

Lemma owns_small v q : is_small_vector_ v = true → ¬ owns v q.
Proof. unfold owns, const_data_ptr. by intros ->. Qed.

Lemma release_vector_ref_lookup s this l q :
  rep s this l →
  heap (release_vector_ref s this) !! q =
    if decide (owns this q)
    then match heap s !! q with
         | Some b => if refs_count b =? 1 then None
                     else Some (set_refs b (refs_count b - 1))
         | None => None
         end
    else heap s !! q.
Proof.
  destruct 1 as [u l ? ?|p cap refs l Hp ? ? ?].
  - rewrite release_vector_ref_small by done.
    by rewrite decide_False by (by apply owns_small).
  - rewrite release_vector_ref_dynamic. unfold release_block. rewrite Hp. simpl.
    destruct (decide (p = q)) as [->|Hne].
    + rewrite decide_True by (by apply owns_dynamic). rewrite Hp. simpl.
      destruct refs as [|[|r]]; simpl; [lia| |].
      * by rewrite lookup_delete_eq.
      * by rewrite lookup_insert_eq.
    + rewrite decide_False by (by rewrite owns_dynamic).
      destruct (refs - 1 =? 0).
      * by rewrite lookup_delete_ne.
      * by rewrite lookup_insert_ne.
Qed.

(** A block that the vector does not own is untouched, and the vector does
    not come to own it.  A block that it owns either stays its block, with
    the same count and, unless the count is one, the same elements, or is
    released: freed if the count was one, counted once less otherwise. *)
Lemma transition_old_block s this l s' this' l' q b :
  rep s this l → transition s this s' this' l' → heap s !! q = Some b →
  (¬ owns this q → heap s' !! q = Some b ∧ ¬ owns this' q)
  ∧ (owns this q →
       (owns this' q ∧ ∃ d, heap s' !! q = Some (set_data b d)
                            ∧ (refs_count b ≠ 1 → d = data_ b))
       ∨ (¬ owns this' q
          ∧ heap s' !! q = if refs_count b =? 1 then None
                           else Some (set_refs b (refs_count b - 1)))).
Proof.
  intros Hrep Htr Hq.
  assert (Hfresh : q ≠ fresh (dom (heap s))).
  { intros ->. by rewrite fresh_heap in Hq. }
  destruct Htr as [Hs Hs' Hh Hrep'|p cap d Hs Hst Hp HN Hl' Hh ->|Hs Hs' Hh Hrep'
                  |cap' Hh -> HN Hl'|Hh -> Hrep'].
  - split; [|by intros ?%owns_small]. intros _. rewrite Hh. split; [done|by apply owns_small].
  - assert (Hthis : ∀ q, owns this q ↔ p = q).
    { intros q'. destruct this as [n sm u]. simpl in *. subst. apply owns_dynamic. }
    split.
    + intros Hno. rewrite Hthis in Hno. rewrite Hh, lookup_insert_ne by done.
      split; [done|]. by rewrite owns_dynamic.
    + intros ->%Hthis. left. split; [by apply owns_dynamic|].
      rewrite Hp in Hq. injection Hq as <-.
      eexists. rewrite Hh, lookup_insert_eq. split; [done|]. simpl. done.
  - rewrite Hh, (release_vector_ref_lookup _ _ _ _ Hrep), Hq.
    split.
    + intros Hno. rewrite decide_False by done. split; [done|by apply owns_small].
    + intros Hyes. rewrite decide_True by done. right. split; [by apply owns_small|done].
  - rewrite Hh, lookup_insert_ne by done.
    rewrite (release_vector_ref_lookup _ _ _ _ Hrep), Hq.
    assert (¬ owns {| size_ := length l'; is_small_vector_ := false;
                      store_ := dynamic_data (Some (fresh (dom (heap s)))) |} q) as Hnew.
    { rewrite owns_dynamic. congruence. }
    split.
    + intros Hno. by rewrite decide_False.
    + intros Hyes. rewrite decide_True by done. by right.
  - split; [by rewrite Hh|]. intros Hyes. left. split; [done|].
    exists (data_ b). rewrite Hh, Hq. split; [by destruct b|done].
Qed.

(** An address that held no block either still holds none, or holds the
    block that the vector has just allocated and alone owns. *)
Lemma transition_new_block s this l s' this' l' q :
  rep s this l → transition s this s' this' l' → heap s !! q = None →
  (heap s' !! q = None ∧ ¬ owns this' q)
  ∨ (owns this' q ∧ ∃ b', heap s' !! q = Some b' ∧ refs_count b' = 1).
Proof.
  intros Hrep Htr Hq.
  destruct Htr as [Hs Hs' Hh Hrep'|p cap d Hs Hst Hp HN Hl' Hh ->|Hs Hs' Hh Hrep'
                  |cap' Hh -> HN Hl'|Hh -> Hrep'].
  - left. rewrite Hh. split; [done|by apply owns_small].
  - left. assert (p ≠ q) by congruence.
    rewrite Hh, lookup_insert_ne by done. split; [done|by rewrite owns_dynamic].
  - left. rewrite Hh, (release_vector_ref_lookup _ _ _ _ Hrep), Hq.
    split; [by destruct (decide _)|by apply owns_small].
  - destruct (decide (q = fresh (dom (heap s)))) as [->|Hne].
    + right. split; [by apply owns_dynamic|]. rewrite Hh, lookup_insert_eq. eauto.
    + left. rewrite Hh, lookup_insert_ne by done.
      rewrite (release_vector_ref_lookup _ _ _ _ Hrep), Hq.
      split; [by destruct (decide _)|]. rewrite owns_dynamic. congruence.
  - left. rewrite Hh. split; [done|].
    intros (b & Hb & _)%(rep_owns _ _ _ _ Hrep'). congruence.
Qed.

(** ** Worlds of vectors

    A world is a heap together with the vector objects that live in it,
    told apart by their position in [objs].  It is consistent when every
    object is well formed and every block is counted exactly as often as
    there are objects that point to it. *)
Record world := { st : state; objs : list socow_vector }.

Definition owners (p : addr) (os : list socow_vector) : nat :=
  length (filter (λ v, owns v p) os).

Definition consistent (w : world) : Prop :=
  (∀ i v, objs w !! i = Some v → wf (st w) v)
  ∧ (∀ p b, heap (st w) !! p = Some b → refs_count b = owners p (objs w)).

Definition count_own (v : socow_vector) (p : addr) : nat := if decide (owns v p) then 1 else 0.

Lemma owners_cons p v os : owners p (v :: os) = count_own v p + owners p os.
Proof. unfold owners, count_own. rewrite filter_cons. by destruct (decide (owns v p)). Qed.

Lemma owners_app p os1 os2 : owners p (os1 ++ os2) = owners p os1 + owners p os2.
Proof. unfold owners. by rewrite filter_app, length_app. Qed.

Lemma owners_insert p os i v v' :
  os !! i = Some v →
  owners p (<[i := v']> os) + count_own v p = owners p os + count_own v' p.
Proof.
  intros Hi. rewrite <- (take_drop_middle os i v Hi) at 2.
  rewrite insert_take_drop by (by eapply lookup_lt_Some).
  rewrite !owners_app, !owners_cons. lia.
Qed.

Lemma owners_delete p os i v :
  os !! i = Some v → owners p (delete i os) + count_own v p = owners p os.
Proof.
  intros Hi. rewrite <- (take_drop_middle os i v Hi) at 2.
  rewrite delete_take_drop, !owners_app, !owners_cons. lia.
Qed.

Lemma count_own_small v p : is_small_vector_ v = true → count_own v p = 0.
Proof. intros H. unfold count_own. by rewrite decide_False by (by apply owns_small). Qed.

Lemma owners_pos p os i v : os !! i = Some v → owns v p → 1 ≤ owners p os.
Proof.
  intros Hi Hv. pose proof (owners_insert p os i v default_vector Hi) as H.
  rewrite (count_own_small default_vector) in H by done.
  unfold count_own in H at 1. rewrite decide_True in H by done. lia.
Qed.

Lemma owners_two p os i j v v' :
  i ≠ j → os !! i = Some v → os !! j = Some v' → owns v p → owns v' p → 2 ≤ owners p os.
Proof.
  intros Hij Hi Hj Hv Hv'. pose proof (owners_insert p os i v default_vector Hi) as H.
  rewrite (count_own_small default_vector) in H by done.
  unfold count_own in H at 1. rewrite decide_True in H by done.
  assert (1 ≤ owners p (<[i := default_vector]> os)); [|lia].
  eapply (owners_pos _ _ j); [|done]. by rewrite list_lookup_insert_ne.
Qed.

Lemma owners_zero p os : (∀ i v, os !! i = Some v → ¬ owns v p) → owners p os = 0.
Proof.
  induction os as [|v os IH]; intros H; [done|].
  rewrite owners_cons, IH.
  - unfold count_own. by rewrite decide_False by (by apply (H 0)).
  - intros i v' Hi. by apply (H (S i)).
Qed.

(** A well-formed vector stays well formed when its block is kept with
    its elements and a positive count. *)
Lemma rep_kept s s' v l :
  rep s v l →
  (∀ p b, owns v p → heap s !! p = Some b →
     ∃ r, 1 ≤ r ∧ heap s' !! p = Some (set_refs b r)) →
  rep s' v l.
Proof.
  intros Hrep Hkept. destruct Hrep as [u l ? ?|p cap refs l Hp ? ? ?].
  - by apply rep_small.
  - destruct (Hkept p _ ltac:(by apply owns_dynamic) Hp) as (r & Hr & Hp').
    eapply rep_dynamic; eauto.
Qed.

(** A transition of one object of a consistent world leaves the world
    consistent. *)
Lemma transition_consistent s os i this l s' this' l' :
  consistent {| st := s; objs := os |} → os !! i = Some this →
  rep s this l → transition s this s' this' l' →
  consistent {| st := s'; objs := <[i := this']> os |}.
Proof.
  intros [Hwf Hcount] Hi Hrep Htr. simpl in *. split; simpl.
  - intros j v Hj. destruct (decide (i = j)) as [->|Hij].
    + rewrite list_lookup_insert_eq in Hj by (by eapply lookup_lt_Some).
      injection Hj as <-. exists l'. by eapply transition_rep.
    + rewrite list_lookup_insert_ne in Hj by done.
      destruct (Hwf j v Hj) as [lj Hrepj]. exists lj.
      eapply rep_kept; [done|]. intros p b Hv Hp.
      destruct (transition_old_block _ _ _ _ _ _ p b Hrep Htr Hp) as [Hno Hyes].
      destruct (decide (owns this p)) as [Hthis|Hthis].
      * assert (2 ≤ refs_count b) as Hb.
        { rewrite (Hcount p b Hp). by eapply (owners_two p os i j). }
        destruct (Hyes Hthis) as [(_ & d & Hp' & Hd)|(_ & Hp')].
        -- exists (refs_count b). split; [lia|]. rewrite Hp', Hd by lia. by destruct b.
        -- exists (refs_count b - 1). split; [lia|]. rewrite Hp'.
           by destruct (Nat.eqb_spec (refs_count b) 1); [lia|].
      * destruct (Hno Hthis) as [Hp' _]. exists (refs_count b).
        split; [|by destruct b].
        by destruct (rep_owns _ _ _ _ Hrepj Hv) as (b0 & Hb0 & ?); simplify_eq.
  - intros q b' Hq'. pose proof (owners_insert q os i this this' Hi) as Hown.
    destruct (heap s !! q) as [b|] eqn:Hq.
    + destruct (transition_old_block _ _ _ _ _ _ q b Hrep Htr Hq) as [Hno Hyes].
      specialize (Hcount q b Hq). unfold count_own in Hown.
      destruct (decide (owns this q)) as [Hthis|Hthis].
      * destruct (Hyes Hthis) as [(Hthis' & d & Hp' & Hd)|(Hthis' & Hp')].
        -- rewrite decide_True in Hown by done. rewrite Hp' in Hq'.
           injection Hq' as <-. simpl. lia.
        -- rewrite decide_False in Hown by done. rewrite Hp' in Hq'.
           destruct (Nat.eqb_spec (refs_count b) 1); [done|].
           injection Hq' as <-. simpl. lia.
      * destruct (Hno Hthis) as [Hp' Hthis'].
        rewrite decide_False in Hown by done. rewrite Hp' in Hq'.
        injection Hq' as <-. lia.
    + destruct (transition_new_block _ _ _ _ _ _ q Hrep Htr Hq)
        as [[Hp' _]|(Hthis' & b'' & Hp' & Hr)]; [congruence|].
      rewrite Hp' in Hq'. injection Hq' as <-. rewrite Hr.
      unfold count_own in Hown. rewrite (decide_True _ _ Hthis') in Hown.
      rewrite decide_False in Hown.
      2:{ intros (b0 & Hb0 & _)%(rep_owns _ _ _ _ Hrep). congruence. }
      rewrite (owners_zero q os) in Hown; [lia|].
      intros j v Hj Hv. destruct (Hwf j v Hj) as [lj Hrepj].
      destruct (rep_owns _ _ _ _ Hrepj Hv) as (b0 & Hb0 & _). congruence.
Qed.

Lemma consistent_heap s s' os :
  heap s' = heap s → consistent {| st := s; objs := os |} → consistent {| st := s'; objs := os |}.
Proof.
  intros Hh [Hwf Hcount]. split; simpl in *.
  - intros i v Hi. destruct (Hwf i v Hi) as [l Hl]. exists l. by eapply rep_heap.
  - intros p b. rewrite Hh. apply Hcount.
Qed.

Lemma same_state_rep s v v' l : rep s v l → same_state s v v' → rep s v' l.
Proof.
  intros Hrep (Hsize & Hsmall & Hptr & Hdata). destruct v' as [n' small' u']. simp.
  destruct Hrep as [u l ? Hu|p cap refs l Hp ? ? ?]; simp; subst.
  - apply rep_small; [done|]. simp. congruence.
  - destruct u' as [[q|]|]; simpl in *; try done. injection Hptr as ->.
    by eapply rep_dynamic.
Qed.

Lemma count_own_ptr v v' p :
  const_data_ptr v' = const_data_ptr v → count_own v' p = count_own v p.
Proof.
  intros Hptr. unfold count_own.
  destruct (decide (owns v p)) as [H|H]; unfold owns in H; rewrite <- Hptr in H.
  - by rewrite decide_True.
  - by rewrite decide_False.
Qed.

Lemma same_state_count s v v' p : same_state s v v' → count_own v' p = count_own v p.
Proof. intros (_ & _ & Hptr & _). by apply count_own_ptr. Qed.

(** A new small object may join a consistent world, and a small object
    may leave it. *)
Lemma consistent_add_small s os v l :
  consistent {| st := s; objs := os |} → rep s v l → is_small_vector_ v = true →
  consistent {| st := s; objs := os ++ [v] |}.
Proof.
  intros [Hwf Hcount] Hrep Hsmall. split; simpl in *.
  - intros i v' [Hi|[_ Hi]]%lookup_app_Some; [by eapply Hwf|].
    apply list_lookup_singleton_Some in Hi as [_ <-]. by exists l.
  - intros p b Hp. rewrite owners_app, owners_cons, count_own_small by done.
    rewrite (Hcount p b Hp). unfold owners. simpl. lia.
Qed.

Lemma consistent_delete_small s os i v :
  consistent {| st := s; objs := os |} → os !! i = Some v → is_small_vector_ v = true →
  consistent {| st := s; objs := delete i os |}.
Proof.
  intros [Hwf Hcount] Hi Hsmall. split; simpl in *.
  - intros j v' Hj. destruct (decide (j < i)).
    + rewrite list_lookup_delete_lt in Hj by done. by eapply Hwf.
    + rewrite list_lookup_delete_ge in Hj by lia. by eapply Hwf.
  - intros p b Hp. pose proof (owners_delete p os i v Hi) as H.
    rewrite count_own_small in H by done. rewrite (Hcount p b Hp). lia.
Qed.

(** Taking one more reference to the block of an object of the world, for
    a new object or for a small object that becomes dynamic. *)
Lemma add_vector_ref_heap s n p b :
  heap s !! p = Some b →
  heap (add_vector_ref s {| size_ := n; is_small_vector_ := false;
                            store_ := dynamic_data (Some p) |})
  = <[p := set_refs b (S (refs_count b))]> (heap s).
Proof. intros Hp. unfold add_vector_ref. simp. by rewrite (alter_lookup _ _ _ _ Hp). Qed.

Lemma consistent_share s os os' j vj :
  consistent {| st := s; objs := os |} → os !! j = Some vj → is_small_vector_ vj = false →
  (∀ q, owners q os' = owners q os + count_own vj q) →
  (∀ i v, os' !! i = Some v → v = vj ∨ ∃ k, os !! k = Some v) →
  consistent {| st := add_vector_ref s vj; objs := os' |}.
Proof.
  intros [Hwf Hcount] Hj Hdyn Hown Hobjs. simpl in *.
  destruct (Hwf j vj Hj) as [lj Hrepj].
  destruct Hrepj as [|p cap refs lj Hp Hc Hl Hr] eqn:E; [done|]. clear E.
  assert (Hkept : ∀ v l, rep s v l →
            rep (add_vector_ref s {| size_ := length lj; is_small_vector_ := false;
                                     store_ := dynamic_data (Some p) |}) v l).
  { intros v l Hv. eapply rep_kept; [done|]. intros q b Hq Hb.
    rewrite (add_vector_ref_heap _ _ _ _ Hp).
    destruct (decide (p = q)) as [->|Hne].
    - rewrite lookup_insert_eq. rewrite Hp in Hb. injection Hb as <-.
      exists (S refs). split; [lia|done].
    - rewrite lookup_insert_ne by done. exists (refs_count b).
      destruct (rep_owns _ _ _ _ Hv Hq) as (b0 & Hb0 & ?).
      rewrite Hb in Hb0. injection Hb0 as <-. split; [done|by destruct b]. }
  split; cbn [st objs].
  - intros i v Hi. destruct (Hobjs i v Hi) as [->|[k Hk]].
    + exists lj. apply Hkept. by eapply rep_dynamic.
    + destruct (Hwf k v Hk) as [l Hl']. exists l. by apply Hkept.
  - intros q b. rewrite (add_vector_ref_heap _ _ _ _ Hp), Hown. unfold count_own.
    destruct (decide (p = q)) as [->|Hne].
    + rewrite lookup_insert_eq. intros [= <-]. simpl.
      rewrite decide_True by (by apply owns_dynamic). rewrite <- (Hcount q _ Hp). simpl. lia.
    + rewrite lookup_insert_ne by done. intros Hq.
      rewrite decide_False by (by rewrite owns_dynamic). rewrite (Hcount q b Hq). lia.
Qed.

(** ** Operations on the objects of a world

    The address that [const_data()] returns for the object at position
    [i]: an address inside the object itself when it is small, the address
    of its block otherwise. *)
Inductive address :=
  | inside_object (i : nat)
  | inside_block (p : addr)
  | null_address.

Definition data_address (i : nat) (v : socow_vector) : address :=
  match const_data_ptr v with
  | static_ptr => inside_object i
  | heap_ptr p => inside_block p
  | null_ptr => null_address
  end.

(** [is_same_vector] for the objects at positions [i] and [j], which may
    be the same object. *)
Definition same_storage (i j : nat) (vi vj : socow_vector) : bool :=
  match data_address i vi, data_address j vj with
  | inside_object i', inside_object j' => bool_decide (i' = j')
  | inside_block p, inside_block q => bool_decide (p = q)
  | null_address, null_address => true
  | _, _ => false
  end.

(** [objs[i].method(...)]. *)
Definition world_call (w : world) (i : nat) (c : call) : world :=
  match objs w !! i with
  | Some v =>
      match run c (st w) v with
      | Returns s' (v', _) | Throws s' v' => {| st := s'; objs := <[i := v']> (objs w) |}
      end
  | None => w
  end.

(** [objs[i] = objs[j]]. *)
Definition world_assign (w : world) (i j : nat) : world :=
  match objs w !! i, objs w !! j with
  | Some vi, Some vj =>
      if same_storage i j vi vj then w
      else match assign (st w) vi vj with
           | Returns s' (vi', _) | Throws s' vi' =>
               {| st := s'; objs := <[i := vi']> (objs w) |}
           end
  | _, _ => w
  end.

(** [objs[i].swap(objs[j])]. *)
Definition world_swap (w : world) (i j : nat) : world :=
  match objs w !! i, objs w !! j with
  | Some vi, Some vj =>
      if same_storage i j vi vj then w
      else match swap (st w) vi vj with
           | Returns s' (vi', vj') | Throws s' (vi', vj') =>
               {| st := s'; objs := <[j := vj']> (<[i := vi']> (objs w)) |}
           end
  | _, _ => w
  end.

(** A new object copy-constructed from [objs[i]]. *)
Definition world_copy (w : world) (i : nat) : world :=
  match objs w !! i with
  | Some v =>
      match copy_construct (st w) v with
      | Returns s' v' => {| st := s'; objs := objs w ++ [v'] |}
      | Throws s' _ => {| st := s'; objs := objs w |}
      end
  | None => w
  end.

(** The end of the life of [objs[i]]. *)
Definition world_destroy (w : world) (i : nat) : world :=
  match objs w !! i with
  | Some v => {| st := destructor (st w) v; objs := delete i (objs w) |}
  | None => w
  end.

(** What a caller reads from [objs[i]]. *)
Definition elements (w : world) (i : nat) : list slot :=
  match objs w !! i with
  | Some v => contents (st w) v
  | None => []
  end.

Lemma same_storage_self i v : same_storage i i v v = true.
Proof.
  unfold same_storage, data_address. destruct (const_data_ptr v); by rewrite ?bool_decide_eq_true_2.
Qed.

Lemma same_storage_distinct i j vi vj :
  i ≠ j → same_storage i j vi vj = is_same_vector vi vj.
Proof.
  intros Hij. unfold same_storage, data_address, is_same_vector.
  destruct (const_data_ptr vi), (const_data_ptr vj); try done.
  by rewrite bool_decide_eq_false_2.
Qed.

(** ** Reachable worlds

    What a program can do with vectors: create an empty one, copy one,
    call a mutating method on one within its precondition, assign one to
    another, swap two, and destroy one.  The element type and the
    allocator may fail at any point: the fault schedule can be set between
    any two steps. *)
Definition with_fault (s : state) (k : option nat) : state :=
  {| heap := heap s; throw_in := k; copies := copies s |}.

Inductive step (w : world) : world → Prop :=
  | step_default :
      step w {| st := st w; objs := objs w ++ [default_vector] |}
  | step_copy i :
      step w (world_copy w i)
  | step_call i v l c :
      objs w !! i = Some v → rep (st w) v l → allowed c l →
      step w (world_call w i c)
  | step_assign i j :
      step w (world_assign w i j)
  | step_swap i j :
      step w (world_swap w i j)
  | step_destroy i :
      step w (world_destroy w i)
  | step_fault k :
      step w {| st := with_fault (st w) k; objs := objs w |}.

Definition initial : world :=
  {| st := {| heap := ∅; throw_in := None; copies := 0 |}; objs := [] |}.

Definition reachable (w : world) : Prop := rtc step initial w.

Lemma consistent_initial : consistent initial.
Proof. split; simpl; [by intros i v|]. intros p b. by rewrite lookup_empty. Qed.

Lemma rolled_back_consistent s os i this s' this' :
  consistent {| st := s; objs := os |} → os !! i = Some this →
  rolled_back s this s' this' →
  consistent {| st := s'; objs := <[i := this']> os |}.
Proof.
  intros Hc Hi (-> & Hh & _). rewrite list_insert_id by done. by eapply consistent_heap.
Qed.

Lemma release_as_transition s this l :
  rep s this l →
  transition s this (release_vector_ref s this) default_vector [].
Proof.
  intros Hrep. destruct (is_small_vector_ this) eqn:Hs.
  - rewrite release_vector_ref_small by done. apply in_small; [done..|apply rep_default].
  - apply to_small; [done..|apply rep_default].
Qed.

Lemma step_consistent w w' : 0 < SMALL_SIZE → consistent w → step w w' → consistent w'.
Proof.
  intros HN Hc Hstep. destruct w as [s os].
  destruct Hstep as [|i|i v l c Hi Hrep Hal|i j|i j|i|k];
    unfold world_copy, world_call, world_assign, world_swap, world_destroy; simpl in *.
  - eapply consistent_add_small; [done|apply rep_default|done].
  - destruct (os !! i) as [v|] eqn:Hi; [|done].
    destruct (proj1 Hc i v Hi) as [l Hrep].
    pose proof (copy_construct_spec s v l Hrep) as H.
    destruct (copy_construct s v) as [s' v'|s' []].
    + destruct H as (Hrep' & _ & Hptr & _ & H). destruct (is_small_vector_ v) eqn:Hs.
      * destruct H as [Hh _]. eapply consistent_add_small.
        -- by eapply consistent_heap.
        -- done.
        -- unfold const_data_ptr in Hptr. rewrite Hs in Hptr.
           destruct (is_small_vector_ v'); [done|].
           by destruct (get_dynamic_data v').
      * destruct H as [-> ->]. eapply consistent_share; eauto.
        -- intros q. by rewrite owners_app, owners_cons, Nat.add_0_r.
        -- intros k v' [Hk|[_ Hk]]%lookup_app_Some; [eauto|].
           apply list_lookup_singleton_Some in Hk as [_ <-]. by left.
    + destruct H as (_ & Hh & _). by eapply consistent_heap.
  - rewrite Hi. destruct (run_transition c s v l HN Hrep Hal) as [l' H].
    destruct (run c s v) as [s' [v' []]|s' v']; by eapply transition_consistent.
  - destruct (os !! i) as [vi|] eqn:Hi; [|done].
    destruct (os !! j) as [vj|] eqn:Hj; [|done].
    destruct (same_storage i j vi vj) eqn:Hstor; [done|].
    assert (Hij : i ≠ j).
    { intros ->. assert (vi = vj) as -> by congruence. by rewrite same_storage_self in Hstor. }
    destruct (proj1 Hc i vi Hi) as [li Hrepi]. destruct (proj1 Hc j vj Hj) as [lj Hrepj].
    pose proof (assign_spec s vi vj li lj Hrepi Hrepj) as H.
    destruct (assign s vi vj) as [s' [vi' []]|s' vi'].
    + destruct H as (Hrep' & _ & _ & [(Hsj & Hsi' & Hh)|[(_ & -> & ->)|(_ & -> & p & Hst & Hsj & Hh & _)]]).
      * eapply (transition_consistent s os i vi li s' vi' lj); [done..|].
        destruct (is_small_vector_ vi) eqn:Hsi.
        -- rewrite release_vector_ref_small in Hh by done. by apply in_small.
        -- by apply to_small.
      * by rewrite list_insert_id.
      * pose proof (transition_consistent s os i vi li _ _ _ Hc Hi Hrepi
                      (release_as_transition s vi li Hrepi)) as Hc1.
        eapply consistent_heap; [|eapply (consistent_share _ _ (<[i := vj]> os) j vj Hc1)].
        -- destruct vj as [nj smj uj]. simpl in *. subst. unfold add_vector_ref. by simp.
        -- by rewrite list_lookup_insert_ne.
        -- done.
        -- intros q. pose proof (owners_insert q os i vi default_vector Hi) as H1.
           pose proof (owners_insert q os i vi vj Hi) as H2.
           rewrite (count_own_small default_vector) in H1 by done. lia.
        -- intros k v Hk. destruct (decide (i = k)) as [->|Hne].
           ++ rewrite list_lookup_insert_eq in Hk by (by eapply lookup_lt_Some).
              left. congruence.
           ++ rewrite list_lookup_insert_ne in Hk by done. right. exists k.
              by rewrite list_lookup_insert_ne.
    + destruct H as (Hh & _ & [Hsame|(Hsi & Hsi' & _ & _ & l' & _ & Hrep')] & _).
      2:{ eapply (transition_consistent s os i vi li s' vi' l'); [done..|]. by apply in_small. }
      apply (consistent_heap s); [done|]. destruct Hc as [Hwf Hcount]. split; simpl in *.
      * intros k v Hk. destruct (decide (i = k)) as [->|Hne].
        -- rewrite list_lookup_insert_eq in Hk by (by eapply lookup_lt_Some).
           injection Hk as <-. exists li. by eapply same_state_rep.
        -- rewrite list_lookup_insert_ne in Hk by done. eauto.
      * intros q b Hq. pose proof (owners_insert q os i vi vi' Hi) as H1.
        rewrite (same_state_count _ _ _ q Hsame) in H1. rewrite (Hcount q b Hq). lia.
  - destruct (os !! i) as [vi|] eqn:Hi; [|done].
    destruct (os !! j) as [vj|] eqn:Hj; [|done].
    destruct (same_storage i j vi vj) eqn:Hstor; [done|].
    assert (Hij : i ≠ j).
    { intros ->. assert (vi = vj) as -> by congruence. by rewrite same_storage_self in Hstor. }
    destruct (proj1 Hc i vi Hi) as [li Hrepi]. destruct (proj1 Hc j vj Hj) as [lj Hrepj].
    pose proof (swap_spec s vi vj li lj Hrepi Hrepj) as H.
    assert (Hj' : ∀ v, <[i := v]> os !! j = Some vj) by (intros v; by rewrite list_lookup_insert_ne).
    destruct Hc as [Hwf Hcount].
    assert (Hgen : ∀ s' vi' vj' li' lj',
              heap s' = heap s → rep s' vi' li' → rep s' vj' lj' →
              (∀ q, count_own vi' q + count_own vj' q = count_own vi q + count_own vj q) →
              consistent {| st := s'; objs := <[j := vj']> (<[i := vi']> os) |}).
    { intros s' vi' vj' li' lj' Hh Hri Hrj Hco. split; simpl.
      - intros k v Hk. destruct (decide (j = k)) as [->|Hjk].
        + rewrite list_lookup_insert_eq in Hk.
          2:{ rewrite length_insert. by eapply lookup_lt_Some. }
          injection Hk as <-. by exists lj'.
        + rewrite list_lookup_insert_ne in Hk by done.
          destruct (decide (i = k)) as [->|Hik].
          * rewrite list_lookup_insert_eq in Hk by (by eapply lookup_lt_Some).
            injection Hk as <-. by exists li'.
          * rewrite list_lookup_insert_ne in Hk by done.
            destruct (Hwf k v Hk) as [l Hl]. exists l. by eapply rep_heap.
      - intros q b. rewrite Hh. intros Hq.
        pose proof (owners_insert q os i vi vi' Hi) as H1.
        pose proof (owners_insert q (<[i := vi']> os) j vj vj' (Hj' vi')) as H2.
        specialize (Hco q). rewrite (Hcount q b Hq). simpl. lia. }
    destruct (swap s vi vj) as [s' [vi' vj']|s' [vi' vj']].
    + destruct H as (Hh & _ & Hri & Hrj & Hpi & Hpj).
      eapply Hgen; eauto. intros q.
      rewrite (count_own_ptr _ _ q Hpi), (count_own_ptr _ _ q Hpj). lia.
    + destruct H as (Hh & _ & [[Hsi Hsj]|(Hs1 & Hs2 & _ & _ & Hs1' & Hs2' & _
                                           & la & lb & _ & _ & Hra & Hrb)]).
      2:{ eapply (Hgen s' vi' vj' la lb); eauto. intros q. by rewrite !count_own_small. }
      eapply (Hgen s' vi' vj' li lj); eauto.
      * eapply rep_heap; [done|]. by eapply same_state_rep.
      * eapply rep_heap; [done|]. by eapply same_state_rep.
      * intros q. by rewrite (same_state_count _ _ _ q Hsi), (same_state_count _ _ _ q Hsj).
  - destruct (os !! i) as [v|] eqn:Hi; [|done].
    destruct (proj1 Hc i v Hi) as [l Hrep].
    destruct (is_small_vector_ v) eqn:Hs.
    + eapply consistent_heap; [by apply destructor_small|].
      by eapply consistent_delete_small.
    + pose proof (transition_consistent s os i v l _ _ _ Hc Hi Hrep
                    (release_as_transition s v l Hrep)) as Hc1.
      replace (destructor s v) with (release_vector_ref s v)
        by (unfold destructor; by rewrite Hs).
      replace (delete i os) with (delete i (<[i := default_vector]> os)).
      2:{ rewrite !delete_take_drop, take_insert_ge, drop_insert_lt by lia. done. }
      eapply (consistent_delete_small _ _ i default_vector); [done| |done].
      apply list_lookup_insert_eq. by eapply lookup_lt_Some.
  - by apply (consistent_heap s).
Qed.

Lemma reachable_consistent w : 0 < SMALL_SIZE → reachable w → consistent w.
Proof.
  intros HN Hreach. unfold reachable in Hreach. revert w Hreach.
  apply (rtc_ind_r (λ w, consistent w)).
  - apply consistent_initial.
  - intros w1 w2 _ Hstep IH. by eapply step_consistent.
Qed.

(** ** Bystanders

    In a consistent world, a transition of one object leaves every other
    object as it was: same record, same elements. *)
Lemma transition_bystander s os i j this l vj lj s' this' l' :
  consistent {| st := s; objs := os |} → i ≠ j →
  os !! i = Some this → os !! j = Some vj →
  rep s this l → rep s vj lj → transition s this s' this' l' →
  rep s' vj lj.
Proof.
  intros [Hwf Hcount] Hij Hi Hj Hrep Hrepj Htr. simpl in *.
  eapply rep_kept; [done|]. intros p b Hv Hp.
  destruct (transition_old_block _ _ _ _ _ _ p b Hrep Htr Hp) as [Hno Hyes].
  destruct (decide (owns this p)) as [Hthis|Hthis].
  - assert (2 ≤ refs_count b) as Hb.
    { rewrite (Hcount p b Hp). by eapply (owners_two p os i j). }
    destruct (Hyes Hthis) as [(_ & d & Hp' & Hd)|(_ & Hp')].
    + exists (refs_count b). split; [lia|]. rewrite Hp', Hd by lia. by destruct b.
    + exists (refs_count b - 1). split; [lia|]. rewrite Hp'.
      by destruct (Nat.eqb_spec (refs_count b) 1); [lia|].
  - destruct (Hno Hthis) as [Hp' _]. exists (refs_count b).
    split; [|by destruct b].
    destruct (rep_owns _ _ _ _ Hrepj Hv) as (b0 & Hb0 & ?). congruence.
Qed.

Lemma elements_rep w i v l : objs w !! i = Some v → rep (st w) v l → elements w i = Some <$> l.
Proof. intros Hi Hrep. unfold elements. rewrite Hi. by apply rep_contents. Qed.

(** A call on one object of a consistent world does not change what can
    be read from any other object. *)
Lemma world_call_frame w i j v l c :
  0 < SMALL_SIZE → consistent w → i ≠ j →
  objs w !! i = Some v → rep (st w) v l → allowed c l →
  elements (world_call w i c) j = elements w j.
Proof.
  intros HN Hc Hij Hi Hrep Hal. destruct w as [s os]. simpl in *.
  unfold world_call, elements. simpl. rewrite Hi.
  destruct (run_transition c s v l HN Hrep Hal) as [l' H].
  destruct (run c s v) as [s' [v' []]|s' v']; simpl;
    rewrite list_lookup_insert_ne by done;
    (destruct (os !! j) as [vj|] eqn:Hj; [|done]);
    destruct (proj1 Hc j vj Hj) as [lj Hrepj]; simpl in Hrepj;
    rewrite (rep_contents _ _ _ Hrepj); apply rep_contents;
    by eapply (transition_bystander s os i j).
Qed.

(** * Main theorems *)

Lemma reachable_step w w' : reachable w → step w w' → reachable w'.
Proof. intros H Hs. by eapply rtc_r. Qed.

(** With no fault scheduled [insert] and [erase] return. *)
Lemma insert_returns s this l pos x :
  0 < SMALL_SIZE → rep s this l → pos ≤ length l → throw_in s = None →
  ∃ s' this' it, insert s this pos x = Returns s' (this', it).
Proof.
  intros HN Hrep Hpos Hs. pose proof (insert_spec s this l pos x Hrep Hpos HN) as H.
  destruct (insert s this pos x) as [s' [this' it]|s' this']; [eauto|].
  by destruct H as [(_ & _ & ?)|(_ & _ & _ & ? & _)].
Qed.

Lemma erase_returns s this l first last :
  rep s this l → first ≤ last → last ≤ length l → throw_in s = None →
  ∃ s' this' it, erase s this first last = Returns s' (this', it).
Proof.
  intros Hrep H1 H2 Hs. pose proof (erase_spec s this l first last Hrep H1 H2) as H.
  destruct (erase s this first last) as [s' [this' it]|s' this']; [eauto|].
  by destruct H as [(_ & _ & ?)|(_ & _ & ? & _)].
Qed.

(** C1. Copy-on-write is invisible to callers: in a reachable world, let
    [a] hold more than [SMALL_SIZE] elements and let [b = a] be executed.
    Then [a] and [b] both read as [a] did, and whatever mutating method is
    then called on [b], within its precondition, [a] still reads the same;
    whatever method is called on [a], [b] still reads the same.  This holds
    whether the call returns or throws. *)
Theorem copy_on_write_invisible w a b va la c :
  0 < SMALL_SIZE → reachable w → a ≠ b →
  objs w !! a = Some va → rep (st w) va la → SMALL_SIZE < length la →
  is_Some (objs w !! b) → allowed c la →
  elements (world_assign w b a) a = elements w a
  ∧ elements (world_assign w b a) b = elements w a
  ∧ elements (world_call (world_assign w b a) b c) a = elements w a
  ∧ elements (world_call (world_assign w b a) a c) b = elements w a.
Proof.
  intros HN Hreach Hab Ha Hrepa Hla [vb Hb] Hal.
  pose proof (reachable_consistent w HN Hreach) as Hc.
  assert (Hc1 : consistent (world_assign w b a)).
  { apply (reachable_consistent _ HN). eapply reachable_step; [done|apply step_assign]. }
  rewrite (elements_rep w a va la Ha Hrepa).
  assert (H1 : ∃ vb1, objs (world_assign w b a) !! a = Some va
                 ∧ objs (world_assign w b a) !! b = Some vb1
                 ∧ rep (st (world_assign w b a)) va la
                 ∧ rep (st (world_assign w b a)) vb1 la).
  { destruct w as [s os]. simpl in *. unfold world_assign. simpl. rewrite Ha, Hb.
    rewrite same_storage_distinct by done.
    destruct (proj1 Hc b vb Hb) as [lb Hrepb]. simpl in Hrepb.
    pose proof (assign_spec s vb va lb la Hrepb Hrepa) as H.
    destruct (is_same_vector vb va) eqn:Hsame.
    - exists vb. split_and!; try done.
      destruct (assign s vb va) as [s' [vb' []]|s' vb'].
      + destruct H as (Hvb' & _ & _ & [(Hs & _)|[(_ & -> & ->)|(Hf & _)]]); [|done|congruence].
        destruct Hrepa; [lia|done].
      + destruct H as (_ & _ & _ & Hs). destruct Hrepa; [lia|done].
    - destruct (assign s vb va) as [s' [vb' []]|s' vb']; simpl.
      + destruct H as (Hvb' & Hva' & _). exists vb'.
        rewrite list_lookup_insert_ne by done.
        rewrite list_lookup_insert_eq by (by eapply lookup_lt_Some). done.
      + destruct H as (_ & _ & _ & Hs). destruct Hrepa; [lia|done]. }
  destruct H1 as (vb1 & Ha1 & Hb1 & Hrepa1 & Hrepb1).
  split_and!.
  - by eapply elements_rep.
  - by eapply elements_rep.
  - rewrite (world_call_frame _ b a vb1 la c) by done. by eapply elements_rep.
  - rewrite (world_call_frame _ a b va la c) by done. by eapply elements_rep.
Qed.

(** X28. Size/capacity invariant for a class instantiated with a positive
    [SMALL_SIZE]: every object of a reachable world has
    [size() <= capacity()] and [capacity() >= SMALL_SIZE]; its capacity is
    [SMALL_SIZE] when it is small and the capacity of the block it points to
    when it is dynamic.  Every public operation preserves this, whether it
    returns or throws: the same holds of every object after any further
    step. *)
Theorem size_capacity_invariant w :
  0 < SMALL_SIZE → reachable w →
  let holds (w : world) :=
    ∀ i v, objs w !! i = Some v →
      size v ≤ capacity (st w) v ∧ SMALL_SIZE ≤ capacity (st w) v
      ∧ (if is_small_vector_ v then capacity (st w) v = SMALL_SIZE
         else ∃ p b, store_ v = dynamic_data (Some p) ∧ heap (st w) !! p = Some b
                     ∧ capacity (st w) v = capacity_ b) in
  holds w ∧ ∀ w', step w w' → holds w'.
Proof.
  intros HN Hreach holds.
  assert (Hall : ∀ w, reachable w → holds w).
  { clear w Hreach. intros w Hreach i v Hi.
    destruct (proj1 (reachable_consistent w HN Hreach) i v Hi) as [l Hrep].
    pose proof (rep_capacity _ _ _ Hrep) as [? ?]. rewrite (rep_size _ _ _ Hrep).
    split_and!; [done..|].
    destruct Hrep as [|p cap refs l Hp ? ? ?]; simp; [done|].
    exists p. eexists. rewrite Hp. by split_and!. }
  split; [by apply Hall|]. intros w' Hstep. apply Hall. by eapply reachable_step.
Qed.

(** X29. Strict capacity invariant for the dynamic mode of a class
    instantiated with a positive [SMALL_SIZE]: a dynamic object of a
    reachable world has a capacity strictly above [SMALL_SIZE]. *)
Theorem dynamic_capacity_above_small w i v :
  0 < SMALL_SIZE → reachable w → objs w !! i = Some v →
  is_small_vector_ v = false → SMALL_SIZE < capacity (st w) v.
Proof.
  intros HN Hreach Hi Hdyn.
  destruct (proj1 (reachable_consistent w HN Hreach) i v Hi) as [l Hrep].
  destruct Hrep as [|p cap refs l Hp ? ? ?]; simp; [done|]. by rewrite Hp.
Qed.

(** The state a caller finds after a method has thrown: the vector object
    and the heap are what they were, and so is all that can be observed. *)
Definition restored (s : state) (this : socow_vector) (s' : state) (this' : socow_vector) : Prop :=
  this' = this ∧ heap s' = heap s
  ∧ size this' = size this ∧ contents s' this' = contents s this
  ∧ is_small_vector_ this' = is_small_vector_ this
  ∧ capacity s' this' = capacity s this.

Lemma rolled_back_restored s this s' this' :
  rolled_back s this s' this' → restored s this s' this'.
Proof.
  intros (-> & Hh & _). unfold restored, contents, const_data, capacity, buffer_at.
  rewrite Hh. by split_and!.
Qed.

(** The state a caller finds when an exchange of elements has thrown in
    the middle of a method that works in place: the vector is on the
    storage it had, with the capacity it had, and is well formed with [n]
    elements; the heap holds the same blocks and no block of another
    vector has changed. *)
Definition shuffled (s : state) (this : socow_vector) (s' : state) (this' : socow_vector)
    (n : nat) : Prop :=
  (∃ l', length l' = n ∧ rep s' this' l')
  ∧ is_small_vector_ this' = is_small_vector_ this
  ∧ const_data_ptr this' = const_data_ptr this
  ∧ capacity s' this' = capacity s this
  ∧ dom (heap s') = dom (heap s)
  ∧ ∀ q, ¬ owns this q → heap s' !! q = heap s !! q.

Lemma disturbed_shuffled s this l s' this' n :
  rep s this l → disturbed s this s' this' n →
  throw_in s ≠ None ∧ is_only_vector_ref s this = true ∧ shuffled s this s' this' n.
Proof.
  intros Hrep (Ht & Honly & Hptr & Hcap & l' & Hl' & Htr).
  split; [done|]. split; [done|]. unfold shuffled.
  pose proof (transition_rep _ _ _ _ _ Htr) as Hrep'.
  assert (Hsm : is_small_vector_ this' = is_small_vector_ this).
  { revert Hptr. unfold const_data_ptr.
    destruct (is_small_vector_ this), (is_small_vector_ this'),
      (get_dynamic_data this), (get_dynamic_data this'); done. }
  split; [by exists l'|]. split; [done|]. split; [done|]. split; [done|].
  destruct Htr as [Hs Hs' Hh _|p cap d Hs Hst Hp HN Hlen Hh ->|Hs Hs' Hh _
                  |cap' Hh -> HN Hlen|Hh -> _].
  - by rewrite Hh.
  - rewrite Hh. split.
    + apply dom_insert_lookup_L. by rewrite Hp.
    + intros q Hq. rewrite lookup_insert_ne; [done|]. intros <-. apply Hq.
      unfold owns, const_data_ptr, get_dynamic_data. by rewrite Hs, Hst.
  - congruence.
  - exfalso. destruct (is_small_vector_ this) eqn:Hs; [done|].
    apply (rep_not_fresh _ _ _ Hrep Hs). revert Hptr.
    unfold const_data_ptr, get_dynamic_data. rewrite Hs. simpl.
    destruct (store_ this) as [[q|]|]; simpl; congruence.
  - by rewrite Hh.
Qed.

(** C2, as amended.  Strong exception guarantee for [reserve] (asked for a
    capacity whose allocation size is representable), and for [insert] and
    [erase] on every path that copies the elements into a new block or
    moves none: when the copy constructor of the element type or the
    allocation throws there, the exception reaches the caller and the
    vector is exactly what it was (same object state, hence same size,
    elements, mode and capacity), and the heap is exactly what it was: the
    block that the call had allocated is gone, with the elements already
    placed in it.  When [insert] or [erase] works in place, on a vector that
    alone owns its storage and has room, the elements are moved by
    exchanges that copy them, and an exception out of such an exchange
    reaches the caller with nothing undone: the vector is left well formed
    on the same storage, with the same capacity, holding one element more
    ([insert]; the new element has been constructed at the end) or as many
    as before ([erase]; nothing has been popped), some of them moved.  An
    exception comes from a scheduled fault only, and a fault that hits the
    construction of the inserted element leaves the vector as it was. *)
Theorem strong_exception_guarantee sizeof_T s this l :
  0 < SMALL_SIZE → rep s this l →
  (∀ pos x s' this',
     pos ≤ length l → insert s this pos x = Throws s' this' →
     throw_in s ≠ None
     ∧ (restored s this s' this'
        ∨ (is_only_vector_ref s this = true ∧ size this ≠ capacity s this
           ∧ pos < length l ∧ throw_in s ≠ Some 0
           ∧ shuffled s this s' this' (S (length l)))))
  ∧ (∀ first last s' this',
       first ≤ last → last ≤ length l →
       erase s this first last = Throws s' this' →
       throw_in s ≠ None
       ∧ (restored s this s' this'
          ∨ (is_only_vector_ref s this = true ∧ first < last ∧ last < length l
             ∧ shuffled s this s' this' (length l))))
  ∧ (∀ new_capacity s' this',
       representable sizeof_T new_capacity →
       reserve s this new_capacity = Throws s' this' →
       throw_in s ≠ None ∧ restored s this s' this').
Proof.
  intros HN Hrep. split_and!.
  - intros pos x s' this' Hpos Heq.
    pose proof (insert_spec s this l pos x Hrep Hpos HN) as H. rewrite Heq in H.
    destruct H as [H|(Hlt & Hfull & Hfirst & Hd)].
    + split; [by destruct H as (_ & _ & ?)|]. left. by apply rolled_back_restored.
    + destruct (disturbed_shuffled _ _ _ _ _ _ Hrep Hd) as (Ht & Honly & Hsh).
      split; [done|]. right. by split_and!.
  - intros first lst s' this' H1 H2 Heq.
    pose proof (erase_spec s this l first lst Hrep H1 H2) as H. rewrite Heq in H.
    destruct H as [H|(Hlt1 & Hlt2 & Hd)].
    + split; [by destruct H as (_ & _ & ?)|]. left. by apply rolled_back_restored.
    + destruct (disturbed_shuffled _ _ _ _ _ _ Hrep Hd) as (Ht & Honly & Hsh).
      split; [done|]. right. by split_and!.
  - intros k s' this' _ Heq.
    pose proof (reserve_spec s this l k Hrep) as H. rewrite Heq in H.
    split; [by destruct H as (_ & _ & ?)|]. by apply rolled_back_restored.
Qed.

(** C7.  The round trip [v.reserve(k); v.shrink_to_fit()] is asked for
    every [k], but [reserve] hands [k] to [allocate_dynamic_buffer], whose
    byte count is computed in [size_t] and wraps: for [k = 2^62] and
    elements of 4 bytes the count is [sizeof(dynamic_buffer)], the size of
    the header alone, so that the block has room for no element while its
    [capacity_] says [2^62].  No capacity from [2^62 - 4] on is
    representable for such elements. *)
Theorem reserve_request_wraps :
  allocation_size 4 (2 ^ 62) = sizeof_dynamic_buffer
  ∧ ¬ representable 4 (N.to_nat (2 ^ 62))
  ∧ ∀ k : nat, (2 ^ 62 - 4 ≤ N.of_nat k)%N → ¬ representable 4 k.
Proof.
  split; [by vm_compute|]. split.
  - unfold representable. rewrite N2Nat.id. by vm_compute.
  - intros k Hk. unfold representable, sizeof_dynamic_buffer. lia.
Qed.

(** X30. Round trip of capacity control: [v.reserve(k)], for a [k] whose
    allocation size is representable, followed by [v.shrink_to_fit()]
    leaves a capacity of [max(size, SMALL_SIZE)] and the same size and
    elements; with no fault scheduled both calls return. *)
Theorem reserve_shrink_round_trip sizeof_T s v l k :
  rep s v l → representable sizeof_T k →
  (∀ s1 v1 s2 v2,
     reserve s v k = Returns s1 (v1, ()) → shrink_to_fit s1 v1 = Returns s2 (v2, ()) →
     capacity s2 v2 = size v2 `max` SMALL_SIZE
     ∧ size v2 = size v ∧ contents s2 v2 = contents s v)
  ∧ (throw_in s = None →
     ∃ s1 v1 s2 v2,
       reserve s v k = Returns s1 (v1, ()) ∧ shrink_to_fit s1 v1 = Returns s2 (v2, ())).
Proof.
  intros Hrep _. pose proof (reserve_spec s v l k Hrep) as H1. split.
  - intros s1 v1 s2 v2 Heq1 Heq2. rewrite Heq1 in H1. destruct H1 as (Htr1 & _ & _).
    pose proof (transition_rep _ _ _ _ _ Htr1) as Hrep1.
    pose proof (shrink_to_fit_spec s1 v1 l Hrep1) as H2. rewrite Heq2 in H2.
    destruct H2 as (Htr2 & Hcap & _).
    pose proof (transition_rep _ _ _ _ _ Htr2) as Hrep2.
    rewrite (rep_size _ _ _ Hrep2), (rep_size _ _ _ Hrep).
    by rewrite (rep_contents _ _ _ Hrep2), (rep_contents _ _ _ Hrep).
  - intros Hs. destruct (reserve s v k) as [s1 [v1 []]|s1 v1].
    2:{ by destruct H1 as (_ & _ & ?). }
    destruct H1 as (Htr1 & _ & Ht1).
    pose proof (shrink_to_fit_spec s1 v1 l (transition_rep _ _ _ _ _ Htr1)) as H2.
    destruct (shrink_to_fit s1 v1) as [s2 [v2 []]|s2 v2] eqn:Heq2.
    + exists s1, v1, s2, v2. by split.
    + destruct H2 as (_ & _ & H2). by specialize (Ht1 Hs).
Qed.

(** C8. Doubling growth policy: [insert] and [push_back] on a vector
    whose size equals its capacity put the elements into a newly allocated
    block of exactly twice the old capacity; growing out of a full inline
    storage this is a block of capacity [2 * SMALL_SIZE].  With no fault
    scheduled the calls return. *)
Theorem doubling_growth s this l pos x :
  0 < SMALL_SIZE → rep s this l → pos ≤ length l → size this = capacity s this →
  let grown (s' : state) (this' : socow_vector) :=
    capacity s' this' = 2 * capacity s this
    ∧ is_small_vector_ this' = false
    ∧ heap s !! fresh (dom (heap s)) = None
    ∧ const_data_ptr this' = heap_ptr (fresh (dom (heap s)))
    ∧ (is_small_vector_ this = true → capacity s' this' = 2 * SMALL_SIZE) in
  (∀ s' this' it, insert s this pos x = Returns s' (this', it) → grown s' this')
  ∧ (∀ s' this', push_back s this x = Returns s' (this', ()) → grown s' this')
  ∧ (throw_in s = None →
     (∃ s' this' it, insert s this pos x = Returns s' (this', it))
     ∧ (∃ s' this', push_back s this x = Returns s' (this', ()))).
Proof.
  intros HN Hrep Hpos Hfull grown.
  assert (Hgrown : ∀ s' this',
            capacity s' this' = 2 * capacity s this
            ∧ const_data_ptr this' = heap_ptr (fresh (dom (heap s))) → grown s' this').
  { intros s' this' [Hcap Hptr]. unfold grown. split_and!; try done.
    - unfold const_data_ptr in Hptr. by destruct (is_small_vector_ this').
    - apply fresh_heap.
    - intros Hs. rewrite Hcap. unfold capacity. by rewrite Hs. }
  pose proof (insert_spec s this l pos x Hrep Hpos HN) as Hi.
  pose proof (push_back_spec s this l x Hrep HN) as Hp.
  apply Nat.eqb_eq in Hfull. rewrite Hfull in Hi, Hp.
  split_and!.
  - intros s' this' it Heq. rewrite Heq in Hi. apply Hgrown. by destruct Hi as (_ & _ & ? & _).
  - intros s' this' Heq. rewrite Heq in Hp. apply Hgrown. by destruct Hp as (_ & ? & _).
  - intros Hs. split.
    + by eapply insert_returns.
    + destruct (push_back s this x) as [s' [this' []]|s' this']; [eauto|].
      by destruct Hp as (_ & _ & ?).
Qed.

(** C10. Return values of positional mutation: [insert(pos, value)]
    returns the iterator at offset [pos - begin()] from the start of the
    storage the vector has after the call, and that slot holds the new
    element; [erase(first, last)] returns the iterator at offset
    [first - begin()] of the storage after the call, where the element that
    followed the erased range now is, or which is [end()] when nothing
    followed.  With no fault scheduled both calls return. *)
Theorem positional_return_values s this l :
  0 < SMALL_SIZE → rep s this l →
  (∀ pos x s' this' it,
     pos ≤ length l → insert s this pos x = Returns s' (this', it) →
     it = {| base := const_data_ptr this'; offset := pos |}
     ∧ at_const s' this' pos = Some x
     ∧ contents s' this' = Some <$> (take pos l ++ x :: drop pos l))
  ∧ (∀ first last s' this' it,
       first ≤ last → last ≤ length l →
       erase s this first last = Returns s' (this', it) →
       it = {| base := const_data_ptr this'; offset := first |}
       ∧ contents s' this' = Some <$> (take first l ++ drop last l)
       ∧ (last < length l → at_const s' this' first = at_const s this last
                            ∧ is_Some (at_const s' this' first))
       ∧ (last = length l → offset it = size this'))
  ∧ (throw_in s = None →
     (∀ pos x, pos ≤ length l → ∃ s' this' it, insert s this pos x = Returns s' (this', it))
     ∧ (∀ first last, first ≤ last → last ≤ length l →
          ∃ s' this' it, erase s this first last = Returns s' (this', it))).
Proof.
  intros HN Hrep. split; [|split].
  3:{ intros Hs. split.
      - intros pos x Hpos. by eapply insert_returns.
      - intros first lst H1 H2. by eapply erase_returns. }
  - intros pos x s' this' it Hpos Heq.
    pose proof (insert_spec s this l pos x Hrep Hpos HN) as H. rewrite Heq in H.
    destruct H as (Htr & -> & _). pose proof (transition_rep _ _ _ _ _ Htr) as Hrep'.
    split_and!; [done| |by apply rep_contents].
    unfold at_const. rewrite (rep_const_data _ _ _ Hrep'). apply slot_at_slots_of.
    rewrite lookup_app_r by (rewrite length_take; lia).
    by replace (pos - length (take pos l)) with 0 by (rewrite length_take; lia).
  - intros first lst s' this' it H1 H2 Heq.
    pose proof (erase_spec s this l first lst Hrep H1 H2) as H. rewrite Heq in H.
    destruct H as (Htr & -> & _). pose proof (transition_rep _ _ _ _ _ Htr) as Hrep'.
    split_and!; [done|by apply rep_contents| |].
    + intros Hlt. destruct (lookup_lt_is_Some_2 l lst Hlt) as [y Hy].
      unfold at_const. rewrite (rep_const_data _ _ _ Hrep'), (rep_const_data _ _ _ Hrep).
      rewrite (slot_at_slots_of l _ lst y Hy).
      rewrite (slot_at_slots_of _ _ first y); [done|].
      rewrite lookup_app_r by (rewrite length_take; lia).
      rewrite lookup_drop, length_take, <- Hy. f_equal. lia.
    + intros ->. simpl. rewrite (rep_size _ _ _ Hrep').
      rewrite length_app, length_take, drop_all. simpl. lia.
Qed.

(** C4. Copy construction: from a dynamic source the new vector adopts
    the very same block, whose count goes up by one; no element is copied
    and the constructor returns whatever the fault schedule says.  From a
    small source the elements are copied one by one into the inline
    storage of the new vector. *)
Theorem copy_construction s other l :
  rep s other l →
  (is_small_vector_ other = false →
     ∃ p b s' this',
       copy_construct s other = Returns s' this'
       ∧ const_data_ptr other = heap_ptr p ∧ const_data_ptr this' = heap_ptr p
       ∧ heap s !! p = Some b
       ∧ heap s' = <[p := set_refs b (S (refs_count b))]> (heap s)
       ∧ copies s' = copies s
       ∧ contents s' this' = contents s other)
  ∧ (is_small_vector_ other = true →
       match copy_construct s other with
       | Returns s' this' =>
           is_small_vector_ this' = true ∧ heap s' = heap s
           ∧ contents s' this' = contents s other
           ∧ copies s' = copies s + size other
       | Throws s' _ => heap s' = heap s ∧ throw_in s ≠ None
       end).
Proof.
  intros Hrep. pose proof (copy_construct_spec s other l Hrep) as H. split.
  - intros Hdyn. rewrite Hdyn in H.
    destruct (copy_construct s other) as [s' this'|s' []]; [|destruct H; congruence].
    destruct H as (Hrep' & _ & _ & _ & -> & ->).
    destruct Hrep as [|p cap refs l Hp ? ? ?] eqn:E; [done|]. clear E.
    eexists p, _, _, _. split; [done|]. split_and!; try done.
    + by rewrite (add_vector_ref_heap _ _ _ _ Hp).
    + rewrite (rep_contents _ _ _ Hrep'). symmetry. apply rep_contents. by eapply rep_dynamic.
  - intros Hsm. rewrite Hsm in H.
    destruct (copy_construct s other) as [s' this'|s' []]; [|by destruct H as (_ & ? & ?)].
    destruct H as (Hrep' & _ & Hptr & _ & Hh & Hcopies).
    split_and!; try done.
    + unfold const_data_ptr in Hptr. rewrite Hsm in Hptr.
      destruct (is_small_vector_ this'); [done|]. by destruct (get_dynamic_data this').
    + by rewrite (rep_contents _ _ _ Hrep'), (rep_contents _ _ _ Hrep).
    + by rewrite (rep_size _ _ _ Hrep).
Qed.


(** C6, as amended.  [swap] exchanges the state of two vectors: each ends
    up with the other's elements, mode and capacity, and the heap is
    untouched; when neither is small this is an exchange of the block
    pointers and sizes, in which nothing is copied.  With no fault
    scheduled [swap] returns.  It throws only on a scheduled fault and only
    if one of the two is small.  When the fault hits the relocation, the
    copy of elements into the raw inline slots of the other vector, both
    vectors are in the state they were in.  When it hits the exchange of the
    common prefix of two small vectors, which comes after the relocation
    and copies the elements it exchanges, nothing is undone: the two
    vectors are left well formed with their sizes exchanged.  A swap of two
    vectors on the same storage changes nothing, and a vector swapped with
    itself is such a swap. *)
Theorem swap_contract s this other l1 l2 :
  rep s this l1 → rep s other l2 →
  match swap s this other with
  | Returns s' (this', other') =>
      heap s' = heap s ∧ rep s' this' l2 ∧ rep s' other' l1
      ∧ is_small_vector_ this' = is_small_vector_ other
      ∧ is_small_vector_ other' = is_small_vector_ this
      ∧ capacity s' this' = capacity s other ∧ capacity s' other' = capacity s this
      ∧ (is_small_vector_ this = false → is_small_vector_ other = false →
         s' = s ∧ this' = other ∧ other' = this)
      ∧ (is_same_vector this other = true → s' = s ∧ this' = this ∧ other' = other)
  | Throws s' (this', other') =>
      throw_in s ≠ None ∧ heap s' = heap s
      ∧ (is_small_vector_ this = true ∨ is_small_vector_ other = true)
      ∧ ((same_state s this this' ∧ same_state s other other')
         ∨ (is_small_vector_ this = true ∧ is_small_vector_ other = true
            ∧ l1 ≠ [] ∧ l2 ≠ []
            ∧ is_small_vector_ this' = true ∧ is_small_vector_ other' = true
            ∧ (∀ k, throw_in s = Some k →
                 length l1 `max` length l2 - length l1 `min` length l2 ≤ k)
            ∧ ∃ l1' l2', length l1' = length l2 ∧ length l2' = length l1
                ∧ rep s' this' l1' ∧ rep s' other' l2'))
  end
  ∧ (throw_in s = None → ∃ s' this' other', swap s this other = Returns s' (this', other'))
  ∧ ∀ w i, world_swap w i i = w.
Proof.
  intros Hrep1 Hrep2.
  pose proof (swap_spec s this other l1 l2 Hrep1 Hrep2) as H.
  split; [|split].
  2:{ intros Hs. destruct (swap s this other) as [s' [this' other']|s' [this' other']]; [eauto|].
      by destruct H as (_ & ? & _). }
  2:{ intros w i. unfold world_swap. destruct (objs w !! i); [|done].
      by rewrite same_storage_self. }
  assert (Hsmall : ∀ v v', const_data_ptr v' = const_data_ptr v →
            is_small_vector_ v' = is_small_vector_ v).
  { intros v v'. unfold const_data_ptr.
    destruct (is_small_vector_ v), (is_small_vector_ v'),
      (get_dynamic_data v), (get_dynamic_data v'); done. }
  assert (Hcap : ∀ s' v v', heap s' = heap s → const_data_ptr v' = const_data_ptr v →
            (∃ l, rep s v l) → (∃ l, rep s' v' l) → capacity s' v' = capacity s v).
  { intros s' v v' Hh Hptr [l Hl] [l' Hl'].
    destruct Hl as [|p cap refs l Hp ? ? ?], Hl' as [|p' cap' refs' l' Hp' ? ? ?];
      simp; try done.
    injection Hptr as ->. by rewrite <- Hh, Hp'. }
  assert (Hdyn : is_small_vector_ this = false → is_small_vector_ other = false →
            swap s this other
            = Returns s (set_size (set_store this (dynamic_data (get_dynamic_data other)))
                           (size other),
                         set_size (set_store other (dynamic_data (get_dynamic_data this)))
                           (size this))
              ∨ (swap s this other = Returns s (this, other) ∧ this = other)).
  { intros H1 H2.
    destruct Hrep1 as [|p1 c1 r1 l1 Hp1 ? ? ?] eqn:E1; [done|].
    destruct Hrep2 as [|p2 c2 r2 l2 Hp2 ? ? ?] eqn:E2; [done|]. clear E1 E2.
    unfold swap, is_same_vector. simp. case_bool_decide as Hpp; [|by left].
    right. split; [done|]. subst p2.
    assert (l1 = l2) as -> by (eapply rep_same_block; by eapply rep_dynamic). done. }
  destruct (swap s this other) as [s' [this' other']|s' [this' other']] eqn:Heq.
  - destruct H as (Hh & _ & Hr1 & Hr2 & Hp1 & Hp2).
    split_and!; try done; try (by apply Hsmall); try (apply Hcap; eauto).
    + intros H1 H2. destruct (Hdyn H1 H2) as [Hd|[Hd Hsame]].
      * injection Hd as -> -> ->.
        destruct Hrep1 as [|p1 c1 r1 l1 Hq1 ? ? ?]; [done|].
        by destruct Hrep2 as [|p2 c2 r2 l2 Hq2 ? ? ?].
      * injection Hd as -> -> ->. by rewrite Hsame at 2.
    + intros Hsame. unfold swap in Heq. rewrite Hsame in Heq. by injection Heq as -> -> ->.
  - destruct H as (Hh & Ht & Hs). split_and!; try done.
    destruct (is_small_vector_ this) eqn:H1; [by left|].
    destruct (is_small_vector_ other) eqn:H2; [by right|].
    destruct (Hdyn eq_refl eq_refl) as [Hd|[Hd _]]; congruence.
Qed.

Lemma reachable_push_back w i x :
  0 < SMALL_SIZE → reachable w → is_Some (objs w !! i) →
  reachable (world_call w i (call_push_back x)).
Proof.
  intros HN Hreach [v Hi].
  destruct (proj1 (reachable_consistent w HN Hreach) i v Hi) as [l Hrep].
  eapply reachable_step; [done|]. by eapply (step_call w i v l).
Qed.

(** * Further properties of the methods *)

(** A vector whose elements have changed is the only owner of its
    storage. *)
Lemma transition_only_ref s this l s' this' l' :
  rep s this l → transition s this s' this' l' → l' ≠ l →
  is_only_vector_ref s' this' = true.
Proof.
  intros Hrep Htr Hne.
  destruct Htr as [Hs Hs' Hh Hrep'|p cap d Hs Hst Hp HN Hl' Hh ->|Hs Hs' Hh Hrep'
                  |cap' Hh -> HN Hl'|Hh -> Hrep'].
  - unfold is_only_vector_ref. by rewrite Hs'.
  - simp. by rewrite Hh, lookup_insert_eq.
  - unfold is_only_vector_ref. by rewrite Hs'.
  - simp. by rewrite Hh, lookup_insert_eq.
  - destruct Hne. by eapply rep_inj.
Qed.


(** Reading through the const [operator[]]: the element at that index, or
    raw storage from [size()] on. *)
Lemma at_const_rep s v l i : rep s v l → at_const s v i = l !! i.
Proof.
  intros Hrep. unfold at_const. rewrite (rep_const_data _ _ _ Hrep).
  destruct (l !! i) as [x|] eqn:Hi; [by apply slot_at_slots_of|].
  apply lookup_ge_None in Hi. unfold slot_at, slots_of.
  rewrite lookup_app_r by (by rewrite length_fmap).
  destruct (raw _ !! _) as [y|] eqn:Hy; [|done].
  by apply lookup_replicate in Hy as [-> _].
Qed.

Lemma noexcept_clear_copies s v : copies (fst (noexcept_clear s v)) = copies s.
Proof.
  unfold noexcept_clear, store_data.
  destruct (is_only_vector_ref s v), (is_small_vector_ v), (get_dynamic_data v); by simp.
Qed.

Lemma release_ref_copies s p count : copies (release_ref s p count) = copies s.
Proof.
  unfold release_ref. destruct p as [p|]; [|done].
  destruct (heap s !! p) as [b|]; [|done]. by destruct (refs_count b - 1 =? 0).
Qed.

Lemma destructor_copies s v : copies (destructor s v) = copies s.
Proof.
  unfold destructor, release_vector_ref. destruct (is_small_vector_ v).
  - apply noexcept_clear_copies.
  - apply release_ref_copies.
Qed.

(** The three-argument constructor copies [n] elements. *)
Lemma construct_from_copies s other l n cap' :
  rep s other l → n ≤ length l → n ≤ cap' → SMALL_SIZE < cap' →
  match construct_from s other n cap' with
  | Returns s1 _ => copies s1 = copies s + n
  | Throws _ _ => True
  end.
Proof.
  intros Hrep Hn Hcap HN. unfold construct_from.
  rewrite bool_decide_eq_false_2 by lia. simp.
  match goal with |- context [allocate_dynamic_buffer ?a ?b ?c] =>
    pose proof (allocate_dynamic_buffer_spec a b c) as Ha;
    destruct (allocate_dynamic_buffer a b c) as [s1 v1|s1 v1] end; [|done].
  destruct Ha as (-> & Hh1 & _ & Hc1). simp.
  pose proof (rep_insert_fresh _ _ _ _ _ _ Hrep (fresh_heap _) Hh1) as Hrep1.
  rewrite (rep_take _ _ _ _ Hrep1) by done.
  match goal with |- context [uninitialized_copy ?a ?b ?c ?d] =>
    pose proof (uninitialized_copy_heap a b c d) as Hu;
    destruct (uninitialized_copy a b c d) as [s2 d2|s2 d2] end; simp.
  - destruct Hu as (_ & _ & ->). rewrite Hc1, length_fmap, length_take. lia.
  - done.
Qed.




(** X4. Copy assignment [this = other] of two distinct objects.  When it
    returns, [this] holds the elements of [other] in the mode of [other],
    and [other] still holds them.  From a dynamic [other] the vector takes
    the very block of [other]: it becomes the same record, no element is
    copied, and the assignment cannot throw.  With no fault scheduled the
    assignment returns.  It throws only on a scheduled fault and only from a
    small [other]; the heap is then what it was, [other] holds what it
    held and [this] is on the storage it had.  A fault that hits the copy of
    an element into a raw slot leaves [this] holding what it held.  Between
    two small vectors the copied elements are then exchanged with those of
    [this], by exchanges that copy: a fault that hits such an exchange
    leaves [this] well formed with the size of [other], holding some
    elements (the weak guarantee). *)
Theorem assignment_contract s this other l1 l2 :
  rep s this l1 → rep s other l2 →
  match assign s this other with
  | Returns s' (this', _) =>
      rep s' this' l2 ∧ rep s' other l2
      ∧ is_small_vector_ this' = is_small_vector_ other
      ∧ (is_small_vector_ other = false → this' = other ∧ copies s' = copies s)
  | Throws s' this' =>
      is_small_vector_ other = true ∧ throw_in s ≠ None ∧ heap s' = heap s
      ∧ rep s' other l2
      ∧ const_data_ptr this' = const_data_ptr this
      ∧ (rep s' this' l1
         ∨ (is_small_vector_ this = true ∧ l1 ≠ [] ∧ l2 ≠ []
            ∧ ∃ l', length l' = length l2 ∧ rep s' this' l'))
  end
  ∧ (throw_in s = None → ∃ s' this', assign s this other = Returns s' (this', ())).
Proof.
  intros Hrep1 Hrep2. pose proof (assign_spec s this other l1 l2 Hrep1 Hrep2) as H.
  split.
  2:{ intros Hs. destruct (assign s this other) as [s' [this' []]|s' this']; [eauto|].
      by destruct H as (_ & ? & _). }
  destruct (assign s this other) as [s' [this' []]|s' this'].
  - destruct H as (Hr1 & Hr2 & _ & [(Hso & Hs' & _)|[(Hsame & -> & ->)|(_ & -> & p & _ & Hso & _ & Hc)]]).
    + split_and!; try done; [congruence|]. intros. congruence.
    + assert (is_small_vector_ this = false ∧ is_small_vector_ other = false
              ∧ store_ this = store_ other).
      { unfold is_same_vector in Hsame.
        destruct Hrep1 as [|p1 c1 r1 l1 Hp1 ? ? ?], Hrep2 as [|p2 c2 r2 l2 Hp2 ? ? ?];
          simpl in Hsame; try done.
        apply bool_decide_eq_true in Hsame as ->. done. }
      destruct H as (Ht & Ho & Hst). split_and!; try done; [congruence|].
      intros _. split; [|done].
      pose proof (rep_size _ _ _ Hr1) as Hz1. pose proof (rep_size _ _ _ Hr2) as Hz2.
      destruct this, other. simp. congruence.
    + by split_and!.
  - destruct H as (Hh & Ht & [Hsame|(Hs1 & Hs1' & Hl1 & Hl2 & l' & Hl' & Hrep')] & Hso).
    + split_and!; try done.
      * by eapply rep_heap.
      * by destruct Hsame as (_ & _ & ? & _).
      * left. eapply rep_heap; [done|]. by eapply same_state_rep.
    + split_and!; try done.
      * by eapply rep_heap.
      * unfold const_data_ptr. by rewrite Hs1, Hs1'.
      * right. split_and!; try done. by exists l'.
Qed.

(** A block counted once more still represents what it did. *)
Lemma rep_alter_refs s s' v l p :
  rep s v l → heap s' = alter (λ b, set_refs b (S (refs_count b))) p (heap s) → rep s' v l.
Proof.
  intros Hrep Hh. eapply rep_kept; [done|]. intros q b Hown Hb. rewrite Hh.
  destruct (rep_owns _ _ _ _ Hrep Hown) as (b0 & Hb0 & Hr0).
  rewrite Hb in Hb0. injection Hb0 as <-.
  destruct (decide (p = q)) as [->|Hne].
  - rewrite lookup_alter_eq, Hb. simpl. exists (S (refs_count b)). split; [lia|done].
  - rewrite lookup_alter_ne, Hb by done. exists (refs_count b). split; [done|by destruct b].
Qed.

(** An assignment to one object of a consistent world leaves every other
    object as it was. *)
Lemma assign_bystander s os i j k vi vj vk lk :
  consistent {| st := s; objs := os |} → i ≠ k →
  os !! i = Some vi → os !! j = Some vj → os !! k = Some vk → rep s vk lk →
  match assign s vi vj with
  | Returns s' _ | Throws s' _ => rep s' vk lk
  end.
Proof.
  intros Hc Hik Hi Hj Hk Hrepk.
  destruct (proj1 Hc i vi Hi) as [li Hrepi]. destruct (proj1 Hc j vj Hj) as [lj Hrepj].
  simpl in *.
  pose proof (assign_spec s vi vj li lj Hrepi Hrepj) as H.
  destruct (assign s vi vj) as [s' [vi' []]|s' vi'].
  - destruct H as (Hrep' & _ & _ & [(Hsj & Hsi' & Hh)|[(_ & -> & ->)|(_ & -> & p & Hst & Hsj & Hh & _)]]).
    + eapply (transition_bystander s os i k vi li vk lk s' vi' lj); try done.
      destruct (is_small_vector_ vi) eqn:Hsi.
      * rewrite release_vector_ref_small in Hh by done. by apply in_small.
      * by apply to_small.
    + done.
    + eapply (rep_alter_refs (release_vector_ref s vi)); [|exact Hh].
      eapply (transition_bystander s os i k vi li vk lk _ default_vector []); try done.
      by apply (release_as_transition s vi li).
  - destruct H as (Hh & _). by eapply rep_heap.
Qed.

(** X5. Assignment between the objects of a program, [objs[i] = objs[j]]:
    every object other than the target reads as before, whether the
    assignment returns or throws; the target reads as the source did or,
    after a throw, which takes a scheduled fault and a small source, as it
    did itself, or else, when both are small and an exchange of elements
    has thrown, as some sequence of as many elements as the source has;
    with no fault scheduled it reads as the source.  A self-assignment
    changes nothing at all. *)
Theorem world_assign_contract w i j vi vj :
  0 < SMALL_SIZE → reachable w → objs w !! i = Some vi → objs w !! j = Some vj →
  (∀ k, k ≠ i → elements (world_assign w i j) k = elements w k)
  ∧ (elements (world_assign w i j) i = elements w j
     ∨ (throw_in (st w) ≠ None ∧ is_small_vector_ vj = true
        ∧ (elements (world_assign w i j) i = elements w i
           ∨ (is_small_vector_ vi = true
              ∧ ∃ l' : list T, elements (world_assign w i j) i = Some <$> l'
                  ∧ length l' = length (elements w j)))))
  ∧ (throw_in (st w) = None → elements (world_assign w i j) i = elements w j)
  ∧ length (objs (world_assign w i j)) = length (objs w)
  ∧ world_assign w i i = w.
Proof.
  intros HN Hreach Hi Hj. pose proof (reachable_consistent w HN Hreach) as Hc.
  assert (Hself : world_assign w i i = w).
  { unfold world_assign. rewrite Hi. by rewrite same_storage_self. }
  destruct (proj1 Hc i vi Hi) as [li Hrepi]. destruct (proj1 Hc j vj Hj) as [lj Hrepj].
  assert (Hsame : same_storage i j vi vj = true → elements w i = elements w j).
  { intros Hst. destruct (decide (i = j)) as [->|Hij]; [done|].
    rewrite same_storage_distinct in Hst by done.
    rewrite (elements_rep w i vi li Hi Hrepi), (elements_rep w j vj lj Hj Hrepj).
    f_equal. unfold is_same_vector in Hst.
    destruct Hrepi as [|p1 c1 r1 la Hp1 ? ? ?] eqn:E1; [by destruct (const_data_ptr vj)|].
    destruct Hrepj as [|p2 c2 r2 lb Hp2 ? ? ?] eqn:E2; [done|]. clear E1 E2.
    simpl in Hst. apply bool_decide_eq_true in Hst as ->.
    by eapply rep_same_block. }
  destruct w as [s os]. simpl in *. unfold world_assign in *. simpl in *.
  rewrite Hi, Hj in *. clear Hself.
  destruct (same_storage i j vi vj) eqn:Hst.
  { specialize (Hsame eq_refl). split_and!; try done; try (by left).
    by rewrite same_storage_self. }
  assert (Hby : ∀ k, k ≠ i →
            match assign s vi vj with
            | Returns s' (vi', _) | Throws s' vi' =>
                elements {| st := s'; objs := <[i := vi']> os |} k
                = elements {| st := s; objs := os |} k
            end).
  { intros k Hk. unfold elements. simpl.
    destruct (os !! k) as [vk|] eqn:Hvk.
    - destruct (proj1 Hc k vk Hvk) as [lk Hrepk]. simpl in Hrepk.
      pose proof (assign_bystander s os i j k vi vj vk lk Hc ltac:(done) Hi Hj Hvk Hrepk) as H.
      destruct (assign s vi vj) as [s' [vi' []]|s' vi'];
        rewrite list_lookup_insert_ne, Hvk by done;
        by rewrite (rep_contents _ _ _ H), (rep_contents _ _ _ Hrepk).
    - destruct (assign s vi vj) as [s' [vi' []]|s' vi'];
        by rewrite list_lookup_insert_ne, Hvk by done. }
  pose proof (assign_spec s vi vj li lj Hrepi Hrepj) as H.
  assert (Hlt : i < length os) by (by eapply lookup_lt_Some).
  assert (Hej : elements {| st := s; objs := os |} j = Some <$> lj).
  { by eapply elements_rep. }
  assert (Hei : elements {| st := s; objs := os |} i = Some <$> li).
  { by eapply elements_rep. }
  destruct (assign s vi vj) as [s' [vi' []]|s' vi'].
  - destruct H as (Hr1 & _).
    assert (elements {| st := s'; objs := <[i := vi']> os |} i = Some <$> lj) as He.
    { eapply elements_rep; [|done]. by apply list_lookup_insert_eq. }
    split_and!; [done|left; congruence|intros; congruence|simpl; by rewrite length_insert|].
    by rewrite same_storage_self.
  - destruct H as (Hh & Ht & [Hss|(Hs1 & Hs1' & _ & _ & l' & Hl' & Hrep')] & Hso).
    + assert (elements {| st := s'; objs := <[i := vi']> os |} i = Some <$> li) as He.
      { eapply elements_rep; [by apply list_lookup_insert_eq|].
        eapply rep_heap; [done|]. by eapply same_state_rep. }
      split_and!; [done| |done|simpl; by rewrite length_insert|by rewrite same_storage_self].
      right. split_and!; [done..|]. left. congruence.
    + assert (elements {| st := s'; objs := <[i := vi']> os |} i = Some <$> l') as He.
      { eapply elements_rep; [by apply list_lookup_insert_eq|done]. }
      split_and!; [done| |done|simpl; by rewrite length_insert|by rewrite same_storage_self].
      right. split_and!; [done..|]. right. split; [done|]. exists l'. split; [done|].
      by rewrite Hej, length_fmap.
Qed.

(** ** Blocks and their owners *)

(** Every block of the heap is counted at least once. *)
Definition counted (s : state) : Prop :=
  ∀ p b, heap s !! p = Some b → 1 ≤ refs_count b.

Lemma counted_heap s s' : heap s' = heap s → counted s → counted s'.
Proof. intros Hh Hc p b. rewrite Hh. apply Hc. Qed.

Lemma transition_counted s this l s' this' l' :
  rep s this l → transition s this s' this' l' → counted s → counted s'.
Proof.
  intros Hrep Htr Hc q b' Hq'.
  destruct (heap s !! q) as [b|] eqn:Hq.
  - destruct (transition_old_block _ _ _ _ _ _ q b Hrep Htr Hq) as [Hno Hyes].
    specialize (Hc q b Hq).
    destruct (decide (owns this q)) as [Hown|Hown].
    + destruct (Hyes Hown) as [(_ & d & Hd & _)|(_ & Hd)]; rewrite Hd in Hq'.
      * injection Hq' as <-. done.
      * destruct (Nat.eqb_spec (refs_count b) 1); [done|].
        injection Hq' as <-. simpl. lia.
    + destruct (Hno Hown) as [Hd _]. rewrite Hd in Hq'. by injection Hq' as <-.
  - destruct (transition_new_block _ _ _ _ _ _ q Hrep Htr Hq) as [[Hd _]|(_ & b0 & Hd & Hr)];
      rewrite Hd in Hq'; [done|]. injection Hq' as <-. lia.
Qed.

Lemma alter_refs_counted s s' p :
  heap s' = alter (λ b, set_refs b (S (refs_count b))) p (heap s) → counted s → counted s'.
Proof.
  intros Hh Hc q b'. rewrite Hh. destruct (decide (p = q)) as [->|Hne].
  - rewrite lookup_alter_eq. destruct (heap s !! q) as [b|]; [|done].
    intros [= <-]. simpl. lia.
  - rewrite lookup_alter_ne by done. apply Hc.
Qed.

Lemma destructor_heap s v :
  heap (destructor s v) = heap (release_vector_ref s v).
Proof.
  destruct (is_small_vector_ v) eqn:Hs.
  - by rewrite destructor_small, release_vector_ref_small.
  - unfold destructor. by rewrite Hs.
Qed.

Lemma step_counted w w' :
  0 < SMALL_SIZE → consistent w → counted (st w) → step w w' → counted (st w').
Proof.
  intros HN Hc Hn Hstep. destruct w as [s os].
  destruct Hstep as [|i|i v l c Hi Hrep Hal|i j|i j|i|k];
    unfold world_copy, world_call, world_assign, world_swap, world_destroy; simpl in *.
  - done.
  - destruct (os !! i) as [v|] eqn:Hi; [|done].
    destruct (proj1 Hc i v Hi) as [l Hrep]. simpl in Hrep.
    pose proof (copy_construct_spec s v l Hrep) as H.
    destruct (copy_construct s v) as [s' v'|s' []]; simpl.
    + destruct H as (_ & _ & _ & _ & H). destruct (is_small_vector_ v) eqn:Hs.
      * destruct H as [Hh _]. by eapply counted_heap.
      * destruct H as [_ ->]. destruct Hrep as [|p cap refs l Hp ? ? ?]; [done|].
        eapply (alter_refs_counted s _ p); [|done]. unfold add_vector_ref. by simp.
    + destruct H as (_ & Hh & _). by eapply counted_heap.
  - rewrite Hi. destruct (run_transition c s v l HN Hrep Hal) as [l' H].
    destruct (run c s v) as [s' [v' []]|s' v']; simpl; by eapply transition_counted.
  - destruct (os !! i) as [vi|] eqn:Hi; [|done].
    destruct (os !! j) as [vj|] eqn:Hj; [|done].
    destruct (same_storage i j vi vj); [done|].
    destruct (proj1 Hc i vi Hi) as [li Hrepi]. destruct (proj1 Hc j vj Hj) as [lj Hrepj].
    simpl in *.
    pose proof (assign_spec s vi vj li lj Hrepi Hrepj) as H.
    pose proof (transition_counted s vi li _ _ _ Hrepi (release_as_transition s vi li Hrepi) Hn)
      as Hrel.
    destruct (assign s vi vj) as [s' [vi' []]|s' vi']; simpl.
    + destruct H as (_ & _ & _ & [(_ & _ & Hh)|[(_ & -> & _)|(_ & _ & p & _ & _ & Hh & _)]]).
      * by eapply counted_heap.
      * done.
      * by eapply alter_refs_counted.
    + destruct H as (Hh & _). by eapply counted_heap.
  - destruct (os !! i) as [vi|] eqn:Hi; [|done].
    destruct (os !! j) as [vj|] eqn:Hj; [|done].
    destruct (same_storage i j vi vj); [done|].
    destruct (proj1 Hc i vi Hi) as [li Hrepi]. destruct (proj1 Hc j vj Hj) as [lj Hrepj].
    simpl in *.
    pose proof (swap_spec s vi vj li lj Hrepi Hrepj) as H.
    destruct (swap s vi vj) as [s' [vi' vj']|s' [vi' vj']]; simpl;
      destruct H as (Hh & _); by eapply counted_heap.
  - destruct (os !! i) as [v|] eqn:Hi; [|done]. simpl.
    destruct (proj1 Hc i v Hi) as [l Hrep]. simpl in Hrep.
    eapply counted_heap; [apply destructor_heap|].
    by eapply transition_counted; [|apply (release_as_transition s v l)|].
  - done.
Qed.

Lemma reachable_counted w : 0 < SMALL_SIZE → reachable w → counted (st w).
Proof.
  intros HN Hreach. unfold reachable in Hreach. revert w Hreach.
  apply (rtc_ind_r (λ w, counted (st w))).
  - intros p b. simpl. by rewrite lookup_empty.
  - intros w1 w2 Hreach Hstep IH.
    eapply step_counted; [done| |done..]. by apply reachable_consistent.
Qed.

(** X6. Reference counts are exact and no block leaks: in whatever state
    a program has brought its vectors, the count of every block of the
    heap is the number of vectors that point to it, and that number is at
    least one.  Once every vector has been destroyed the heap is empty. *)
Theorem blocks_are_owned w :
  0 < SMALL_SIZE → reachable w →
  (∀ p b, heap (st w) !! p = Some b →
     refs_count b = owners p (objs w) ∧ 1 ≤ refs_count b
     ∧ ∃ i v, objs w !! i = Some v ∧ const_data_ptr v = heap_ptr p)
  ∧ (objs w = [] → heap (st w) = ∅).
Proof.
  intros HN Hreach.
  pose proof (reachable_consistent w HN Hreach) as [_ Hcount].
  pose proof (reachable_counted w HN Hreach) as Hn.
  assert (Hall : ∀ p b, heap (st w) !! p = Some b →
            refs_count b = owners p (objs w) ∧ 1 ≤ refs_count b
            ∧ ∃ i v, objs w !! i = Some v ∧ const_data_ptr v = heap_ptr p).
  { intros p b Hp. specialize (Hcount p b Hp). specialize (Hn p b Hp).
    split_and!; [done..|].
    rewrite Hcount in Hn. unfold owners in Hn.
    destruct (filter (λ v, owns v p) (objs w)) as [|v vs] eqn:Hf; [simpl in Hn; lia|].
    assert (v ∈ filter (λ v, owns v p) (objs w)) as Hv by (rewrite Hf; left).
    apply list_elem_of_filter in Hv as [Hown Hv].
    apply list_elem_of_lookup in Hv as [i Hv]. by exists i, v. }
  split; [done|]. intros Hobjs. apply map_empty. intros p.
  destruct (heap (st w) !! p) as [b|] eqn:Hp; [|done].
  destruct (Hall p b Hp) as (_ & _ & i & v & Hi & _). by rewrite Hobjs in Hi.
Qed.

(** X7. The destructor.  It never throws and leaves every other vector
    reading as before, also those that shared the block of the destroyed
    one.  The block of the destroyed vector is freed when the vector was
    its only owner and counted once less, elements untouched, otherwise;
    no other block changes. *)
Theorem destructor_contract w i v :
  0 < SMALL_SIZE → reachable w → objs w !! i = Some v →
  (∀ k, k < i → elements (world_destroy w i) k = elements w k)
  ∧ (∀ k, i ≤ k → elements (world_destroy w i) k = elements w (S k))
  ∧ (∀ p b, heap (st w) !! p = Some b →
       heap (st (world_destroy w i)) !! p
       = if decide (const_data_ptr v = heap_ptr p)
         then if refs_count b =? 1 then None else Some (set_refs b (refs_count b - 1))
         else Some b)
  ∧ (∀ p, heap (st w) !! p = None → heap (st (world_destroy w i)) !! p = None)
  ∧ throw_in (st (world_destroy w i)) = throw_in (st w)
  ∧ copies (st (world_destroy w i)) = copies (st w).
Proof.
  intros HN Hreach Hi. pose proof (reachable_consistent w HN Hreach) as Hc.
  destruct (proj1 Hc i v Hi) as [l Hrep].
  destruct w as [s os]. simpl in *. unfold world_destroy. simpl. rewrite Hi. simpl.
  assert (Hlook : ∀ p, heap (destructor s v) !! p
            = if decide (owns v p)
              then match heap s !! p with
                   | Some b => if refs_count b =? 1 then None
                               else Some (set_refs b (refs_count b - 1))
                   | None => None
                   end
              else heap s !! p).
  { intros p. rewrite destructor_heap. by eapply release_vector_ref_lookup. }
  assert (Hby : ∀ k vk, k ≠ i → os !! k = Some vk →
            contents (destructor s v) vk = contents s vk).
  { intros k vk Hk Hvk. destruct (proj1 Hc k vk Hvk) as [lk Hrepk]. simpl in Hrepk.
    rewrite (rep_contents _ _ _ Hrepk). apply rep_contents.
    eapply rep_heap; [apply destructor_heap|].
    eapply (transition_bystander s os i k v l vk lk _ default_vector []); try done.
    by apply (release_as_transition s v l). }
  split_and!.
  - intros k Hk. unfold elements. simpl. rewrite list_lookup_delete_lt by done.
    destruct (os !! k) as [vk|] eqn:Hvk; [|done]. apply (Hby k); [lia|done].
  - intros k Hk. unfold elements. simpl. rewrite list_lookup_delete_ge by done.
    destruct (os !! S k) as [vk|] eqn:Hvk; [|done]. apply (Hby (S k)); [lia|done].
  - intros p b Hp. rewrite Hlook, Hp. unfold owns. by destruct (decide _).
  - intros p Hp. rewrite Hlook, Hp. by destruct (decide _).
  - apply destructor_throw_in.
  - apply destructor_copies.
Qed.

(** A copy of one object of a consistent world leaves every object as it
    was. *)
Lemma copy_bystander s os i k v vk lk :
  consistent {| st := s; objs := os |} →
  os !! i = Some v → os !! k = Some vk → rep s vk lk →
  match copy_construct s v with
  | Returns s' _ | Throws s' _ => rep s' vk lk
  end.
Proof.
  intros Hc Hi Hk Hrepk. destruct (proj1 Hc i v Hi) as [l Hrep]. simpl in Hrep.
  pose proof (copy_construct_spec s v l Hrep) as H.
  destruct (copy_construct s v) as [s' v'|s' []].
  - destruct H as (_ & _ & _ & _ & H). destruct (is_small_vector_ v) eqn:Hs.
    + destruct H as [Hh _]. by eapply rep_heap.
    + destruct H as [_ ->]. destruct Hrep as [|p cap refs l Hp ? ? ?]; [done|].
      eapply (rep_alter_refs s _ vk lk p); [done|]. unfold add_vector_ref. by simp.
  - destruct H as (_ & Hh & _). by eapply rep_heap.
Qed.

(** X8. Copy construction of a new vector from [objs[i]]: every existing
    vector, the source included, reads as before; the new vector reads as
    the source.  The construction can only fail when the source is small
    and a fault is scheduled, and then no vector is added. *)
Theorem world_copy_contract w i v :
  0 < SMALL_SIZE → reachable w → objs w !! i = Some v →
  (∀ k, k < length (objs w) → elements (world_copy w i) k = elements w k)
  ∧ ((length (objs (world_copy w i)) = S (length (objs w))
      ∧ elements (world_copy w i) (length (objs w)) = elements w i)
     ∨ (objs (world_copy w i) = objs w
        ∧ is_small_vector_ v = true ∧ throw_in (st w) ≠ None))
  ∧ (is_small_vector_ v = false ∨ throw_in (st w) = None →
     length (objs (world_copy w i)) = S (length (objs w)))
  ∧ (is_small_vector_ v = false →
     objs (world_copy w i) !! length (objs w) = Some v
     ∧ copies (st (world_copy w i)) = copies (st w)).
Proof.
  intros HN Hreach Hi. pose proof (reachable_consistent w HN Hreach) as Hc.
  destruct (proj1 Hc i v Hi) as [l Hrep].
  pose proof (elements_rep w i v l Hi Hrep) as Hei.
  destruct w as [s os]. simpl in *. unfold world_copy in *. simpl in *. rewrite Hi.
  assert (Hby : ∀ k, k < length os →
            match copy_construct s v with
            | Returns s' v' => elements {| st := s'; objs := os ++ [v'] |} k
            | Throws s' _ => elements {| st := s'; objs := os |} k
            end = elements {| st := s; objs := os |} k).
  { intros k Hk. destruct (lookup_lt_is_Some_2 os k Hk) as [vk Hvk].
    destruct (proj1 Hc k vk Hvk) as [lk Hrepk]. simpl in Hrepk.
    pose proof (copy_bystander s os i k v vk lk Hc Hi Hvk Hrepk) as H.
    unfold elements. simpl.
    destruct (copy_construct s v) as [s' v'|s' []]; simpl;
      rewrite ?lookup_app_l by done; rewrite Hvk;
      by rewrite (rep_contents _ _ _ H), (rep_contents _ _ _ Hrepk). }
  pose proof (copy_construct_spec s v l Hrep) as H.
  destruct (copy_construct s v) as [s' v'|s' []]; simpl.
  - destruct H as (Hrep' & _ & _ & _ & H).
    assert (elements {| st := s'; objs := os ++ [v'] |} (length os) = Some <$> l) as He.
    { eapply elements_rep; [|done]. simpl. by rewrite lookup_app_r, Nat.sub_diag. }
    split_and!; [done|left; split; [rewrite length_app; simpl; lia|congruence]
                |intros _; rewrite length_app; simpl; lia|].
    intros Hs. rewrite Hs in H. destruct H as [-> ->].
    split; [by rewrite lookup_app_r, Nat.sub_diag|].
    unfold add_vector_ref. rewrite Hs. by destruct (get_dynamic_data v).
  - destruct H as (Hs & _ & Ht). split_and!; [done|by right|intros [?|?]; congruence|].
    intros; congruence.
Qed.

(** X9. [objs[i].swap(objs[j])] never allocates or frees: the heap is the
    same afterwards, whether the swap returns or throws.  Every other
    vector reads as before.  The two vectors have exchanged their elements;
    or, on a scheduled fault with one of them small, the swap has thrown:
    then both read as before, or else both are small, an exchange of two
    elements has thrown, and each reads as some sequence of as many
    elements as the other had.  With no fault scheduled the elements are
    exchanged. *)
Theorem world_swap_contract w i j vi vj :
  0 < SMALL_SIZE → reachable w → objs w !! i = Some vi → objs w !! j = Some vj →
  heap (st (world_swap w i j)) = heap (st w)
  ∧ (∀ k, k ≠ i → k ≠ j → elements (world_swap w i j) k = elements w k)
  ∧ ((elements (world_swap w i j) i = elements w j
      ∧ elements (world_swap w i j) j = elements w i)
     ∨ (throw_in (st w) ≠ None
        ∧ (is_small_vector_ vi = true ∨ is_small_vector_ vj = true)
        ∧ ((elements (world_swap w i j) i = elements w i
            ∧ elements (world_swap w i j) j = elements w j)
           ∨ (is_small_vector_ vi = true ∧ is_small_vector_ vj = true
              ∧ ∃ la lb : list T,
                  elements (world_swap w i j) i = Some <$> la
                  ∧ elements (world_swap w i j) j = Some <$> lb
                  ∧ length la = length (elements w j)
                  ∧ length lb = length (elements w i)))))
  ∧ (throw_in (st w) = None →
     elements (world_swap w i j) i = elements w j
     ∧ elements (world_swap w i j) j = elements w i).
Proof.
  intros HN Hreach Hi Hj. pose proof (reachable_consistent w HN Hreach) as Hc.
  destruct (proj1 Hc i vi Hi) as [li Hrepi]. destruct (proj1 Hc j vj Hj) as [lj Hrepj].
  pose proof (elements_rep w i vi li Hi Hrepi) as Hei.
  pose proof (elements_rep w j vj lj Hj Hrepj) as Hej.
  assert (Hsame : same_storage i j vi vj = true → li = lj).
  { intros Hst. destruct (decide (i = j)) as [->|Hij].
    { assert (vi = vj) as -> by congruence. by eapply rep_inj. }
    rewrite same_storage_distinct in Hst by done. unfold is_same_vector in Hst.
    destruct Hrepi as [|p1 c1 r1 la Hp1 ? ? ?] eqn:E1; [by destruct (const_data_ptr vj)|].
    destruct Hrepj as [|p2 c2 r2 lb Hp2 ? ? ?] eqn:E2; [done|]. clear E1 E2.
    simpl in Hst. apply bool_decide_eq_true in Hst as ->.
    by eapply rep_same_block. }
  destruct w as [s os]. simpl in *. unfold world_swap in *. simpl in *. rewrite Hi, Hj.
  destruct (same_storage i j vi vj) eqn:Hst.
  { rewrite (Hsame eq_refl) in *. split_and!; try done; [left|]; split; congruence. }
  assert (Hij : i ≠ j).
  { intros ->. assert (vi = vj) as -> by congruence. by rewrite same_storage_self in Hst. }
  assert (Hli : i < length os) by (by eapply lookup_lt_Some).
  assert (Hlj : j < length os) by (by eapply lookup_lt_Some).
  pose proof (swap_spec s vi vj li lj Hrepi Hrepj) as H.
  assert (Hone : ∀ s' vi' vj', swap s vi vj = Throws s' (vi', vj') →
            is_small_vector_ vi = true ∨ is_small_vector_ vj = true).
  { intros s' vi' vj' Hsw.
    destruct (is_small_vector_ vi) eqn:Hsi'; [by left|].
    destruct (is_small_vector_ vj) eqn:Hsj'; [by right|].
    exfalso.
    destruct Hrepi as [|p1 c1 r1 la Hp1 ? ? ?] eqn:E3; [done|].
    destruct Hrepj as [|p2 c2 r2 lb Hp2 ? ? ?] eqn:E4; [done|]. clear E3 E4.
    rewrite same_storage_distinct in Hst by done.
    unfold is_same_vector in Hst. simpl in Hst. apply bool_decide_eq_false in Hst.
    rewrite (swap_dynamic_dynamic s (length la) p1 (length lb) p2 Hst) in Hsw.
    discriminate Hsw. }
  assert (Hby : ∀ s' vi' vj' k, heap s' = heap s → k ≠ i → k ≠ j →
            elements {| st := s'; objs := <[j := vj']> (<[i := vi']> os) |} k
            = elements {| st := s; objs := os |} k).
  { intros s' vi' vj' k Hh Hki Hkj. unfold elements. simpl.
    rewrite !list_lookup_insert_ne by done.
    destruct (os !! k) as [vk|] eqn:Hvk; [|done].
    destruct (proj1 Hc k vk Hvk) as [lk Hrepk]. simpl in Hrepk.
    rewrite (rep_contents _ _ _ Hrepk). apply rep_contents. by eapply rep_heap. }
  assert (Hat : ∀ s' vi' vj' la lb, rep s' vi' la → rep s' vj' lb →
            elements {| st := s'; objs := <[j := vj']> (<[i := vi']> os) |} i = Some <$> la
            ∧ elements {| st := s'; objs := <[j := vj']> (<[i := vi']> os) |} j = Some <$> lb).
  { intros s' vi' vj' la lb Hra Hrb. split.
    - eapply elements_rep; [|done]. simpl.
      rewrite list_lookup_insert_ne by done. by apply list_lookup_insert_eq.
    - eapply elements_rep; [|done]. simpl.
      apply list_lookup_insert_eq. by rewrite length_insert. }
  destruct (swap s vi vj) as [s' [vi' vj']|s' [vi' vj']] eqn:Hsw; simpl.
  - destruct H as (Hh & _ & Hri & Hrj & _).
    destruct (Hat _ _ _ _ _ Hri Hrj) as [E1 E2].
    split_and!; [done|by intros; apply Hby|left; split; congruence|intros _; split; congruence].
  - specialize (Hone _ _ _ eq_refl).
    destruct H as (Hh & Ht & [[Hsi Hsj]|(Hs1 & Hs2 & _ & _ & _ & _ & _
                                         & la & lb & Hla & Hlb & Hri & Hrj)]).
    + assert (rep s' vi' li) as Hri by (eapply rep_heap; [done|]; by eapply same_state_rep).
      assert (rep s' vj' lj) as Hrj by (eapply rep_heap; [done|]; by eapply same_state_rep).
      destruct (Hat _ _ _ _ _ Hri Hrj) as [E1 E2].
      split_and!; [done|by intros; apply Hby| |done].
      right. split_and!; [done..|]. left. split; congruence.
    + destruct (Hat _ _ _ _ _ Hri Hrj) as [E1 E2].
      split_and!; [done|by intros; apply Hby| |done].
      right. split_and!; [done..|]. right. split_and!; [done..|].
      exists la, lb. rewrite Hei, Hej, !length_fmap. by split_and!.
Qed.

(** X10. Layout of the storage of a live vector: it has [capacity()]
    slots, the first [size()] of which hold constructed elements while the
    others are raw.  So the const [operator[]] reads an element at every
    index below [size()], and [empty()] tells whether there is one. *)
Theorem storage_layout w i v :
  0 < SMALL_SIZE → reachable w → objs w !! i = Some v →
  length (const_data (st w) v) = capacity (st w) v
  ∧ (∀ k, k < size v → is_Some (at_const (st w) v k))
  ∧ (∀ k, size v ≤ k → at_const (st w) v k = None)
  ∧ length (elements w i) = size v
  ∧ (empty v = true ↔ elements w i = []).
Proof.
  intros HN Hreach Hi.
  destruct (proj1 (reachable_consistent w HN Hreach) i v Hi) as [l Hrep].
  rewrite (elements_rep w i v l Hi Hrep). unfold empty.
  rewrite (rep_size _ _ _ Hrep), (rep_const_data _ _ _ Hrep).
  split_and!.
  - apply length_slots_of. by apply (rep_capacity _ _ _ Hrep).
  - intros k Hk. rewrite (at_const_rep _ _ _ _ Hrep). by apply lookup_lt_is_Some_2.
  - intros k Hk. rewrite (at_const_rep _ _ _ _ Hrep). by apply lookup_ge_None_2.
  - by rewrite length_fmap.
  - rewrite Nat.eqb_eq. destruct l; simpl; split; done.
Qed.

(** ** Capacity control *)

Lemma reserve_noop s this k :
  k < size this ∨ (is_only_vector_ref s this = true ∧ k ≤ capacity s this) →
  reserve s this k = Returns s (this, ()).
Proof.
  intros H. unfold reserve. destruct (Nat.ltb_spec k (size this)); [done|].
  destruct H as [?|[-> Hk]]; [lia|]. simpl.
  by destruct (Nat.ltb_spec (capacity s this) k); [lia|].
Qed.

(** X11. [reserve(k)], for a [k] whose allocation size is representable.
    With [k] below the size nothing happens.  Otherwise the vector ends up
    the only owner of a storage of capacity at least [k], with the same
    elements: a vector that alone owns its storage keeps it when [k] fits
    and else moves to a block of capacity exactly [k]; a vector that
    shares its block always leaves it, for the inline storage when
    [k <= SMALL_SIZE] and else for a block of capacity exactly [k], which
    may be less than the capacity it had.  If a copy or the allocation
    throws, the vector and the heap are what they were. *)
Theorem reserve_contract sizeof_T s this l k :
  rep s this l → representable sizeof_T k →
  match reserve s this k with
  | Returns s' (this', _) =>
      rep s' this' l
      ∧ (k < length l → s' = s ∧ this' = this)
      ∧ (length l ≤ k →
         is_only_vector_ref s' this' = true
         ∧ capacity s' this' = (if is_only_vector_ref s this
                                then capacity s this `max` k
                                else k `max` SMALL_SIZE)
         ∧ (is_only_vector_ref s this = true → k ≤ capacity s this →
            s' = s ∧ this' = this))
  | Throws s' this' => length l ≤ k ∧ throw_in s ≠ None ∧ restored s this s' this'
  end.
Proof.
  intros Hrep _. pose proof (rep_size _ _ _ Hrep) as Hsz.
  destruct (decide (k < size this ∨ (is_only_vector_ref s this = true ∧ k ≤ capacity s this)))
    as [Hno|Hyes].
  { rewrite (reserve_noop _ _ _ Hno). split_and!; [done|done|].
    intros Hk. destruct Hno as [?|[Honly Hcap]]; [lia|]. rewrite Honly.
    split_and!; [done|lia|done]. }
  pose proof (reserve_cases s this l k Hrep) as H.
  pose proof (reserve_spec s this l k Hrep) as H'.
  destruct (reserve s this k) as [s' [this' []]|s' this'].
  - destruct H' as (Htr & _). destruct H as [[(-> & -> & Hc)|[Hc|Hc]] _].
    + destruct Hyes. destruct Hc as [?|?]; [left; lia|by right].
    + destruct Hc as (Honly & Hlk & HkN & _ & Hs' & _ & Hrep').
      split_and!; [done|lia|]. intros _. rewrite Honly.
      unfold is_only_vector_ref, capacity. rewrite Hs'. simpl.
      split_and!; [done|lia|done].
    + destruct Hc as (HkN & Hlk & Hh & ->).
      split_and!; [by eapply transition_rep|lia|]. intros _.
      simp. rewrite Hh, lookup_insert_eq. simpl. split_and!; [done| |].
      * destruct (is_only_vector_ref s this) eqn:Honly; [|lia].
        assert (capacity s this < k); [|lia].
        destruct (Nat.le_gt_cases k (capacity s this)); [|done]. destruct Hyes. by right.
      * intros Honly Hk. destruct Hyes. by right.
  - split_and!; [lia|by destruct H as (_ & _ & ?)|by apply rolled_back_restored].
Qed.

Lemma shrink_to_fit_noop s this :
  is_small_vector_ this = true ∨ size this = capacity s this →
  shrink_to_fit s this = Returns s (this, ()).
Proof.
  intros H. unfold shrink_to_fit.
  destruct H as [-> | ->]; [done|]. by rewrite Nat.eqb_refl, orb_true_r.
Qed.

(** X12. [shrink_to_fit()].  A small vector and a vector that is full are
    left alone, even when the block is shared.  Otherwise the vector moves
    to the inline storage if its elements fit there and to a block of
    capacity [size()] if not.  In all cases the capacity afterwards is
    [max(size(), SMALL_SIZE)], the vector is small exactly when
    [size() <= SMALL_SIZE], and a second call changes nothing.  If a copy or
    the allocation throws, the vector and the heap are what they were. *)
Theorem shrink_to_fit_contract s this l :
  rep s this l →
  match shrink_to_fit s this with
  | Returns s' (this', _) =>
      rep s' this' l
      ∧ capacity s' this' = length l `max` SMALL_SIZE
      ∧ is_small_vector_ this' = bool_decide (length l ≤ SMALL_SIZE)
      ∧ (is_small_vector_ this = true ∨ length l = capacity s this → s' = s ∧ this' = this)
      ∧ shrink_to_fit s' this' = Returns s' (this', ())
  | Throws s' this' =>
      is_small_vector_ this = false ∧ length l < capacity s this
      ∧ throw_in s ≠ None ∧ restored s this s' this'
  end.
Proof.
  intros Hrep. pose proof (rep_size _ _ _ Hrep) as Hsz.
  pose proof (rep_capacity _ _ _ Hrep) as [Hlc _].
  pose proof (shrink_to_fit_spec s this l Hrep) as H.
  pose proof (shrink_to_fit_noop s this) as Hno.
  destruct (shrink_to_fit s this) as [s' [this' []]|s' this'].
  - destruct H as (Htr & Hcap & _). pose proof (transition_rep _ _ _ _ _ Htr) as Hrep'.
    pose proof (rep_size _ _ _ Hrep') as Hsz'.
    assert (is_small_vector_ this' = bool_decide (length l ≤ SMALL_SIZE)) as Hmode.
    { destruct Hrep' as [u l Hl Hu|p cap refs l Hp Hc Hl Hr]; simp.
      - by rewrite bool_decide_eq_true_2.
      - rewrite Hp in Hcap. simpl in Hcap. rewrite bool_decide_eq_false_2; [done|lia]. }
    split_and!; [done..| |].
    + intros Hc. rewrite Hsz in Hno. specialize (Hno Hc). by injection Hno as <- <-.
    + apply shrink_to_fit_noop. rewrite Hmode. case_bool_decide; [by left|right].
      rewrite Hsz', Hcap. lia.
  - destruct H as (Hthis & Hh & Ht).
    assert (¬ (is_small_vector_ this = true ∨ size this = capacity s this)) as Hn.
    { intros Hc. by specialize (Hno Hc). }
    split_and!; [|rewrite <- Hsz|done|by apply rolled_back_restored].
    + destruct (is_small_vector_ this); [|done]. destruct Hn. by left.
    + destruct (decide (size this = capacity s this)); [|rewrite Hsz in *; lia].
      destruct Hn. by right.
Qed.

(** ** Work done in place

    Writing elements into storage that the vector alone owns keeps the
    vector where it is: same storage, same capacity, still the only owner,
    and neither the fault schedule nor the copy counter moves. *)
Definition in_place (s : state) (v : socow_vector) (s' : state) (v' : socow_vector) : Prop :=
  is_only_vector_ref s' v' = true
  ∧ const_data_ptr v' = const_data_ptr v
  ∧ capacity s' v' = capacity s v
  ∧ throw_in s' = throw_in s ∧ copies s' = copies s
  ∧ dom (heap s') = dom (heap s).

Lemma in_place_refl s v : is_only_vector_ref s v = true → in_place s v s v.
Proof. by intros H. Qed.

Lemma in_place_trans s1 v1 s2 v2 s3 v3 :
  in_place s1 v1 s2 v2 → in_place s2 v2 s3 v3 → in_place s1 v1 s3 v3.
Proof. intros (?&?&?&?&?&?) (?&?&?&?&?&?). split_and!; congruence. Qed.

Lemma store_data_in_place s v d :
  is_only_vector_ref s v = true →
  in_place s v (store_data s v d).1 (store_data s v d).2.
Proof.
  intros Honly. unfold in_place, store_data, is_only_vector_ref, capacity, const_data_ptr,
    buffer_at in *.
  destruct (is_small_vector_ v) eqn:Hs; simp; [by rewrite Hs|].
  destruct (union_dynamic (store_ v)) as [p|] eqn:Hp; simp; rewrite Hs, ?Hp; [|done].
  rewrite lookup_alter_eq. destruct (heap s !! p) as [b|] eqn:Hb; [|done]. simpl.
  split_and!; try done. apply set_eq. intros q. rewrite !elem_of_dom.
  destruct (decide (p = q)) as [->|Hne].
  - rewrite lookup_alter_eq, Hb. simpl. split; eauto.
  - by rewrite lookup_alter_ne.
Qed.

Lemma set_size_in_place s v s' v' n :
  in_place s v s' v' → in_place s v s' (set_size v' n).
Proof. done. Qed.

Lemma pop_back_in_place s this :
  is_only_vector_ref s this = true →
  ∃ s' this', pop_back s this = Returns s' (this', ()) ∧ in_place s this s' this'.
Proof.
  intros Honly. unfold pop_back, destroy_back. rewrite Honly.
  match goal with |- context [store_data ?a ?b ?c] =>
    pose proof (store_data_in_place a b c) as H; destruct (store_data a b c) as [s1 this1] end.
  eexists _, _. split; [done|]. by apply H.
Qed.

Lemma pop_back_times_in_place k : ∀ s this,
  is_only_vector_ref s this = true →
  ∃ s' this', pop_back_times k s this = Returns s' (this', ()) ∧ in_place s this s' this'.
Proof.
  induction k as [|k IH]; intros s this Honly; simpl.
  - eexists _, _. split; [done|]. by apply in_place_refl.
  - destruct (pop_back_in_place s this Honly) as (s1 & this1 & -> & H1). simpl.
    destruct (IH s1 this1 (proj1 H1)) as (s2 & this2 & -> & H2).
    eexists _, _. split; [done|]. by eapply in_place_trans.
Qed.

(** A vector that is rolled back is, in particular, left in place. *)
Lemma rolled_back_shuffled s this l s' this' :
  rep s this l → rolled_back s this s' this' → shuffled s this s' this' (length l).
Proof.
  intros Hrep (-> & Hh & _). unfold shuffled, capacity, buffer_at. rewrite Hh.
  split_and!; try done. exists l. split; [done|]. by eapply rep_heap.
Qed.

(** [erase] on a vector that alone owns its storage: every element behind
    the range is exchanged once, at the cost of one copy. *)
Lemma erase_in_place s this l first last :
  rep s this l → first ≤ last → last ≤ length l →
  is_only_vector_ref s this = true →
  match erase s this first last with
  | Returns s' (this', it) =>
      is_only_vector_ref s' this' = true
      ∧ const_data_ptr this' = const_data_ptr this
      ∧ capacity s' this' = capacity s this
      ∧ copies s' = copies s + (if decide (first = last) then 0 else length l - last)
      ∧ dom (heap s') = dom (heap s)
  | Throws s' this' => first < last ∧ last < length l
  end.
Proof.
  intros Hrep H1 H2 Honly. unfold erase. rewrite Honly.
  pose proof (rep_size _ _ _ Hrep) as Hsz.
  match goal with |- context [bind (bind ?r _) _] => set (stage := r) end.
  assert (Hstage : match stage with
            | Returns s1 (this1, _) =>
                (in_place s this s1 this1 ∧ first = last) ∨
                (is_only_vector_ref s1 this1 = true
                 ∧ const_data_ptr this1 = const_data_ptr this
                 ∧ capacity s1 this1 = capacity s this
                 ∧ copies s1 = copies s + (length l - last)
                 ∧ dom (heap s1) = dom (heap s) ∧ first ≠ last)
            | Throws _ _ => first < last ∧ last < length l
            end).
  { subst stage. destruct (Nat.eqb_spec (last - first) 0) as [Hz|Hnz]; simpl.
    { left. split; [by apply in_place_refl|lia]. }
    pose proof (shift_down_spec (size this) first (last - first) (size this) s
                  (const_data s this) (length l) (raw (capacity s this - length l))) as H.
    rewrite (rep_const_data _ _ _ Hrep) in *.
    specialize (H (filled_slots_of l _) ltac:(lia)).
    destruct (shift_down _ _ _ _ s _) as [s1 d|s1 d].
    - destruct H as (_ & Hh & _ & Hc).
      assert (Ho1 : is_only_vector_ref s1 this = true).
      { unfold is_only_vector_ref, buffer_at in *. by rewrite Hh. }
      pose proof (store_data_in_place s1 this d Ho1) as H3.
      destruct (store_data s1 this d) as [s2 this1]. simpl in H3.
      destruct H3 as (? & ? & Hcap & ? & ? & ?). right.
      split_and!; try done.
      + rewrite Hcap. unfold capacity, buffer_at. by rewrite Hh.
      + rewrite Hsz in Hc. lia.
      + congruence.
      + lia.
    - destruct (store_data s1 this d) as [s2 this1]. destruct H as (_ & _ & _ & ?). lia. }
  clearbody stage. destruct stage as [s1 [this1 []]|s1 this1]; simpl; [|done].
  assert (Ho1 : is_only_vector_ref s1 this1 = true)
    by (by destruct Hstage as [[(? & _) _]|(? & _)]).
  destruct (pop_back_times_in_place (last - first) s1 this1 Ho1) as (s2 & this2 & -> & H2').
  simpl. rewrite begin_only_ref by apply H2'. simpl.
  destruct H2' as (? & ? & ? & ? & ? & ?).
  destruct Hstage as [[(? & ? & ? & ? & ? & ?) ?]|(? & ? & ? & ? & ? & ?)].
  - split_and!; try congruence. destruct (decide (first = last)); [lia|done].
  - split_and!; try congruence. destruct (decide (first = last)); [done|]. lia.
Qed.
(** [insert] on a vector that alone owns its storage and has room: one
    copy for the new element and one for every element moved behind it. *)
Lemma insert_in_place s this l delta value :
  rep s this l → delta ≤ length l →
  is_only_vector_ref s this = true → size this ≠ capacity s this →
  match insert s this delta value with
  | Returns s' (this', it) =>
      is_only_vector_ref s' this' = true
      ∧ const_data_ptr this' = const_data_ptr this
      ∧ copies s' = copies s + 1 + (length l - delta)
      ∧ dom (heap s') = dom (heap s)
  | Throws _ _ => True
  end.
Proof.
  intros Hrep Hdelta Honly Hfull. unfold insert. rewrite Honly.
  rewrite (proj2 (Nat.eqb_neq _ _) Hfull). cbn [negb andb].
  copyT_step; [|done].
  destruct Hrep as [u l Hl Hu|p cap refs l Hp Hc Hl Hr] eqn:Hr0; clear Hr0; simp.
  - rewrite Hu, insert_slots_of_snoc by lia.
    rotate_step; simp; [|done].
    split_and!; [done|done|lia|congruence].
  - rewrite Hp in *. simp. apply Nat.eqb_eq in Honly as ->.
    rewrite HcT, Hp. heap_norm.
    rewrite insert_slots_of_snoc by lia.
    rotate_step; simp; [|done].
    rewrite Hrot. heap_norm. split_and!; [done|done|lia|].
    apply dom_insert_lookup_L. by rewrite Hp.
Qed.

(** X13. [insert] into a vector that alone owns its storage and is not
    full works in place: when it returns, the storage is where it was with
    the same capacity, no block has been allocated or freed, and the copy
    constructor has run once for the new element and once for every
    element behind it, which an exchange has moved up.  With no fault
    scheduled it returns.  When it throws, on a scheduled fault, either
    the vector and the heap are what they were, as they are when the fault
    hits the construction of the new element, or an exchange has thrown
    and nothing is undone: the vector is on the same storage, well formed
    with one element more. *)
Theorem insert_with_room s this l pos value :
  0 < SMALL_SIZE → rep s this l → pos ≤ length l →
  is_only_vector_ref s this = true → size this ≠ capacity s this →
  match insert s this pos value with
  | Returns s' (this', it) =>
      rep s' this' (take pos l ++ value :: drop pos l)
      ∧ it = {| base := const_data_ptr this; offset := pos |}
      ∧ const_data_ptr this' = const_data_ptr this
      ∧ capacity s' this' = capacity s this
      ∧ is_only_vector_ref s' this' = true
      ∧ copies s' = copies s + 1 + (length l - pos)
      ∧ dom (heap s') = dom (heap s)
  | Throws s' this' =>
      throw_in s ≠ None
      ∧ (restored s this s' this'
         ∨ (pos < length l ∧ throw_in s ≠ Some 0
            ∧ shuffled s this s' this' (S (length l))))
      ∧ (throw_in s = Some 0 ∨ pos = length l → restored s this s' this')
  end
  ∧ (throw_in s = None → ∃ s' this' it, insert s this pos value = Returns s' (this', it)).
Proof.
  intros HN Hrep Hpos Honly Hroom. split; [|by eapply insert_returns].
  pose proof (insert_spec s this l pos value Hrep Hpos HN) as H.
  pose proof (insert_in_place s this l pos value Hrep Hpos Honly Hroom) as H'.
  destruct (insert s this pos value) as [s' [this' it]|s' this'].
  - destruct H as (Htr & -> & Hcap & _). destruct H' as (? & Hptr & ? & ?).
    destruct (Nat.eqb_spec (size this) (capacity s this)) as [|_]; [done|].
    split_and!; try done; [by eapply transition_rep|by rewrite Hptr].
  - destruct H as [H|(Hlt & _ & Hfirst & Hd)].
    + split; [by destruct H as (_ & _ & ?)|]. split; [left|intros _]; by apply rolled_back_restored.
    + destruct (disturbed_shuffled _ _ _ _ _ _ Hrep Hd) as (Ht & _ & Hsh).
      split; [done|]. split; [right; by split_and!|]. intros [?|?]; [done|lia].
Qed.

(** X14. [erase] on a vector that alone owns its storage works in place:
    when it returns, the storage is where it was with the same capacity,
    no block has been allocated or freed, and the copy constructor has run
    once for every element behind the range, which an exchange has moved
    down.  It returns when no fault is scheduled, and whatever is scheduled
    when the range is empty or ends at [end()], since then no element is
    exchanged; the erasure of an empty range leaves the vector exactly as
    it is.  When it throws, an exchange has thrown on a scheduled fault
    and nothing is undone: the vector is on the same storage, well formed
    with as many elements as before, and no element has been popped. *)
Theorem erase_exclusive s this l first last :
  rep s this l → first ≤ last → last ≤ length l →
  is_only_vector_ref s this = true →
  match erase s this first last with
  | Returns s' (this', it) =>
      it = {| base := const_data_ptr this; offset := first |}
      ∧ rep s' this' (take first l ++ drop last l)
      ∧ const_data_ptr this' = const_data_ptr this
      ∧ capacity s' this' = capacity s this
      ∧ is_only_vector_ref s' this' = true
      ∧ copies s' = copies s + (if decide (first = last) then 0 else length l - last)
      ∧ dom (heap s') = dom (heap s)
      ∧ (first = last → s' = s ∧ this' = this)
  | Throws s' this' =>
      throw_in s ≠ None ∧ first < last ∧ last < length l
      ∧ shuffled s this s' this' (length l)
  end
  ∧ (throw_in s = None ∨ first = last ∨ last = length l →
     ∃ s' this' it, erase s this first last = Returns s' (this', it)).
Proof.
  intros Hrep H1 H2 Honly.
  pose proof (erase_spec s this l first last Hrep H1 H2) as H.
  pose proof (erase_in_place s this l first last Hrep H1 H2 Honly) as H'.
  destruct (erase s this first last) as [s' [this' it]|s' this'] eqn:Heq.
  - split; [|eauto]. destruct H as (Htr & -> & _). destruct H' as (? & Hptr & ? & ? & ?).
    split_and!; try done; [by rewrite Hptr|by eapply transition_rep|].
    intros <-. revert Heq. unfold erase. rewrite Honly, Nat.sub_diag. simpl.
    rewrite begin_only_ref by done. simpl. by intros [= <- <-].
  - destruct H' as [Hlt1 Hlt2]. split.
    + destruct H as [H|(_ & _ & Hd)].
      * split_and!; try done; [by destruct H as (_ & _ & ?)|by eapply rolled_back_shuffled].
      * destruct (disturbed_shuffled _ _ _ _ _ _ Hrep Hd) as (Ht & _ & Hsh). by split_and!.
    + intros [Hs|[?|?]]; [|lia..]. exfalso.
      by destruct H as [(_ & _ & ?)|(_ & _ & ? & _)].
Qed.

(** X15. [push_back(x)] appends [x], which is then the element read at
    the old [size()], and leaves the vector the only owner of its storage.
    A [pop_back()] that follows therefore works in place and cannot throw;
    it gives back the elements the vector had before.  If [push_back]
    throws, the vector and the heap are what they were. *)
Theorem push_back_pop_back s this l value :
  0 < SMALL_SIZE → rep s this l →
  match push_back s this value with
  | Returns s1 (this1, _) =>
      rep s1 this1 (l ++ [value]) ∧ size this1 = S (size this)
      ∧ at_const s1 this1 (size this) = Some value
      ∧ is_only_vector_ref s1 this1 = true
      ∧ ∃ s2 this2,
          pop_back s1 this1 = Returns s2 (this2, ())
          ∧ rep s2 this2 l ∧ contents s2 this2 = contents s this
          ∧ const_data_ptr this2 = const_data_ptr this1
          ∧ capacity s2 this2 = capacity s1 this1
          ∧ throw_in s2 = throw_in s1 ∧ copies s2 = copies s1
  | Throws s' this' => restored s this s' this' ∧ throw_in s ≠ None
  end.
Proof.
  intros HN Hrep. pose proof (push_back_spec s this l value Hrep HN) as H.
  destruct (push_back s this value) as [s1 [this1 []]|s' this'].
  2:{ split; [by apply rolled_back_restored|by destruct H as (_ & _ & ?)]. }
  destruct H as (Htr & _). pose proof (transition_rep _ _ _ _ _ Htr) as Hrep1.
  assert (is_only_vector_ref s1 this1 = true) as Honly.
  { apply (transition_only_ref s this l s1 this1 _ Hrep Htr). intros Heq.
    apply (f_equal length) in Heq. rewrite length_snoc in Heq. lia. }
  rewrite (rep_size _ _ _ Hrep1), (rep_size _ _ _ Hrep), length_snoc.
  split_and!; [done..| |done|].
  - rewrite (at_const_rep _ _ _ _ Hrep1). by apply list_lookup_middle.
  - destruct (pop_back_in_place s1 this1 Honly) as (s2 & this2 & Heq & Hin).
    pose proof (pop_back_spec s1 this1 l value Hrep1) as H. rewrite Heq in H.
    destruct H as (Htr2 & _). pose proof (transition_rep _ _ _ _ _ Htr2) as Hrep2.
    destruct Hin as (? & ? & ? & ? & ? & ?).
    exists s2, this2. split_and!; try done.
    by rewrite (rep_contents _ _ _ Hrep2), (rep_contents _ _ _ Hrep).
Qed.

Lemma take_drop_insert_middle {A} (l : list A) pos x :
  pos ≤ length l →
  take pos (take pos l ++ x :: drop pos l) ++ drop (pos + 1) (take pos l ++ x :: drop pos l) = l.
Proof.
  intros Hpos.
  assert (length (take pos l) = pos) as Hlen by (rewrite length_take; lia).
  rewrite take_app_length' by done.
  rewrite drop_app_ge by lia. rewrite Hlen.
  replace (pos + 1 - pos) with 1 by lia. simpl. rewrite drop_0. apply take_drop.
Qed.

(** X16. [insert(pos, x)] followed by [erase] of the iterator it returned
    gives back the elements the vector had, at the same position: the
    insertion leaves the vector the only owner of its storage, so the
    erasure works in place, in the same block, and copies once for every
    element behind the position, which it moves back down.  The erasure
    returns when no fault is scheduled, or when the position was the end;
    when it throws, an exchange has thrown on a scheduled fault and the
    vector is left on its storage, well formed, still with the inserted
    element's worth of size. *)
Theorem insert_erase_round_trip s this l pos value :
  0 < SMALL_SIZE → rep s this l → pos ≤ length l →
  ∀ s1 this1 it,
    insert s this pos value = Returns s1 (this1, it) →
    match erase1 s1 this1 (offset it) with
    | Returns s2 (this2, it2) =>
        it2 = it ∧ rep s2 this2 l ∧ contents s2 this2 = contents s this
        ∧ capacity s2 this2 = capacity s1 this1
        ∧ copies s2 = copies s1 + (length l - pos)
    | Throws s2 this2 =>
        throw_in s1 ≠ None ∧ pos < length l
        ∧ shuffled s1 this1 s2 this2 (S (length l))
    end
    ∧ (throw_in s1 = None ∨ pos = length l →
       ∃ s2 this2, erase1 s1 this1 (offset it) = Returns s2 (this2, it)).
Proof.
  intros HN Hrep Hpos s1 this1 it Heq.
  pose proof (insert_spec s this l pos value Hrep Hpos HN) as H. rewrite Heq in H.
  destruct H as (Htr & -> & _). pose proof (transition_rep _ _ _ _ _ Htr) as Hrep1.
  assert (is_only_vector_ref s1 this1 = true) as Honly.
  { apply (transition_only_ref s this l s1 this1 _ Hrep Htr). intros Hl.
    apply (f_equal length) in Hl. rewrite length_app, length_take in Hl. simpl in Hl.
    rewrite length_drop in Hl. lia. }
  simpl. unfold erase1.
  assert (Hlen : length (take pos l ++ value :: drop pos l) = S (length l)).
  { rewrite length_app, length_take. simpl. rewrite length_drop. lia. }
  pose proof (erase_spec s1 this1 _ pos (pos + 1) Hrep1 ltac:(lia) ltac:(lia)) as H.
  pose proof (erase_in_place s1 this1 _ pos (pos + 1) Hrep1 ltac:(lia) ltac:(lia) Honly) as H'.
  rewrite Hlen in H, H'.
  destruct (erase s1 this1 pos (pos + 1)) as [s2 [this2 it2]|s2 this2].
  - destruct H as (Htr2 & -> & _).
    rewrite take_drop_insert_middle in Htr2 by done.
    pose proof (transition_rep _ _ _ _ _ Htr2) as Hrep2.
    destruct H' as (? & Hptr & ? & Hcopies & ?).
    destruct (decide (pos = pos + 1)) as [|_]; [lia|].
    split; [|rewrite Hptr; eauto].
    split_and!; try done; [by rewrite Hptr| |lia].
    by rewrite (rep_contents _ _ _ Hrep2), (rep_contents _ _ _ Hrep).
  - destruct H' as [_ Hlt]. split.
    + destruct H as [H|(_ & _ & Hd)].
      * split_and!; [by destruct H as (_ & _ & ?)|lia|].
        rewrite <- Hlen. by eapply rolled_back_shuffled.
      * destruct (disturbed_shuffled _ _ _ _ _ _ Hrep1 Hd) as (Ht & _ & Hsh).
        split_and!; [done|lia|done].
    + intros [Hs|?]; [|lia]. exfalso.
      by destruct H as [(_ & _ & ?)|(_ & _ & ? & _)].
Qed.

(** [clear] on a vector that alone owns its storage. *)
Lemma clear_in_place s this :
  is_only_vector_ref s this = true →
  ∃ s' this', clear s this = Returns s' (this', ()) ∧ in_place s this s' this'.
Proof.
  intros Honly. unfold clear. rewrite Honly. simpl.
  match goal with |- context [store_data ?a ?b ?c] =>
    pose proof (store_data_in_place a b c Honly) as H1;
    destruct (store_data a b c) as [s1 this1] end. simpl in H1.
  apply (set_size_in_place _ _ _ _ 0) in H1. rewrite (proj1 H1).
  unfold noexcept_clear. rewrite (proj1 H1). simpl.
  match goal with |- context [store_data ?a ?b ?c] =>
    pose proof (store_data_in_place a b c (proj1 H1)) as H2;
    destruct (store_data a b c) as [s2 this2] end. simpl in H2.
  apply (set_size_in_place _ _ _ _ 0) in H2.
  eexists _, _. split; [done|]. by eapply in_place_trans.
Qed.

(** X17. [clear()] is idempotent.  After a [clear()] that has returned,
    the vector is empty and alone owns its storage, so a second [clear()]
    returns whatever faults are scheduled, and leaves the vector empty on
    the same storage with the same capacity; it allocates nothing and
    copies nothing. *)
Theorem clear_twice s this l :
  rep s this l →
  ∀ s1 this1,
    clear s this = Returns s1 (this1, ()) →
    empty this1 = true ∧ is_only_vector_ref s1 this1 = true
    ∧ ∃ s2 this2,
        clear s1 this1 = Returns s2 (this2, ())
        ∧ rep s2 this2 [] ∧ empty this2 = true
        ∧ const_data_ptr this2 = const_data_ptr this1
        ∧ capacity s2 this2 = capacity s1 this1
        ∧ throw_in s2 = throw_in s1 ∧ copies s2 = copies s1
        ∧ dom (heap s2) = dom (heap s1).
Proof.
  intros Hrep s1 this1 Heq.
  pose proof (clear_spec s this l Hrep) as H. rewrite Heq in H.
  destruct H as (Htr & Hcase & _). pose proof (transition_rep _ _ _ _ _ Htr) as Hrep1.
  assert (is_only_vector_ref s1 this1 = true) as Honly.
  { destruct (is_only_vector_ref s this) eqn:Ho; [|by destruct Hcase].
    destruct (clear_in_place s this Ho) as (s' & this' & Heq' & Hin).
    rewrite Heq in Heq'. injection Heq' as <- <-. apply Hin. }
  unfold empty. rewrite (rep_size _ _ _ Hrep1). split_and!; [done..|].
  destruct (clear_in_place s1 this1 Honly) as (s2 & this2 & Heq2 & Hin).
  pose proof (clear_spec s1 this1 [] Hrep1) as H. rewrite Heq2 in H.
  destruct H as (Htr2 & _). pose proof (transition_rep _ _ _ _ _ Htr2) as Hrep2.
  destruct Hin as (? & ? & ? & ? & ? & ?).
  exists s2, this2. rewrite (rep_size _ _ _ Hrep2). by split_and!.
Qed.

(** X18. Swapping twice puts everything back: after [a.swap(b)] has
    returned, a second [a.swap(b)] that returns leaves both vectors with
    the elements, the mode, the storage address and the capacity they had
    at first, and the heap as it was; with no fault scheduled it returns.
    Between two dynamic vectors neither swap can throw nor copy, and the
    state after the two swaps is the original one.  When the second swap
    throws, on a scheduled fault with one of the two small, the heap is as
    it was and either both vectors hold what the first swap gave them, or
    both are small, an exchange of elements has thrown, and they are well
    formed with the sizes they had at first. *)
Theorem swap_twice s a b la lb :
  rep s a la → rep s b lb →
  ∀ s1 a1 b1,
    swap s a b = Returns s1 (a1, b1) →
    match swap s1 a1 b1 with
    | Returns s2 (a2, b2) =>
        heap s2 = heap s ∧ rep s2 a2 la ∧ rep s2 b2 lb
        ∧ const_data_ptr a2 = const_data_ptr a ∧ const_data_ptr b2 = const_data_ptr b
        ∧ capacity s2 a2 = capacity s a ∧ capacity s2 b2 = capacity s b
        ∧ (is_small_vector_ a = false → is_small_vector_ b = false →
           s2 = s ∧ a2 = a ∧ b2 = b)
    | Throws s2 (a2, b2) =>
        throw_in s1 ≠ None ∧ heap s2 = heap s
        ∧ (is_small_vector_ a = true ∨ is_small_vector_ b = true)
        ∧ ((rep s2 a2 lb ∧ rep s2 b2 la)
           ∨ (is_small_vector_ a = true ∧ is_small_vector_ b = true
              ∧ ∃ la' lb', length la' = length la ∧ length lb' = length lb
                  ∧ rep s2 a2 la' ∧ rep s2 b2 lb'))
    end
    ∧ (throw_in s1 = None → ∃ s2 a2 b2, swap s1 a1 b1 = Returns s2 (a2, b2)).
Proof.
  intros Hra Hrb s1 a1 b1 Heq.
  pose proof (swap_spec s a b la lb Hra Hrb) as H. rewrite Heq in H.
  destruct H as (Hh1 & _ & Hra1 & Hrb1 & Hpa1 & Hpb1).
  assert (Hsmall : ∀ v v', const_data_ptr v' = const_data_ptr v →
            is_small_vector_ v' = is_small_vector_ v).
  { intros v v'. unfold const_data_ptr.
    destruct (is_small_vector_ v), (is_small_vector_ v'),
      (get_dynamic_data v), (get_dynamic_data v'); done. }
  pose proof (swap_spec s1 a1 b1 lb la Hra1 Hrb1) as H.
  assert (Hcap : ∀ s' v v' l l', heap s' = heap s → const_data_ptr v' = const_data_ptr v →
            rep s v l → rep s' v' l' → capacity s' v' = capacity s v).
  { intros s' v v' l l' Hh Hptr Hl Hl'.
    destruct Hl as [|p cap refs l Hp ? ? ?], Hl' as [|p' cap' refs' l' Hp' ? ? ?];
      simp; try done.
    injection Hptr as ->. by rewrite <- Hh, Hp'. }
  assert (Hdyn : is_small_vector_ a = false → is_small_vector_ b = false →
            swap s1 a1 b1 = Returns s (a, b)).
  { intros Ha Hb.
    destruct Hra as [|p1 c1 r1 la Hp1 ? ? ?] eqn:E1; [done|].
    destruct Hrb as [|p2 c2 r2 lb Hp2 ? ? ?] eqn:E2; [done|]. clear E1 E2.
    revert Heq. unfold swap at 1, is_same_vector. simp.
    case_bool_decide as Hpp.
    - intros [= <- <- <-]. subst p2. unfold swap, is_same_vector. simp.
      rewrite bool_decide_eq_true_2 by done.
      assert (la = lb) as -> by (eapply rep_same_block; by eapply rep_dynamic). done.
    - intros [= <- <- <-]. unfold swap, is_same_vector. simp.
      by rewrite bool_decide_eq_false_2 by congruence. }
  destruct (swap s1 a1 b1) as [s2 [a2 b2]|s2 [a2 b2]] eqn:Heq2.
  - split; [|eauto]. destruct H as (Hh2 & _ & Hra2 & Hrb2 & Hpa2 & Hpb2).
    assert (heap s2 = heap s) as Hh by congruence.
    split_and!; try done; try congruence.
    + eapply Hcap; eauto. congruence.
    + eapply Hcap; eauto. congruence.
    + intros Ha Hb. specialize (Hdyn Ha Hb). by injection Hdyn as -> -> ->.
  - destruct H as (Hh2 & Ht & Hs). split; [|done].
    split_and!; [done|congruence| |].
    + destruct (is_small_vector_ a) eqn:Ha; [by left|].
      destruct (is_small_vector_ b) eqn:Hb; [by right|].
      by specialize (Hdyn eq_refl eq_refl).
    + destruct Hs as [[Hsa Hsb]|(Hs1 & Hs2 & _ & _ & _ & _ & _ & la' & lb' & ? & ? & ? & ?)].
      * left. split; (eapply rep_heap; [done|]; by eapply same_state_rep).
      * right. rewrite <- (Hsmall _ _ Hpb1), <- (Hsmall _ _ Hpa1).
        split_and!; try done. by exists la', lb'.
Qed.

(** X19. A copy that is constructed and then destroyed leaves no trace:
    the heap is the one before the copy was made (the count of a shared
    block is back to what it was), and the objects are the same. *)
Theorem copy_then_destroy w i v :
  0 < SMALL_SIZE → reachable w → objs w !! i = Some v →
  objs (world_destroy (world_copy w i) (length (objs w))) = objs w
  ∧ heap (st (world_destroy (world_copy w i) (length (objs w)))) = heap (st w)
  ∧ ∀ k, elements (world_destroy (world_copy w i) (length (objs w))) k = elements w k.
Proof.
  intros HN Hreach Hi. pose proof (reachable_consistent w HN Hreach) as Hc.
  destruct (proj1 Hc i v Hi) as [l Hrep].
  assert (Hgoal : objs (world_destroy (world_copy w i) (length (objs w))) = objs w
                  ∧ heap (st (world_destroy (world_copy w i) (length (objs w)))) = heap (st w)).
  { destruct w as [s os]. simpl in *. unfold world_copy. simpl. rewrite Hi.
    pose proof (copy_construct_spec s v l Hrep) as H.
    destruct (copy_construct s v) as [s' v'|s' []]; unfold world_destroy; simpl.
    - rewrite lookup_app_r, Nat.sub_diag by done. simpl.
      split.
      { rewrite delete_take_drop, take_app_length, drop_app_ge by lia.
        replace (S (length os) - length os) with 1 by lia. simpl.
        by rewrite app_nil_r. }
      destruct H as (_ & _ & Hptr & _ & H). destruct (is_small_vector_ v) eqn:Hs.
      + destruct H as [Hh _]. rewrite destructor_small; [done|].
        unfold const_data_ptr in Hptr. rewrite Hs in Hptr.
        destruct (is_small_vector_ v'); [done|]. by destruct (get_dynamic_data v').
      + destruct H as [-> ->]. destruct Hrep as [|p cap refs l Hp ? ? ?]; [done|].
        rewrite destructor_dynamic, (add_vector_ref_heap _ _ _ _ Hp).
        rewrite (release_block_shared _ _ _ (lookup_insert_eq _ _ _)) by (simpl; lia).
        simpl. rewrite insert_insert_eq.
        rewrite Nat.sub_0_r. by apply insert_id.
    - rewrite lookup_ge_None_2 by done. simpl. by destruct H as (_ & ? & _). }
  destruct Hgoal as [Ho Hh]. split_and!; [done..|].
  intros k. unfold elements. rewrite Ho. destruct (objs w !! k) as [vk|] eqn:Hk; [|done].
  destruct (proj1 Hc k vk Hk) as [lk Hrepk].
  rewrite (rep_contents _ _ _ Hrepk). apply rep_contents. by eapply rep_heap.
Qed.

(** The calls whose argument is a capacity must ask for a representable
    one. *)
Definition in_range (sizeof_T : N) (c : call) : Prop :=
  match c with
  | call_reserve k => representable sizeof_T k
  | _ => True
  end.

(** X20. Every mutating method ([push_back], [pop_back], [insert], both
    [erase], [reserve] of a representable capacity, [shrink_to_fit],
    [clear], a write through [operator[]], the non-const [data()]), called
    within its precondition: when it returns, the vector holds the
    sequence the method is to produce, and it alone owns its storage if
    that sequence differs from the old one; with no fault scheduled it
    returns.  It throws only when a fault is scheduled, and then the vector
    and the heap are what they were, with one exception: an [insert]
    before the end or an [erase] of a non-empty range before the end, on a
    vector that alone owns its storage, moves elements by exchanges that
    copy, and when such an exchange throws the vector stays on its storage,
    well formed, with the elements partly moved ([insert]: one more than
    before; [erase]: as many as before). *)
Theorem mutators_contract sizeof_T c s this l :
  0 < SMALL_SIZE → rep s this l → allowed c l → in_range sizeof_T c →
  match run c s this with
  | Returns s' (this', _) =>
      rep s' this' (effect c l)
      ∧ contents s' this' = Some <$> effect c l
      ∧ size this' = length (effect c l)
      ∧ (effect c l ≠ l → is_only_vector_ref s' this' = true)
      ∧ (throw_in s = None → throw_in s' = None)
  | Throws s' this' =>
      throw_in s ≠ None
      ∧ (restored s this s' this'
         ∨ (shifts c l ∧ is_only_vector_ref s this = true
            ∧ shuffled s this s' this' (shifted_size c l)))
  end
  ∧ (throw_in s = None → ∃ s' this', run c s this = Returns s' (this', ())).
Proof.
  intros HN Hrep Hal _. pose proof (run_spec c s this l HN Hrep Hal) as H.
  assert (Hthrow : ∀ s' this', run c s this = Throws s' this' → throw_in s ≠ None).
  { intros s' this' Heq. rewrite Heq in H.
    destruct H as [(_ & _ & ?)|[_ Hd]]; [done|].
    by destruct (disturbed_shuffled _ _ _ _ _ _ Hrep Hd). }
  split.
  2:{ intros Hs. destruct (run c s this) as [s' [this' []]|s' this']; [eauto|].
      by destruct (Hthrow _ _ eq_refl). }
  destruct (run c s this) as [s' [this' []]|s' this'].
  - destruct H as [Htr Ht]. pose proof (transition_rep _ _ _ _ _ Htr) as Hrep'.
    split_and!; [done|by apply rep_contents|by apply (rep_size s')| |done].
    by apply (transition_only_ref s this l s' this' _ Hrep Htr).
  - split; [by eapply Hthrow|]. destruct H as [H|[Hsh Hd]].
    + left. by apply rolled_back_restored.
    + right. destruct (disturbed_shuffled _ _ _ _ _ _ Hrep Hd) as (_ & ? & ?). by split_and!.
Qed.

(** X21. Vectors are independent values, whatever their history: for any
    two distinct vectors of a program, whether or not they share a block,
    a mutating method called on one, returning or throwing, leaves the
    other reading exactly as before.  The one called reads as the method's
    result, which it does when no fault is scheduled; or, after a throw,
    as before; or else, when an exchange of elements has thrown inside an
    [insert] or [erase] working in place, as some sequence of elements,
    one more than before for [insert] and as many as before for [erase]. *)
Theorem method_call_isolation sizeof_T w i j v l c :
  0 < SMALL_SIZE → reachable w → i ≠ j →
  objs w !! i = Some v → rep (st w) v l → allowed c l → in_range sizeof_T c →
  elements (world_call w i c) j = elements w j
  ∧ (elements (world_call w i c) i = Some <$> effect c l
     ∨ (throw_in (st w) ≠ None
        ∧ (elements (world_call w i c) i = elements w i
           ∨ (shifts c l
              ∧ ∃ l' : list T, elements (world_call w i c) i = Some <$> l'
                  ∧ length l' = shifted_size c l))))
  ∧ (throw_in (st w) = None → elements (world_call w i c) i = Some <$> effect c l).
Proof.
  intros HN Hreach Hij Hi Hrep Hal _.
  pose proof (reachable_consistent w HN Hreach) as Hc.
  split; [by eapply world_call_frame|].
  pose proof (elements_rep w i v l Hi Hrep) as Hei.
  pose proof (run_spec c (st w) v l HN Hrep Hal) as H.
  assert (Hlt : i < length (objs w)) by (by eapply lookup_lt_Some).
  unfold world_call. rewrite Hi.
  destruct (run c (st w) v) as [s' [v' []]|s' v'].
  - destruct H as [Htr _]. pose proof (transition_rep _ _ _ _ _ Htr) as Hrep'.
    assert (elements {| st := s'; objs := <[i := v']> (objs w) |} i = Some <$> effect c l) as He.
    { eapply elements_rep; [|done]. by apply list_lookup_insert_eq. }
    split; [by left|done].
  - destruct H as [(-> & Hh & Ht)|[Hsh Hd]].
    + assert (elements {| st := s'; objs := <[i := v]> (objs w) |} i = Some <$> l) as He.
      { eapply elements_rep; [by apply list_lookup_insert_eq|]. by eapply rep_heap. }
      split; [right; split; [done|left; congruence]|done].
    + destruct (disturbed_shuffled _ _ _ _ _ _ Hrep Hd) as (Ht & _ & (l' & Hl' & Hrep') & _).
      assert (elements {| st := s'; objs := <[i := v']> (objs w) |} i = Some <$> l') as He.
      { eapply elements_rep; [by apply list_lookup_insert_eq|done]. }
      split; [|done]. right. split; [done|]. right. split; [done|]. by exists l'.
Qed.

(** X22. The test [is_only_vector_ref()] is exact: for a dynamic vector
    of a program it answers true exactly when no other vector points to
    the same block.  A vector therefore unshares only when another vector
    really reads the same storage, and never writes into storage that
    another vector reads. *)
Theorem only_ref_exact w i v :
  0 < SMALL_SIZE → reachable w → objs w !! i = Some v → is_small_vector_ v = false →
  is_only_vector_ref (st w) v = true
  ↔ ∀ j vj, j ≠ i → objs w !! j = Some vj → const_data_ptr vj ≠ const_data_ptr v.
Proof.
  intros HN Hreach Hi Hdyn. pose proof (reachable_consistent w HN Hreach) as [Hwf Hcount].
  destruct (Hwf i v Hi) as [l Hrep].
  destruct Hrep as [|p cap refs l Hp Hc Hl Hr] eqn:E; [done|]. clear E.
  rewrite (rep_is_only_dynamic _ _ _ _ _ _ Hp), Nat.eqb_eq.
  specialize (Hcount p _ Hp). simpl in Hcount.
  pose proof (owners_insert p (objs w) i _ default_vector Hi) as Hins.
  rewrite (count_own_small default_vector) in Hins by done.
  unfold count_own in Hins at 1. rewrite decide_True in Hins by (by apply owns_dynamic).
  split.
  - intros -> j vj Hji Hj Hptr.
    assert (2 ≤ owners p (objs w)); [|lia].
    eapply (owners_two p (objs w) i j); [done..|by apply owns_dynamic|done].
  - intros Hno. rewrite owners_zero in Hins; [lia|].
    intros j vj Hj Hown. destruct (decide (j = i)) as [->|Hji].
    + rewrite list_lookup_insert_eq in Hj by (by eapply lookup_lt_Some).
      injection Hj as <-. by eapply owns_small.
    + rewrite list_lookup_insert_ne in Hj by done. by eapply Hno.
Qed.

(** X23. [erase] on a vector that shares its block never writes into the
    block.  It builds a fresh block of the same capacity that holds the
    elements that stay, each copied exactly once, and leaves the old
    block, elements untouched, counted once less; this also happens for an
    empty range.  If a copy or the allocation throws, the vector and the
    heap are what they were. *)
Theorem erase_shared s this l first last :
  rep s this l → first ≤ last → last ≤ length l →
  is_only_vector_ref s this = false →
  match erase s this first last with
  | Returns s' (this', it) =>
      rep s' this' (take first l ++ drop last l)
      ∧ it = {| base := heap_ptr (fresh (dom (heap s))); offset := first |}
      ∧ const_data_ptr this' = heap_ptr (fresh (dom (heap s)))
      ∧ capacity s' this' = capacity s this
      ∧ is_only_vector_ref s' this' = true
      ∧ copies s' = copies s + (length l - (last - first))
      ∧ ∀ p b, owns this p → heap s !! p = Some b →
          heap s' !! p = Some (set_refs b (refs_count b - 1)) ∧ 1 ≤ refs_count b - 1
  | Throws s' this' => restored s this s' this' ∧ throw_in s ≠ None
  end.
Proof.
  intros Hrep Hfl Hlast Honly. unfold erase. rewrite Honly.
  assert (Hlen : length (take first l ++ drop last l) = length l - (last - first)).
  { rewrite length_app, length_take, length_drop. lia. }
  destruct Hrep as [u l Hl Hu|p cap refs l Hp Hc Hl Hr] eqn:Hr0; clear Hr0; [done|].
  assert (refs ≠ 1) as Hrefs.
  { simp. rewrite Hp in Honly. simpl in Honly. by apply Nat.eqb_neq in Honly. }
  assert (p ≠ fresh (dom (heap s))) as Hpf by (intros ->; by rewrite fresh_heap in Hp).
  simp. rewrite Hp in *. simp.
  pose proof (construct_from_copies s _ l first cap Hrep ltac:(lia) ltac:(lia) Hc) as Hcop.
  construct_step Hrep; simp; [| |lia..].
  2:{ split; [|done]. unfold restored, contents. simp. by rewrite Hheap. }
  rewrite begin_only_ref by (simp; by rewrite Hheap, lookup_insert_eq). simp.
  pose proof (rep_insert_fresh _ _ _ _ _ _ Hrep (fresh_heap _) Hheap) as Hrep1.
  replace (first + (last - first)) with last by lia.
  match goal with |- context [drop last (take (length l) ?d)] =>
    change d with (const_data s0 {| size_ := length l; is_small_vector_ := false;
                                    store_ := dynamic_data (Some p) |}) end.
  rewrite (rep_drop_take _ _ _ _ Hrep1).
  rewrite Hheap, lookup_insert_eq. simp.
  copy_step (take first l) (drop last l) cap;
    [done|done|rewrite length_take; lia|rewrite length_take, length_drop; lia| |]; simp.
  - match goal with |- context [swap ?st _ _] =>
      edestruct (adopt_fresh s st _ _ (length l - (last - first))
                   {| capacity_ := cap; refs_count := 1;
                      data_ := slots_of (take first l ++ drop last l) cap |} Hrep eq_refl)
        as (s' & Heq & _ & Hh' & Ht') end.
    { simpl. rewrite Hheap0, Hheap. by heap_norm. }
    assert (copies s' = copies s + (length l - (last - first))) as Hcopies.
    { revert Heq. rewrite swap_dynamic_dynamic by done. simpl. intros [= <-].
      rewrite destructor_copies. simpl.
      match goal with H : copies s1 = _ |- _ => rewrite H end.
      rewrite Hcop, length_fmap, length_drop. lia. }
    rewrite Heq. simp.
    rewrite begin_only_ref by (simp; by rewrite Hh', lookup_insert_eq). simp.
    rewrite Hh', lookup_insert_eq. simp.
    split_and!; try done.
    + rewrite <- Hlen.
      eapply rep_dynamic_intro; [done|by rewrite Hh', lookup_insert_eq|done|lia|done].
    + intros q b <-%owns_dynamic Hq. rewrite Hp in Hq. injection Hq as <-. simpl.
      rewrite lookup_insert_ne by done.
      rewrite release_vector_ref_dynamic, (release_block_shared _ _ _ Hp) by (simpl; lia).
      rewrite lookup_insert_eq. split; [done|lia].
  - assert (heap (destructor
               (set_heap s1 (alter (λ b, set_data b (slots_of (take first l) cap))
                               (fresh (dom (heap s))) (heap s1)))
               {| size_ := first; is_small_vector_ := false;
                  store_ := dynamic_data (Some (fresh (dom (heap s)))) |}) = heap s) as Hd.
    { eapply destructor_fresh; [|apply fresh_heap]. simp. rewrite Hheap0, Hheap. by heap_norm. }
    split; [|naive_solver]. unfold restored, contents. simp. by rewrite Hd.
Qed.

(** ** The cost of an [insert] that reallocates *)

Lemma noexcept_clear_size s v : size (noexcept_clear s v).2 = 0.
Proof.
  unfold noexcept_clear.
  destruct (negb (is_only_vector_ref s v)).
  - by destruct (get_dynamic_data v).
  - by destruct (store_data s v _).
Qed.

(** A swap with an empty vector copies nothing. *)
Lemma swap_copies_empty s this other :
  size this = 0 → is_small_vector_ other = false →
  match swap s this other with
  | Returns s' _ | Throws s' _ => copies s' = copies s
  end.
Proof.
  intros Hsize Hother. unfold swap.
  destruct (is_same_vector this other); [done|].
  rewrite Hother, andb_false_r.
  destruct (is_small_vector_ this); [|done].
  unfold swap_dynamic_small. rewrite Hsize. simpl.
  pose proof (noexcept_clear_copies s this) as H.
  by destruct (noexcept_clear s this).
Qed.

Lemma insert_commit_copies s7 this tmp s9 r :
  (let '(s8, this1) := noexcept_clear s7 this in leave_scope (swap s8 this1 tmp))
  = Returns s9 r →
  is_small_vector_ tmp = false →
  copies s9 = copies s7.
Proof.
  intros Heq Htmp. revert Heq. pose proof (noexcept_clear_copies s7 this) as H1.
  pose proof (noexcept_clear_size s7 this) as H2.
  destruct (noexcept_clear s7 this) as [s8 this1]. simpl in H1, H2.
  pose proof (swap_copies_empty s8 this1 tmp H2 Htmp) as H3.
  destruct (swap s8 this1 tmp) as [s' [a b]|s' [a b]]; simpl; [|done].
  intros [= <- _]. rewrite destructor_copies. congruence.
Qed.

Lemma store_data_copies s v d : copies (store_data s v d).1 = copies s.
Proof.
  unfold store_data. destruct (is_small_vector_ v); [done|].
  by destruct (get_dynamic_data v).
Qed.

(** The second branch of [insert]: where the vector ends up and how many
    elements are copied. *)
Lemma insert_realloc_cost s this l delta value :
  rep s this l → delta ≤ length l → 0 < SMALL_SIZE →
  negb (size this =? capacity s this) && is_only_vector_ref s this = false →
  match insert s this delta value with
  | Returns s' (this', _) =>
      const_data_ptr this' = heap_ptr (fresh (dom (heap s)))
      ∧ copies s' = copies s + length l + 1
  | Throws _ _ => True
  end.
Proof.
  intros Hrep Hdelta HN Hbranch. unfold insert. rewrite Hbranch.
  pose proof (rep_size _ _ _ Hrep) as Hsize.
  pose proof (rep_capacity _ _ _ Hrep) as [Hcapl HcapN].
  pose proof (length_inserted l value delta Hdelta) as Hlen.
  set (cap' := if size this =? capacity s this then 2 * capacity s this
               else capacity s this).
  assert (Hcap' : SMALL_SIZE < cap' ∧ S (length l) ≤ cap').
  { subst cap'. destruct (Nat.eqb_spec (size this) (capacity s this)) as [Heq|Hneq]; [lia|].
    simpl in Hbranch.
    destruct Hrep as [u l Hl Hu|p cap refs l Hp Hc Hl Hr]; simp; [done|].
    rewrite Hp in *. simp. lia. }
  destruct Hcap' as [HcapN' Hcapl'].
  match goal with |- context [allocate_dynamic_buffer ?a ?b ?c] =>
    pose proof (allocate_dynamic_buffer_spec a b c) as Ha;
    destruct (allocate_dynamic_buffer a b c) as [s1 v1|s1 v1] end; [|done].
  destruct Ha as (-> & Hh1 & Ht1 & Hc1).
  pose proof (rep_insert_fresh _ _ _ _ _ _ Hrep (fresh_heap _) Hh1) as Hrep1.
  set (p' := fresh (dom (heap s))) in *.
  unfold default_vector. simp.
  rewrite (rep_take _ _ _ _ Hrep1) by lia.
  rewrite Hh1, lookup_insert_eq. simp.
  copy_step (@nil T) (take delta l) cap'; [done..|simpl; rewrite length_take; lia| |]; simp;
    [|done].
  rewrite Hheap, Hh1. heap_norm. simpl app.
  copyT_step; simp; [|done].
  rewrite HcT. heap_norm. rewrite insert_slots_of_take by lia.
  match goal with |- context [const_data ?st this] =>
    assert (Hrep5 : rep st this l)
      by (eapply rep_insert_fresh; [exact Hrep|apply fresh_heap|done]);
    rewrite Hsize, (rep_drop_take _ _ _ _ Hrep5)
  end.
  copy_step (take delta l ++ [value]) (drop delta l) cap';
    [done|done|rewrite length_snoc, length_take; lia
    |rewrite length_snoc, length_take, length_drop; lia| |]; simp; [|done].
  rewrite Hheap0. heap_norm. rewrite <- app_assoc. simpl app.
  replace (length l + 1) with (length (take delta l ++ value :: drop delta l)) by lia.
  match goal with |- context [noexcept_clear ?st this] =>
    edestruct (insert_commit s st this l cap' (take delta l ++ value :: drop delta l) Hrep)
      as (s9 & Hcommit & Hh9 & Ht9); [done|lia|done|];
    pose proof (insert_commit_copies _ _ _ _ _ Hcommit eq_refl) as Hc9;
    destruct (noexcept_clear st this) as [s8 this1]
  end.
  fold p' in Hcommit, Hh9. rewrite Hcommit. simp.
  rewrite begin_only_ref by (simp; by rewrite Hh9, lookup_insert_eq).
  simp. split; [done|].
  simpl in Hc9. rewrite Hc9, H4, H2, H0, Hc1, !length_fmap, length_take, length_drop. lia.
Qed.

(** X24. [insert] into a vector that is full or shares its block never
    writes into the old storage.  It builds a fresh block, of twice the
    capacity when the vector was full and of the same capacity otherwise,
    copying every old element exactly once and the new element once, and
    only then lets go of the old storage: a block the vector alone owned
    is freed, a shared block stays, elements untouched, counted once less.
    If a copy or the allocation throws, the vector and the heap are what
    they were. *)
Theorem insert_reallocating s this l pos value :
  0 < SMALL_SIZE → rep s this l → pos ≤ length l →
  size this = capacity s this ∨ is_only_vector_ref s this = false →
  match insert s this pos value with
  | Returns s' (this', it) =>
      rep s' this' (take pos l ++ value :: drop pos l)
      ∧ it = {| base := heap_ptr (fresh (dom (heap s))); offset := pos |}
      ∧ const_data_ptr this' = heap_ptr (fresh (dom (heap s)))
      ∧ is_only_vector_ref s' this' = true
      ∧ capacity s' this' = (if size this =? capacity s this
                             then 2 * capacity s this else capacity s this)
      ∧ copies s' = copies s + length l + 1
      ∧ ∀ p b, owns this p → heap s !! p = Some b →
          heap s' !! p = if refs_count b =? 1 then None
                         else Some (set_refs b (refs_count b - 1))
  | Throws s' this' => restored s this s' this' ∧ throw_in s ≠ None
  end.
Proof.
  intros HN Hrep Hpos Hcase.
  assert (negb (size this =? capacity s this) && is_only_vector_ref s this = false) as Hbranch.
  { destruct Hcase as [->| ->]; [by rewrite Nat.eqb_refl|by rewrite andb_false_r]. }
  pose proof (insert_spec s this l pos value Hrep Hpos HN) as H.
  pose proof (insert_realloc_cost s this l pos value Hrep Hpos HN Hbranch) as H'.
  destruct (insert s this pos value) as [s' [this' it]|s' this'].
  2:{ destruct H as [H|(_ & Hne & _ & (_ & Ho & _))].
      - split; [by apply rolled_back_restored|by destruct H as (_ & _ & ?)].
      - exfalso. destruct Hcase as [?|?]; [done|congruence]. }
  destruct H as (Htr & -> & Hcap & _). destruct H' as [Hptr Hcop].
  pose proof (transition_rep _ _ _ _ _ Htr) as Hrep'.
  split_and!; [done|by rewrite Hptr|done| | |done|].
  - apply (transition_only_ref s this l s' this' _ Hrep Htr). intros Hl.
    apply (f_equal length) in Hl. rewrite length_inserted in Hl by done. lia.
  - destruct (size this =? capacity s this); [by destruct Hcap|done].
  - intros p b Hown Hp.
    destruct (transition_old_block _ _ _ _ _ _ p b Hrep Htr Hp) as [_ Hyes].
    destruct (Hyes Hown) as [(Hown' & _)|(_ & Hp')]; [|done].
    unfold owns in Hown'. rewrite Hptr in Hown'. injection Hown' as <-.
    by rewrite fresh_heap in Hp.
Qed.

(** ** Growth by [push_back] *)

(** [for (x : xs) v.push_back(x)]. *)
Fixpoint push_back_all (xs : list T) (s : state) (v : socow_vector) : method unit :=
  match xs with
  | [] => Returns s (v, ())
  | x :: xs' => let! (s1, v1, _) := push_back s v x in push_back_all xs' s1 v1
  end.

Lemma push_back_all_spec xs : ∀ s v l k,
  0 < SMALL_SIZE → rep s v l → throw_in s = None →
  capacity s v = SMALL_SIZE * 2 ^ k → (k = 0 ∨ SMALL_SIZE * 2 ^ (k - 1) < length l) →
  ∃ s' v' k',
    push_back_all xs s v = Returns s' (v', ())
    ∧ rep s' v' (l ++ xs) ∧ throw_in s' = None
    ∧ capacity s' v' = SMALL_SIZE * 2 ^ k'
    ∧ (k' = 0 ∨ SMALL_SIZE * 2 ^ (k' - 1) < length (l ++ xs)).
Proof.
  induction xs as [|x xs IH]; intros s v l k HN Hrep Ht Hcap Hk; simpl.
  - exists s, v, k. rewrite app_nil_r. by split_and!.
  - pose proof (push_back_spec s v l x Hrep HN) as H.
    pose proof (rep_size _ _ _ Hrep) as Hsz.
    pose proof (rep_capacity _ _ _ Hrep) as [Hlc _].
    destruct (push_back s v x) as [s1 [v1 []]|s1 v1]; [|by destruct H as (_ & _ & ?)].
    destruct H as (Htr & Hc1 & Ht1). pose proof (transition_rep _ _ _ _ _ Htr) as Hrep1.
    simpl.
    assert (∃ k1, capacity s1 v1 = SMALL_SIZE * 2 ^ k1
                  ∧ (k1 = 0 ∨ SMALL_SIZE * 2 ^ (k1 - 1) < length (l ++ [x])))
      as (k1 & Hcap1 & Hk1).
    { rewrite length_snoc. destruct (Nat.eqb_spec (size v) (capacity s v)) as [Hfull|Hroom].
      - destruct Hc1 as [Hc1 _]. exists (S k). split.
        + rewrite Hc1, Hcap, Nat.pow_succ_r'. lia.
        + right. simpl. rewrite Nat.sub_0_r. lia.
      - exists k. split; [congruence|]. destruct Hk as [?|?]; [by left|right; lia]. }
    destruct (IH s1 v1 (l ++ [x]) k1 HN Hrep1 (Ht1 Ht) Hcap1 Hk1)
      as (s' & v' & k' & Heq & Hrep' & Ht' & Hcap' & Hk').
    rewrite <- app_assoc in Hrep', Hk'. simpl in Hrep', Hk'.
    exists s', v', k'. by split_and!.
Qed.

(** X25. Growth by doubling.  Starting from an empty vector and with no
    fault scheduled, any sequence of [push_back]s returns and leaves a
    vector that holds the elements pushed, whose capacity is [SMALL_SIZE]
    times a power of two: the smallest one that holds them.  So the
    capacity never reaches twice the size once the inline storage has
    been left. *)
Theorem push_back_growth xs s :
  0 < SMALL_SIZE → throw_in s = None →
  ∃ s' v' k,
    push_back_all xs s default_vector = Returns s' (v', ())
    ∧ rep s' v' xs ∧ contents s' v' = Some <$> xs
    ∧ capacity s' v' = SMALL_SIZE * 2 ^ k
    ∧ length xs ≤ capacity s' v'
    ∧ (k = 0 ∨ capacity s' v' < 2 * length xs).
Proof.
  intros HN Ht.
  destruct (push_back_all_spec xs s default_vector [] 0 HN (rep_default s) Ht)
    as (s' & v' & k & Heq & Hrep & _ & Hcap & Hk).
  { unfold capacity. simpl. lia. }
  { by left. }
  simpl in Hrep, Hk. exists s', v', k.
  split_and!; [done|done|by apply rep_contents|done|by apply (rep_capacity _ _ _ Hrep)|].
  destruct Hk as [?|Hk]; [by left|right].
  destruct k as [|k]; [simpl in *; lia|].
  rewrite Hcap, Nat.pow_succ_r'. simpl in Hk. rewrite Nat.sub_0_r in Hk. lia.
Qed.

(** ** The three-argument constructor *)

(** X26. The constructor [socow_vector(other, new_size, new_capacity)]
    that every reallocation goes through, called with a capacity whose
    allocation size is representable.  It builds a vector holding the
    first [new_size] elements of [other], each copied once, in the inline
    storage when [new_capacity <= SMALL_SIZE] and in a block of capacity
    [new_capacity] at a fresh address otherwise; [other] and every block
    of the heap are untouched.  If a copy or the allocation throws, the
    block it had allocated is freed: the heap is what it was. *)
Theorem construct_from_contract sizeof_T s other l n cap' :
  rep s other l → n ≤ length l → n ≤ cap' → representable sizeof_T cap' →
  match construct_from s other n cap' with
  | Returns s' this' =>
      rep s' this' (take n l) ∧ rep s' other l
      ∧ is_small_vector_ this' = bool_decide (cap' ≤ SMALL_SIZE)
      ∧ capacity s' this' = cap' `max` SMALL_SIZE
      ∧ is_only_vector_ref s' this' = true
      ∧ copies s' = copies s + n
      ∧ (throw_in s = None → throw_in s' = None)
      ∧ (if is_small_vector_ this' then heap s' = heap s
         else const_data_ptr this' = heap_ptr (fresh (dom (heap s)))
              ∧ ∀ p, p ≠ fresh (dom (heap s)) → heap s' !! p = heap s !! p)
  | Throws s' _ => heap s' = heap s ∧ throw_in s ≠ None
  end.
Proof.
  intros Hrep Hn Hcap _.
  destruct (decide (cap' ≤ SMALL_SIZE)) as [Hsmall|Hdyn].
  - unfold construct_from. rewrite bool_decide_eq_true_2 by done. simp.
    rewrite (rep_take _ _ _ _ Hrep) by done.
    copy_step (@nil T) (take n l) SMALL_SIZE;
      [done|by rewrite slots_of_nil|done|simpl; rewrite length_take; lia| |]; simp.
    + split_and!; try done.
      * apply rep_small_intro; simpl; [rewrite length_take; lia|rewrite length_take; lia|done].
      * by eapply rep_heap.
      * lia.
      * match goal with H : copies _ = _ |- _ => rewrite H end.
        rewrite length_fmap, length_take. lia.
    + done.
  - pose proof (construct_from_spec s other l n cap' Hrep Hn Hcap ltac:(lia)) as H.
    pose proof (construct_from_copies s other l n cap' Hrep Hn Hcap ltac:(lia)) as Hc.
    destruct (construct_from s other n cap') as [s' this'|s' []]; [|done].
    destruct H as (-> & Hh & Ht). simp. rewrite Hh, lookup_insert_eq. simp.
    split_and!; try done.
    + eapply rep_dynamic_intro;
        [by rewrite length_take, Nat.min_l|by rewrite Hh, lookup_insert_eq|lia
        |rewrite length_take; lia|done].
    + eapply rep_insert_fresh; [done|apply fresh_heap|done].
    + by rewrite bool_decide_eq_false_2.
    + lia.
    + intros p Hp. by rewrite lookup_insert_ne.
Qed.

(** ** Symmetry of [swap] *)

Lemma is_same_vector_sym a b : is_same_vector a b = is_same_vector b a.
Proof.
  unfold is_same_vector. destruct (const_data_ptr a), (const_data_ptr b); try done.
  apply bool_decide_ext. naive_solver.
Qed.

Lemma flip_pair_involutive {A E : Type} (r : outcome (A * A) (E * E)) :
  flip_pair (flip_pair r) = r.
Proof. by destruct r as [s [a b]|s [a b]]. Qed.

(** Two outcomes agree: both return, the same state and the same
    vectors, or both throw, in the same state. *)
Definition agree {A E : Type} (r r' : outcome A E) : Prop :=
  match r, r' with
  | Returns s1 a1, Returns s2 a2 => s1 = s2 ∧ a1 = a2
  | Throws s1 _, Throws s2 _ => s1 = s2
  | _, _ => False
  end.

Lemma agree_refl {A E : Type} (r : outcome A E) : agree r r.
Proof. by destruct r. Qed.

Lemma std_swap_sym s x y : agree (std_swap s y x) (flip_pair (std_swap s x y)).
Proof.
  unfold std_swap. destruct (copy_T s) as [s1|]; [|done].
  destruct (assign_T s1) as [s2|]; [|done]. by destruct (assign_T s2).
Qed.

Lemma swap_elements_sym fuel : ∀ i n s (a b : list slot),
  agree (swap_elements fuel i n s b a) (flip_pair (swap_elements fuel i n s a b)).
Proof.
  induction fuel as [|fuel IH]; intros i n s a b; simpl; [done|].
  destruct (i <? n); [|done].
  pose proof (std_swap_sym s (slot_at a i) (slot_at b i)) as H.
  destruct (std_swap s (slot_at b i) (slot_at a i)) as [s1 [x y]|s1 [x y]],
           (std_swap s (slot_at a i) (slot_at b i)) as [s2 [x' y']|s2 [x' y']];
    simpl in H; try done.
  destruct H as [-> [= -> ->]]. apply IH.
Qed.

Lemma swap_small_small_sym s a b :
  is_small_vector_ a = true → is_small_vector_ b = true → size a = size b →
  agree (swap_small_small s b a) (flip_pair (swap_small_small s a b)).
Proof.
  intros Ha Hb Hsize. unfold swap_small_small.
  rewrite Hsize, !drop_ge by (rewrite length_take; lia). simpl.
  rewrite !pop_back_small_while_done by (simp; lia). unfold const_data. simp.
  rewrite Hsize, Ha, Hb.
  pose proof (swap_elements_sym (size_ b) 0 (size_ b) s (union_static (store_ b))
                (union_static (store_ a))) as H.
  destruct (swap_elements _ _ _ s (union_static (store_ a)) _) as [s1 [x y]|s1 [x y]],
           (swap_elements _ _ _ s (union_static (store_ b)) _) as [s2 [x' y']|s2 [x' y']];
    simpl in *; try done.
  by destruct H as [-> [= -> ->]].
Qed.

(** X27. [swap] is symmetric: [b.swap(a)] returns exactly when [a.swap(b)]
    does, with the same two vectors, the same heap, fault schedule and
    copy counter; and it throws exactly when [a.swap(b)] does, in the same
    state of the heap, the fault schedule and the copy counter.  Unless
    both vectors are small with as many elements, [b.swap(a)] is carried
    out as [a.swap(b)] or the other way round, and what a throw leaves in
    the two vectors is the same too. *)
Theorem swap_symmetric s a b :
  agree (swap s b a) (flip_pair (swap s a b))
  ∧ (is_small_vector_ a = false ∨ is_small_vector_ b = false ∨ size a ≠ size b →
     swap s b a = flip_pair (swap s a b)).
Proof.
  unfold swap. rewrite (is_same_vector_sym b a).
  destruct (is_same_vector a b); [done|].
  destruct (is_small_vector_ a) eqn:Ha, (is_small_vector_ b) eqn:Hb; simpl.
  - destruct (Nat.ltb_spec (size a) (size b)), (Nat.ltb_spec (size b) (size a)); try lia.
    + split; [apply agree_refl|done].
    + rewrite flip_pair_involutive. split; [apply agree_refl|done].
    + split; [apply swap_small_small_sym; [done..|lia]|]. intros [?|[?|?]]; try done. lia.
  - rewrite flip_pair_involutive. split; [apply agree_refl|done].
  - split; [apply agree_refl|done].
  - done.
Qed.

End socow_vector.

Arguments Returns {T A E} s a.
Arguments Throws {T A E} s e.
Arguments dynamic_data {T} p.
Arguments static_buffer {T} a.
Arguments world {T}.
Arguments initial {T}.

(** * Worked examples

    Vectors of natural numbers with an inline capacity of two. *)

(** The element type: a failed copy assignment leaves its target as it
    was. *)
Definition keep (target source : nat) : nat := target.

(** One empty vector. *)
Definition world_empty : @world nat :=
  {| st := st initial; objs := objs initial ++ [default_vector] |}.

(** One vector holding 1, 2, 3: the third [push_back] has moved it to a
    block of capacity four at address 1. *)
Definition world_123 : @world nat :=
  world_call 2 keep (world_call 2 keep (world_call 2 keep world_empty 0 (call_push_back 1))
                  0 (call_push_back 2)) 0 (call_push_back 3).

Definition v123 : @socow_vector nat :=
  {| size_ := 3; is_small_vector_ := false; store_ := dynamic_data (Some 1%positive) |}.

(** The vector 1, 2, 3 and an empty vector. *)
Definition world_two : @world nat :=
  {| st := st world_123; objs := objs world_123 ++ [default_vector] |}.

(** The vector 1, 2, 3 and a copy of it on the same block. *)
Definition world_shared : @world nat := world_copy 2 world_123 0.

(** A full small vector. *)
Definition v12 : @socow_vector nat :=
  {| size_ := 2; is_small_vector_ := true; store_ := static_buffer [Some 1; Some 2] |}.

(** A state with an empty heap in which the third throwing operation
    throws. *)
Definition faulty : @state nat := {| heap := ∅; throw_in := Some 2; copies := 0 |}.

Lemma reachable_world_123 : reachable 2 keep world_123.
Proof.
  assert (reachable 2 keep world_empty) as H0.
  { eapply reachable_step; [apply rtc_refl|apply (step_default 2 keep initial)]. }
  unfold world_123. repeat (apply reachable_push_back; [lia| |vm_compute; eauto]). exact H0.
Qed.

Lemma reachable_world_two : reachable 2 keep world_two.
Proof. eapply reachable_step; [apply reachable_world_123|apply (step_default 2 keep world_123)]. Qed.

Lemma reachable_world_shared : reachable 2 keep world_shared.
Proof. eapply reachable_step; [apply reachable_world_123|apply step_copy]. Qed.

Lemma rep_v123 : rep 2 (st world_two) v123 [1; 2; 3].
Proof.
  apply rep_dynamic_intro with (cap := 4) (refs := 1);
    [reflexivity|vm_compute; reflexivity|lia|simpl; lia|lia].
Qed.

Lemma rep_v123_shared : rep 2 (st world_shared) v123 [1; 2; 3].
Proof.
  apply rep_dynamic_intro with (cap := 4) (refs := 2);
    [reflexivity|vm_compute; reflexivity|lia|simpl; lia|lia].
Qed.

Lemma rep_v12 (s : @state nat) : rep 2 s v12 [1; 2].
Proof. apply rep_small_intro; [reflexivity|simpl; lia|reflexivity]. Qed.

(** On the vector 1, 2, 3 and an empty vector [b]: after [b = a], a
    [push_back(9)] on either of them leaves the other reading 1, 2, 3. *)
Lemma copy_on_write_invisible_witness :
  0 < 2 ∧ reachable 2 keep world_two ∧ 0 ≠ 1
  ∧ objs world_two !! 0 = Some v123 ∧ rep 2 (st world_two) v123 [1; 2; 3]
  ∧ 2 < length [1; 2; 3] ∧ is_Some (objs world_two !! 1)
  ∧ allowed (call_push_back 9) [1; 2; 3]
  ∧ elements 2 (world_call 2 keep (world_assign 2 keep world_two 1 0) 1 (call_push_back 9)) 0
    = [Some 1; Some 2; Some 3]
  ∧ elements 2 (world_call 2 keep (world_assign 2 keep world_two 1 0) 0 (call_push_back 9)) 1
    = [Some 1; Some 2; Some 3].
Proof.
  assert (H1 : 0 < 2) by lia.
  assert (H2 : (0 : nat) ≠ 1) by lia.
  assert (H3 : objs world_two !! 0 = Some v123) by (vm_compute; reflexivity).
  assert (H4 : 2 < length [1; 2; 3]) by (simpl; lia).
  assert (H5 : is_Some (objs world_two !! 1)) by (vm_compute; eauto).
  destruct (copy_on_write_invisible 2 keep world_two 0 1 v123 [1; 2; 3] (call_push_back 9)
              H1 reachable_world_two H2 H3 rep_v123 H4 H5 I) as (_ & _ & Hb & Ha).
  refine (conj H1 (conj reachable_world_two (conj H2 (conj H3 (conj rep_v123
            (conj H4 (conj H5 (conj I (conj _ _))))))))).
  - rewrite Hb. vm_compute. reflexivity.
  - rewrite Ha. vm_compute. reflexivity.
Defined.

(** The copy on the shared block holds 3 elements in a capacity of at
    least 3 and at least 2. *)
Lemma size_capacity_invariant_witness :
  0 < 2 ∧ reachable 2 keep world_shared ∧ objs world_shared !! 1 = Some v123
  ∧ size v123 ≤ capacity 2 (st world_shared) v123
  ∧ 2 ≤ capacity 2 (st world_shared) v123.
Proof.
  assert (H1 : 0 < 2) by lia.
  assert (H3 : objs world_shared !! 1 = Some v123) by (vm_compute; reflexivity).
  destruct (size_capacity_invariant 2 keep world_shared H1 reachable_world_shared) as [Hw _].
  destruct (Hw 1 v123 H3) as (Ha & Hb & _).
  exact (conj H1 (conj reachable_world_shared (conj H3 (conj Ha Hb)))).
Defined.

(** The vector 1, 2, 3 is dynamic and its capacity exceeds 2. *)
Lemma dynamic_capacity_above_small_witness :
  0 < 2 ∧ reachable 2 keep world_123 ∧ objs world_123 !! 0 = Some v123
  ∧ is_small_vector_ v123 = false ∧ 2 < capacity 2 (st world_123) v123.
Proof.
  assert (H1 : 0 < 2) by lia.
  assert (H3 : objs world_123 !! 0 = Some v123) by (vm_compute; reflexivity).
  exact (conj H1 (conj reachable_world_123 (conj H3 (conj eq_refl
    (dynamic_capacity_above_small 2 keep world_123 0 v123 H1 reachable_world_123 H3 eq_refl))))).
Defined.

(** An [insert] into a full small vector that throws at the copy of the
    new value: the block allocated for it is gone and the vector is what
    it was. *)
Lemma strong_exception_guarantee_witness :
  0 < 2 ∧ rep 2 faulty v12 [1; 2] ∧ 1 ≤ length [1; 2]
  ∧ insert 2 keep faulty v12 1 7 = Throws {| heap := ∅; throw_in := None; copies := 1 |} v12
  ∧ throw_in faulty ≠ None
  ∧ restored 2 faulty v12 {| heap := ∅; throw_in := None; copies := 1 |} v12.
Proof.
  assert (H1 : 0 < 2) by lia.
  assert (H3 : 1 ≤ length [1; 2]) by (simpl; lia).
  assert (H4 : insert 2 keep faulty v12 1 7
               = Throws {| heap := ∅; throw_in := None; copies := 1 |} v12)
    by (vm_compute; reflexivity).
  destruct (strong_exception_guarantee 2 keep 4 faulty v12 [1; 2] H1 (rep_v12 faulty))
    as (Hi & _ & _).
  destruct (Hi 1 7 _ _ H3 H4) as [Ht [Hr|(_ & Hne & _)]].
  - exact (conj H1 (conj (rep_v12 faulty) (conj H3 (conj H4 (conj Ht Hr))))).
  - exact (False_ind _ (Hne eq_refl)).
Defined.

(** C2 as stated fails for an [insert] and for an [erase] that work in
    place.  The vector 1, 2, 3 alone owns a block of capacity 4.  [insert]
    of 7 at offset 1 constructs 7 behind the elements and then moves it
    down by exchanges; the first exchange copies an element, and that copy
    throws: the exception reaches the caller with the vector holding
    1, 2, 3, 7, its size 4.  [erase] of the element at offset 0 moves it
    up by exchanges; the first exchange succeeds and the copy that the
    second one starts with throws: the exception reaches the caller with
    the vector holding 2, 1, 3. *)
Lemma in_place_counterexample :
  rep 2 (with_fault (st world_123) (Some 1)) v123 [1; 2; 3]
  ∧ rep 2 (with_fault (st world_123) (Some 3)) v123 [1; 2; 3]
  ∧ 1 ≤ length [1; 2; 3]
  ∧ contents 2 (with_fault (st world_123) (Some 1)) v123 = [Some 1; Some 2; Some 3]
  ∧ contents 2 (with_fault (st world_123) (Some 3)) v123 = [Some 1; Some 2; Some 3]
  ∧ (∃ s' this',
       insert 2 keep (with_fault (st world_123) (Some 1)) v123 1 7 = Throws s' this'
       ∧ size this' = 4
       ∧ contents 2 s' this' = [Some 1; Some 2; Some 3; Some 7]
       ∧ ¬ restored 2 (with_fault (st world_123) (Some 1)) v123 s' this')
  ∧ (∃ s' this',
       erase 2 keep (with_fault (st world_123) (Some 3)) v123 0 1 = Throws s' this'
       ∧ size this' = 3
       ∧ contents 2 s' this' = [Some 2; Some 1; Some 3]
       ∧ ¬ restored 2 (with_fault (st world_123) (Some 3)) v123 s' this').
Proof.
  split.
  { eapply rep_heap; [|exact rep_v123]. vm_compute. reflexivity. }
  split.
  { eapply rep_heap; [|exact rep_v123]. vm_compute. reflexivity. }
  split; [simpl; lia|]. split; [vm_compute; reflexivity|].
  split; [vm_compute; reflexivity|]. split.
  - destruct (insert 2 keep (with_fault (st world_123) (Some 1)) v123 1 7)
      as [s' [this' it]|s' this'] eqn:Heq.
    { exfalso. vm_compute in Heq. discriminate Heq. }
    exists s', this'. split; [reflexivity|].
    vm_compute in Heq. injection Heq as <- <-.
    split; [reflexivity|]. split; [vm_compute; reflexivity|].
    intros (Hthis & _). vm_compute in Hthis. discriminate Hthis.
  - destruct (erase 2 keep (with_fault (st world_123) (Some 3)) v123 0 1)
      as [s' [this' it]|s' this'] eqn:Heq.
    { exfalso. vm_compute in Heq. discriminate Heq. }
    exists s', this'. split; [reflexivity|].
    vm_compute in Heq. injection Heq as <- <-.
    split; [reflexivity|]. split; [vm_compute; reflexivity|].
    intros (_ & _ & _ & Hc & _). vm_compute in Hc. discriminate Hc.
Qed.

(** [reserve(10)] then [shrink_to_fit()] on the vector 1, 2, 3 return and
    leave a capacity of 3. *)
Lemma reserve_shrink_round_trip_witness :
  rep 2 (st world_123) v123 [1; 2; 3] ∧ representable 4 10
  ∧ ∃ s1 v1 s2 v2,
      reserve 2 keep (st world_123) v123 10 = Returns s1 (v1, ())
      ∧ shrink_to_fit 2 keep s1 v1 = Returns s2 (v2, ())
      ∧ capacity 2 s2 v2 = 3 ∧ size v2 = 3.
Proof.
  assert (Hk : representable 4 10) by (vm_compute; reflexivity).
  split; [exact rep_v123|]. split; [exact Hk|].
  destruct (reserve_shrink_round_trip 2 keep 4 (st world_123) v123 [1; 2; 3] 10 rep_v123 Hk)
    as [Hcap Hret].
  destruct (Hret eq_refl) as (s1 & v1 & s2 & v2 & Heq1 & Heq2).
  destruct (Hcap s1 v1 s2 v2 Heq1 Heq2) as (Hc & Hs & _).
  exists s1, v1, s2, v2. split; [exact Heq1|]. split; [exact Heq2|].
  split; [|exact Hs]. rewrite Hc, Hs. reflexivity.
Defined.

(** A full small vector of capacity 2 grows into a block of capacity 4. *)
Lemma doubling_growth_witness :
  0 < 2 ∧ rep 2 (st initial) v12 [1; 2] ∧ 1 ≤ length [1; 2]
  ∧ size v12 = capacity 2 (st initial) v12
  ∧ (∃ s' this' it, insert 2 keep (st initial) v12 1 7 = Returns s' (this', it)
                    ∧ capacity 2 s' this' = 4)
  ∧ (∃ s' this', push_back 2 keep (st initial) v12 7 = Returns s' (this', ())
                 ∧ capacity 2 s' this' = 4).
Proof.
  assert (H1 : 0 < 2) by lia.
  assert (H3 : 1 ≤ length [1; 2]) by (simpl; lia).
  destruct (doubling_growth 2 keep (st initial) v12 [1; 2] 1 7 H1 (rep_v12 _) H3 eq_refl)
    as (Hi & Hp & Hret).
  destruct (Hret eq_refl) as [(s1 & v1 & it & Heq1) (s2 & v2 & Heq2)].
  refine (conj H1 (conj (rep_v12 _) (conj H3 (conj eq_refl (conj _ _))))).
  - exists s1, v1, it. split; [exact Heq1|]. exact (proj1 (Hi s1 v1 it Heq1)).
  - exists s2, v2. split; [exact Heq2|]. exact (proj1 (Hp s2 v2 Heq2)).
Defined.

(** [insert] of 7 at offset 1 of the vector 1, 2, 3 returns the iterator
    at offset 1 of the storage, which then holds 1, 7, 2, 3; [erase] of
    the range from offset 0 to offset 1 of the vector 1, 2, 3 returns the
    iterator at offset 0, where the element 2 that followed the range now
    is. *)
Lemma positional_return_values_witness :
  0 < 2 ∧ rep 2 (st world_123) v123 [1; 2; 3] ∧ 1 ≤ length [1; 2; 3] ∧ 0 ≤ 1
  ∧ (∃ s' this' it,
       insert 2 keep (st world_123) v123 1 7 = Returns s' (this', it)
       ∧ it = {| base := const_data_ptr this'; offset := 1 |}
       ∧ at_const 2 s' this' 1 = Some 7
       ∧ contents 2 s' this' = [Some 1; Some 7; Some 2; Some 3])
  ∧ (∃ s' this' it,
       erase 2 keep (st world_123) v123 0 1 = Returns s' (this', it)
       ∧ it = {| base := const_data_ptr this'; offset := 0 |}
       ∧ contents 2 s' this' = [Some 2; Some 3]
       ∧ at_const 2 s' this' 0 = Some 2).
Proof.
  assert (H1 : 0 < 2) by lia.
  assert (H3 : 1 ≤ length [1; 2; 3]) by (simpl; lia).
  assert (H4 : 0 ≤ 1) by lia.
  assert (H5 : 1 < length [1; 2; 3]) by (simpl; lia).
  destruct (positional_return_values 2 keep (st world_123) v123 [1; 2; 3] H1 rep_v123)
    as (Hi & He & Hret).
  destruct (Hret eq_refl) as [Hri Hre].
  refine (conj H1 (conj rep_v123 (conj H3 (conj H4 (conj _ _))))).
  - destruct (Hri 1 7 H3) as (s' & this' & it & Heq).
    exists s', this', it. split; [exact Heq|]. exact (Hi 1 7 s' this' it H3 Heq).
  - destruct (Hre 0 1 H4 H3) as (s' & this' & it & Heq).
    destruct (He 0 1 s' this' it H4 H3 Heq) as (Hit & Hc & Hat & _).
    exists s', this', it. split; [exact Heq|]. split; [exact Hit|]. split; [exact Hc|].
    rewrite (proj1 (Hat H5)). vm_compute. reflexivity.
Defined.

(** A copy of the vector 1, 2, 3 points to the same block and no element
    is copied. *)
Lemma copy_construction_witness :
  rep 2 (st world_123) v123 [1; 2; 3] ∧ is_small_vector_ v123 = false
  ∧ ∃ s' this',
      copy_construct 2 (st world_123) v123 = Returns s' this'
      ∧ const_data_ptr this' = const_data_ptr v123
      ∧ copies s' = copies (st world_123)
      ∧ contents 2 s' this' = contents 2 (st world_123) v123.
Proof.
  refine (conj rep_v123 (conj eq_refl _)).
  destruct (copy_construction 2 (st world_123) v123 [1; 2; 3] rep_v123) as [Hdyn _].
  destruct (Hdyn eq_refl) as (p & b & s' & this' & Heq & Hp & Hp' & _ & _ & Hc & Hl).
  exists s', this'. split; [exact Heq|]. split; [|exact (conj Hc Hl)].
  rewrite Hp, Hp'. reflexivity.
Defined.



(** A small vector holding 7, with room for one more element. *)
Definition v7 : @socow_vector nat :=
  {| size_ := 1; is_small_vector_ := true; store_ := static_buffer [Some 7; None] |}.

Lemma rep_v7 (s : @state nat) : rep 2 s v7 [7].
Proof. apply rep_small_intro; [reflexivity|simpl; lia|reflexivity]. Qed.

(** [swap] of the small vector 7 with the small vector 1, 2: the element 2
    is relocated into the second slot of the first vector, and 7 and 1 are
    exchanged. *)
Lemma swap_contract_witness :
  rep 2 (st (@initial nat)) v7 [7] ∧ rep 2 (st (@initial nat)) v12 [1; 2]
  ∧ ∃ s' this' other',
      swap 2 keep (st (@initial nat)) v7 v12 = Returns s' (this', other')
      ∧ heap s' = heap (st (@initial nat))
      ∧ rep 2 s' this' [1; 2] ∧ rep 2 s' other' [7]
      ∧ contents 2 s' this' = [Some 1; Some 2] ∧ contents 2 s' other' = [Some 7].
Proof.
  refine (conj (rep_v7 _) (conj (rep_v12 _) _)).
  destruct (swap_contract 2 keep (st (@initial nat)) v7 v12 [7] [1; 2] (rep_v7 _) (rep_v12 _))
    as (H & Hret & _).
  destruct (Hret eq_refl) as (s' & this' & other' & Heq).
  rewrite Heq in H. destruct H as (Hh & Hr1 & Hr2 & _).
  exists s', this', other'. split; [exact Heq|].
  refine (conj Hh (conj Hr1 (conj Hr2 (conj _ _)))).
  - exact (rep_contents 2 _ _ _ Hr1).
  - exact (rep_contents 2 _ _ _ Hr2).
Defined.

(** C6 as stated fails when the exchange of the common prefix throws.  In
    the swap of the small vector 7 with the small vector 1, 2, the
    relocation of 2 is the first copy and succeeds; the exchange of 7 and
    1 starts with the copy of one of them, which throws: the first vector
    is left holding 7, 2 and the second holding 1. *)
Lemma swap_exchange_counterexample :
  rep 2 (with_fault (st (@initial nat)) (Some 1)) v7 [7]
  ∧ rep 2 (with_fault (st (@initial nat)) (Some 1)) v12 [1; 2]
  ∧ ∃ s' this' other',
      swap 2 keep (with_fault (st (@initial nat)) (Some 1)) v7 v12 = Throws s' (this', other')
      ∧ contents 2 s' this' = [Some 7; Some 2]
      ∧ contents 2 s' other' = [Some 1]
      ∧ ¬ (same_state 2 (with_fault (st (@initial nat)) (Some 1)) v7 this'
           ∧ same_state 2 (with_fault (st (@initial nat)) (Some 1)) v12 other').
Proof.
  refine (conj (rep_v7 _) (conj (rep_v12 _) _)).
  destruct (swap 2 keep (with_fault (st (@initial nat)) (Some 1)) v7 v12)
    as [s' [this' other']|s' [this' other']] eqn:Heq.
  { exfalso. vm_compute in Heq. discriminate Heq. }
  exists s', this', other'. split; [reflexivity|].
  vm_compute in Heq. injection Heq as <- <- <-.
  split; [vm_compute; reflexivity|]. split; [vm_compute; reflexivity|].
  intros [(Hsize & _) _]. vm_compute in Hsize. discriminate Hsize.
Qed.

(** * The class instantiated with [SMALL_SIZE = 0] *)

(** One vector, after its first [push_back]. *)
Definition world_zero : @world nat :=
  world_call 0 keep {| st := st initial; objs := [default_vector] |} 0 (call_push_back 1).

Lemma reachable_world_zero : reachable 0 keep world_zero.
Proof.
  eapply reachable_step.
  - eapply reachable_step; [apply rtc_refl|apply (step_default 0 keep initial)].
  - apply (step_call 0 keep _ 0 default_vector [] (call_push_back 1));
      [reflexivity|apply rep_default|exact I].
Qed.

(** C3.  With [SMALL_SIZE = 0] the first [push_back] finds
    [size() == capacity() == 0] and asks [allocate_dynamic_buffer] for
    [2 * capacity()] elements, which is a block for no element; the element
    is constructed behind the block and the size becomes 1.  The vector of
    this reachable world has a size of 1 and a capacity of 0. *)
Theorem zero_small_size_capacity :
  reachable 0 keep world_zero
  ∧ ∃ v, objs world_zero !! 0 = Some v
      ∧ size v = 1 ∧ capacity 0 (st world_zero) v = 0
      ∧ ¬ size v ≤ capacity 0 (st world_zero) v.
Proof.
  split; [exact reachable_world_zero|].
  exists {| size_ := 1; is_small_vector_ := false; store_ := dynamic_data (Some 1%positive) |}.
  split; [vm_compute; reflexivity|]. split; [reflexivity|].
  split; [vm_compute; reflexivity|]. vm_compute. lia.
Qed.

(** C9.  With [SMALL_SIZE = 0] the block that the first [push_back]
    allocates has capacity [2 * 0]: the vector of this reachable world is
    dynamic and its capacity is 0, not above [SMALL_SIZE]. *)
Theorem zero_small_size_dynamic :
  reachable 0 keep world_zero
  ∧ ∃ v p b, objs world_zero !! 0 = Some v
      ∧ is_small_vector_ v = false ∧ store_ v = dynamic_data (Some p)
      ∧ heap (st world_zero) !! p = Some b ∧ capacity_ b = 0
      ∧ ¬ 0 < capacity 0 (st world_zero) v.
Proof.
  split; [exact reachable_world_zero|].
  exists {| size_ := 1; is_small_vector_ := false; store_ := dynamic_data (Some 1%positive) |},
         1%positive, {| capacity_ := 0; refs_count := 1; data_ := [] |}.
  split; [vm_compute; reflexivity|]. split; [reflexivity|]. split; [reflexivity|].
  split; [vm_compute; reflexivity|]. split; [reflexivity|]. vm_compute. lia.
Qed.

(** * Worked examples for the further properties *)

(** A small vector with room for one more element. *)
Definition v1 : @socow_vector nat :=
  {| size_ := 1; is_small_vector_ := true; store_ := static_buffer [Some 1; None] |}.

Lemma rep_v1 (s : @state nat) : rep 2 s v1 [1].
Proof. apply rep_small_intro; [reflexivity|simpl; lia|reflexivity]. Qed.

Lemma shared_v123 : is_only_vector_ref (st world_shared) v123 = false.
Proof. vm_compute. reflexivity. Qed.

Lemma exclusive_v123 : is_only_vector_ref (st world_123) v123 = true.
Proof. vm_compute. reflexivity. Qed.

Lemma objs_world_shared_1 : objs world_shared !! 1 = Some v123.
Proof. vm_compute. reflexivity. Qed.

Lemma objs_world_123_0 : objs world_123 !! 0 = Some v123.
Proof. vm_compute. reflexivity. Qed.

Lemma objs_world_two_0 : objs world_two !! 0 = Some v123.
Proof. vm_compute. reflexivity. Qed.

Lemma objs_world_two_1 : objs world_two !! 1 = Some default_vector.
Proof. vm_compute. reflexivity. Qed.




(** Assigning the small vector 1, 2 to the small vector 7. *)
Lemma assignment_contract_witness :
  rep 2 (st (@initial nat)) v7 [7] ∧ rep 2 (st (@initial nat)) v12 [1; 2]
  ∧ ∃ s' this',
      assign 2 keep (st (@initial nat)) v7 v12 = Returns s' (this', ())
      ∧ rep 2 s' this' [1; 2] ∧ rep 2 s' v12 [1; 2]
      ∧ is_small_vector_ this' = true.
Proof.
  refine (conj (rep_v7 _) (conj (rep_v12 _) _)).
  destruct (assignment_contract 2 keep (st (@initial nat)) v7 v12 [7] [1; 2]
              (rep_v7 _) (rep_v12 _)) as [H Hret].
  destruct (Hret eq_refl) as (s' & this' & Heq). rewrite Heq in H.
  destruct H as (H1 & H2 & H3 & _).
  exists s', this'. exact (conj Heq (conj H1 (conj H2 H3))).
Defined.

(** The small vectors 7 and 1, 2. *)
Definition world_7 : @world nat := world_call 2 keep world_empty 0 (call_push_back 7).

Definition world_small : @world nat :=
  world_call 2 keep
    (world_call 2 keep {| st := st world_7; objs := objs world_7 ++ [default_vector] |}
       1 (call_push_back 1))
    1 (call_push_back 2).

Lemma reachable_world_small : reachable 2 keep world_small.
Proof.
  assert (reachable 2 keep world_empty) as H0.
  { eapply reachable_step; [apply rtc_refl|apply (step_default 2 keep initial)]. }
  assert (reachable 2 keep world_7) as H1.
  { apply reachable_push_back; [lia|exact H0|vm_compute; eauto]. }
  assert (reachable 2 keep {| st := st world_7; objs := objs world_7 ++ [default_vector] |})
    as H2.
  { eapply reachable_step; [exact H1|apply (step_default 2 keep world_7)]. }
  unfold world_small. repeat (apply reachable_push_back; [lia| |vm_compute; eauto]). exact H2.
Qed.

Lemma objs_world_small_0 : objs world_small !! 0 = Some v7.
Proof. vm_compute. reflexivity. Qed.

Lemma objs_world_small_1 : objs world_small !! 1 = Some v12.
Proof. vm_compute. reflexivity. Qed.

(** The small vector 7 of [world_small] is assigned the small vector
    1, 2. *)
Lemma world_assign_contract_witness :
  0 < 2 ∧ reachable 2 keep world_small
  ∧ objs world_small !! 0 = Some v7 ∧ objs world_small !! 1 = Some v12
  ∧ elements 2 (world_assign 2 keep world_small 0 1) 1 = [Some 1; Some 2]
  ∧ elements 2 (world_assign 2 keep world_small 0 1) 0 = [Some 1; Some 2].
Proof.
  assert (H1 : 0 < 2) by lia.
  assert (H2 : 1 ≠ 0) by lia.
  destruct (world_assign_contract 2 keep world_small 0 1 v7 v12 H1 reachable_world_small
              objs_world_small_0 objs_world_small_1) as (Hby & _ & Hret & _).
  refine (conj H1 (conj reachable_world_small (conj objs_world_small_0 (conj objs_world_small_1
            (conj _ _))))).
  - rewrite (Hby 1 H2). vm_compute. reflexivity.
  - rewrite (Hret eq_refl). vm_compute. reflexivity.
Defined.

(** The block shared by the two vectors of [world_shared] is counted. *)
Lemma blocks_are_owned_witness :
  0 < 2 ∧ reachable 2 keep world_shared
  ∧ ∀ p b, heap (st world_shared) !! p = Some b →
      refs_count b = owners p (objs world_shared) ∧ 1 ≤ refs_count b.
Proof.
  assert (H1 : 0 < 2) by lia.
  destruct (blocks_are_owned 2 keep world_shared H1 reachable_world_shared) as [H _].
  refine (conj H1 (conj reachable_world_shared _)).
  intros p b Hp. destruct (H p b Hp) as (Ha & Hb & _). exact (conj Ha Hb).
Defined.

(** Destroying the copy leaves the original reading 1, 2, 3. *)
Lemma destructor_contract_witness :
  0 < 2 ∧ reachable 2 keep world_shared ∧ objs world_shared !! 1 = Some v123
  ∧ elements 2 (world_destroy 2 world_shared 1) 0 = elements 2 world_shared 0
  ∧ throw_in (st (world_destroy 2 world_shared 1)) = throw_in (st world_shared).
Proof.
  assert (H1 : 0 < 2) by lia.
  destruct (destructor_contract 2 keep world_shared 1 v123 H1 reachable_world_shared
              objs_world_shared_1) as (Hlt & _ & _ & _ & Ht & _).
  refine (conj H1 (conj reachable_world_shared (conj objs_world_shared_1 (conj (Hlt 0 _) Ht)))).
  lia.
Defined.

(** Copying the vector 1, 2, 3. *)
Lemma world_copy_contract_witness :
  0 < 2 ∧ reachable 2 keep world_123 ∧ objs world_123 !! 0 = Some v123
  ∧ length (objs (world_copy 2 world_123 0)) = S (length (objs world_123))
  ∧ objs (world_copy 2 world_123 0) !! length (objs world_123) = Some v123.
Proof.
  assert (H1 : 0 < 2) by lia.
  destruct (world_copy_contract 2 keep world_123 0 v123 H1 reachable_world_123 objs_world_123_0)
    as (_ & _ & Hlen & Hnew).
  refine (conj H1 (conj reachable_world_123 (conj objs_world_123_0
            (conj (Hlen (or_introl eq_refl)) (proj1 (Hnew eq_refl)))))).
Defined.

(** Swapping the small vectors 7 and 1, 2 of [world_small]. *)
Lemma world_swap_contract_witness :
  0 < 2 ∧ reachable 2 keep world_small
  ∧ objs world_small !! 0 = Some v7 ∧ objs world_small !! 1 = Some v12
  ∧ heap (st (world_swap 2 keep world_small 0 1)) = heap (st world_small)
  ∧ elements 2 (world_swap 2 keep world_small 0 1) 0 = [Some 1; Some 2]
  ∧ elements 2 (world_swap 2 keep world_small 0 1) 1 = [Some 7].
Proof.
  assert (H1 : 0 < 2) by lia.
  destruct (world_swap_contract 2 keep world_small 0 1 v7 v12 H1 reachable_world_small
              objs_world_small_0 objs_world_small_1) as (Hh & _ & _ & Hret).
  destruct (Hret eq_refl) as [Ha Hb].
  refine (conj H1 (conj reachable_world_small (conj objs_world_small_0 (conj objs_world_small_1
           (conj Hh (conj _ _)))))).
  - rewrite Ha. vm_compute. reflexivity.
  - rewrite Hb. vm_compute. reflexivity.
Defined.

(** The storage of the vector 1, 2, 3. *)
Lemma storage_layout_witness :
  0 < 2 ∧ reachable 2 keep world_123 ∧ objs world_123 !! 0 = Some v123
  ∧ length (const_data 2 (st world_123) v123) = capacity 2 (st world_123) v123
  ∧ length (elements 2 world_123 0) = size v123.
Proof.
  assert (H1 : 0 < 2) by lia.
  destruct (storage_layout 2 keep world_123 0 v123 H1 reachable_world_123 objs_world_123_0)
    as (Hl & _ & _ & He & _).
  exact (conj H1 (conj reachable_world_123 (conj objs_world_123_0 (conj Hl He)))).
Defined.

(** [reserve(3)] on the copy that shares the block of capacity 4. *)
Lemma reserve_contract_witness :
  rep 2 (st world_shared) v123 [1; 2; 3] ∧ representable 4 3
  ∧ ∃ s' this',
      reserve 2 keep (st world_shared) v123 3 = Returns s' (this', ())
      ∧ rep 2 s' this' [1; 2; 3] ∧ is_only_vector_ref s' this' = true
      ∧ capacity 2 s' this' = 3.
Proof.
  assert (Hk : representable 4 3) by (vm_compute; reflexivity).
  split; [exact rep_v123_shared|]. split; [exact Hk|].
  pose proof (reserve_contract 2 keep 4 (st world_shared) v123 [1; 2; 3] 3 rep_v123_shared Hk)
    as H.
  destruct (reserve 2 keep (st world_shared) v123 3) as [s' [this' []]|s' this'] eqn:Heq.
  - exists s', this'. split; [reflexivity|].
    destruct H as (H1 & _ & H3). rewrite shared_v123 in H3.
    destruct (H3 (le_n 3)) as (H4 & H5 & _). exact (conj H1 (conj H4 H5)).
  - exfalso. vm_compute in Heq. discriminate Heq.
Defined.

(** [shrink_to_fit()] on the vector 1, 2, 3 in its block of capacity 4. *)
Lemma shrink_to_fit_contract_witness :
  rep 2 (st world_123) v123 [1; 2; 3]
  ∧ ∃ s' this',
      shrink_to_fit 2 keep (st world_123) v123 = Returns s' (this', ())
      ∧ rep 2 s' this' [1; 2; 3] ∧ capacity 2 s' this' = 3
      ∧ shrink_to_fit 2 keep s' this' = Returns s' (this', ()).
Proof.
  split; [exact rep_v123|].
  pose proof (shrink_to_fit_contract 2 keep (st world_123) v123 [1; 2; 3] rep_v123) as H.
  destruct (shrink_to_fit 2 keep (st world_123) v123) as [s' [this' []]|s' this'] eqn:Heq.
  - exists s', this'. split; [reflexivity|].
    destruct H as (H1 & H2 & _ & _ & H5). exact (conj H1 (conj H2 H5)).
  - exfalso. vm_compute in Heq. discriminate Heq.
Defined.

(** [insert] of 7 at offset 1 of the vector 1, 2, 3, which has room: one
    copy for 7 and one for each of 2 and 3. *)
Lemma insert_with_room_witness :
  0 < 2 ∧ rep 2 (st world_123) v123 [1; 2; 3] ∧ 1 ≤ length [1; 2; 3]
  ∧ is_only_vector_ref (st world_123) v123 = true
  ∧ size v123 ≠ capacity 2 (st world_123) v123
  ∧ ∃ s' this' it,
      insert 2 keep (st world_123) v123 1 7 = Returns s' (this', it)
      ∧ rep 2 s' this' [1; 7; 2; 3]
      ∧ const_data_ptr this' = const_data_ptr v123
      ∧ copies s' = copies (st world_123) + 1 + 2.
Proof.
  assert (H1 : 0 < 2) by lia.
  assert (H3 : 1 ≤ length [1; 2; 3]) by (simpl; lia).
  assert (H5 : size v123 ≠ capacity 2 (st world_123) v123).
  { intros E. vm_compute in E. discriminate E. }
  refine (conj H1 (conj rep_v123 (conj H3 (conj exclusive_v123 (conj H5 _))))).
  destruct (insert_with_room 2 keep (st world_123) v123 [1; 2; 3] 1 7 H1 rep_v123 H3
              exclusive_v123 H5) as [H Hret].
  destruct (Hret eq_refl) as (s' & this' & it & Heq). rewrite Heq in H.
  exists s', this', it. split; [exact Heq|].
  destruct H as (Ha & _ & Hb & _ & _ & Hc & _). exact (conj Ha (conj Hb Hc)).
Defined.

(** [erase] of the element at offset 1 of the vector 1, 2, 3: one copy,
    for the element 3 that moves down. *)
Lemma erase_exclusive_witness :
  rep 2 (st world_123) v123 [1; 2; 3] ∧ 1 ≤ 2 ∧ 2 ≤ length [1; 2; 3]
  ∧ is_only_vector_ref (st world_123) v123 = true
  ∧ ∃ s' this' it,
      erase 2 keep (st world_123) v123 1 2 = Returns s' (this', it)
      ∧ it = {| base := const_data_ptr v123; offset := 1 |}
      ∧ rep 2 s' this' [1; 3] ∧ copies s' = copies (st world_123) + 1.
Proof.
  assert (H2 : 1 ≤ 2) by lia.
  assert (H3 : 2 ≤ length [1; 2; 3]) by (simpl; lia).
  refine (conj rep_v123 (conj H2 (conj H3 (conj exclusive_v123 _)))).
  destruct (erase_exclusive 2 keep (st world_123) v123 [1; 2; 3] 1 2 rep_v123 H2 H3
              exclusive_v123) as [H Hret].
  destruct (Hret (or_introl eq_refl)) as (s' & this' & it & Heq). rewrite Heq in H.
  destruct H as (Hit & Hrep & _ & _ & _ & Hc & _).
  exists s', this', it. exact (conj Heq (conj Hit (conj Hrep Hc))).
Defined.

(** [push_back(3)] on the full small vector 1, 2, then [pop_back()]. *)
Lemma push_back_pop_back_witness :
  0 < 2 ∧ rep 2 (st initial) v12 [1; 2]
  ∧ ∃ s1 this1 s2 this2,
      push_back 2 keep (st initial) v12 3 = Returns s1 (this1, ())
      ∧ rep 2 s1 this1 [1; 2; 3]
      ∧ pop_back 2 keep s1 this1 = Returns s2 (this2, ())
      ∧ rep 2 s2 this2 [1; 2].
Proof.
  assert (H1 : 0 < 2) by lia.
  refine (conj H1 (conj (rep_v12 _) _)).
  pose proof (push_back_pop_back 2 keep (st initial) v12 [1; 2] 3 H1 (rep_v12 _)) as H.
  destruct (push_back 2 keep (st initial) v12 3) as [s1 [this1 []]|s' this'] eqn:Heq.
  - destruct H as (Ha & _ & _ & _ & s2 & this2 & Hb & Hc & _).
    exists s1, this1, s2, this2. exact (conj eq_refl (conj Ha (conj Hb Hc))).
  - exfalso. vm_compute in Heq. discriminate Heq.
Defined.

(** [insert] of 7 at offset 1 of the vector 1, 2, 3, then [erase] of the
    iterator returned. *)
Lemma insert_erase_round_trip_witness :
  0 < 2 ∧ rep 2 (st world_123) v123 [1; 2; 3] ∧ 1 ≤ length [1; 2; 3]
  ∧ ∃ s1 this1 it s2 this2,
      insert 2 keep (st world_123) v123 1 7 = Returns s1 (this1, it)
      ∧ erase1 2 keep s1 this1 (offset it) = Returns s2 (this2, it)
      ∧ rep 2 s2 this2 [1; 2; 3] ∧ copies s2 = copies s1 + 2.
Proof.
  assert (H1 : 0 < 2) by lia.
  assert (H3 : 1 ≤ length [1; 2; 3]) by (simpl; lia).
  refine (conj H1 (conj rep_v123 (conj H3 _))).
  destruct (insert 2 keep (st world_123) v123 1 7) as [s1 [this1 it]|s' this'] eqn:Heq.
  - destruct (insert_erase_round_trip 2 keep (st world_123) v123 [1; 2; 3] 1 7 H1 rep_v123 H3
                s1 this1 it Heq) as [H Hret].
    assert (Ht : throw_in s1 = None).
    { vm_compute in Heq. injection Heq as <- _ _. reflexivity. }
    destruct (Hret (or_introl Ht)) as (s2 & this2 & Heq2). rewrite Heq2 in H.
    destruct H as (_ & Ha & _ & _ & Hb).
    exists s1, this1, it, s2, this2. exact (conj eq_refl (conj Heq2 (conj Ha Hb))).
  - exfalso. vm_compute in Heq. discriminate Heq.
Defined.

(** [clear()] twice on the copy that shares the block. *)
Lemma clear_twice_witness :
  rep 2 (st world_shared) v123 [1; 2; 3]
  ∧ ∃ s1 this1 s2 this2,
      clear 2 keep (st world_shared) v123 = Returns s1 (this1, ())
      ∧ clear 2 keep s1 this1 = Returns s2 (this2, ())
      ∧ rep 2 s2 this2 [] ∧ capacity 2 s2 this2 = capacity 2 s1 this1
      ∧ copies s2 = copies s1.
Proof.
  split; [exact rep_v123_shared|].
  destruct (clear 2 keep (st world_shared) v123) as [s1 [this1 []]|s' this'] eqn:Heq.
  - destruct (clear_twice 2 keep (st world_shared) v123 [1; 2; 3] rep_v123_shared s1 this1 Heq)
      as (_ & _ & s2 & this2 & Ha & Hb & _ & _ & Hc & _ & Hd & _).
    exists s1, this1, s2, this2. exact (conj eq_refl (conj Ha (conj Hb (conj Hc Hd)))).
  - exfalso. vm_compute in Heq. discriminate Heq.
Defined.

(** Swapping the small vectors 7 and 1, 2, twice. *)
Lemma swap_twice_witness :
  rep 2 (st (@initial nat)) v7 [7] ∧ rep 2 (st (@initial nat)) v12 [1; 2]
  ∧ ∃ s1 a1 b1 s2 a2 b2,
      swap 2 keep (st (@initial nat)) v7 v12 = Returns s1 (a1, b1)
      ∧ swap 2 keep s1 a1 b1 = Returns s2 (a2, b2)
      ∧ heap s2 = heap (st (@initial nat))
      ∧ rep 2 s2 a2 [7] ∧ rep 2 s2 b2 [1; 2].
Proof.
  refine (conj (rep_v7 _) (conj (rep_v12 _) _)).
  destruct (swap 2 keep (st (@initial nat)) v7 v12) as [s1 [a1 b1]|s' [a' b']] eqn:Heq.
  - destruct (swap_twice 2 keep (st (@initial nat)) v7 v12 [7] [1; 2]
                (rep_v7 _) (rep_v12 _) s1 a1 b1 Heq) as [H Hret].
    assert (Ht : throw_in s1 = None).
    { vm_compute in Heq. injection Heq as <- _ _. reflexivity. }
    destruct (Hret Ht) as (s2 & a2 & b2 & Heq2). rewrite Heq2 in H.
    destruct H as (Ha & Hb & Hc & _).
    exists s1, a1, b1, s2, a2, b2.
    exact (conj eq_refl (conj Heq2 (conj Ha (conj Hb Hc)))).
  - exfalso. vm_compute in Heq. discriminate Heq.
Defined.

(** A copy of the vector 1, 2, 3 is made and destroyed. *)
Lemma copy_then_destroy_witness :
  0 < 2 ∧ reachable 2 keep world_123 ∧ objs world_123 !! 0 = Some v123
  ∧ objs (world_destroy 2 (world_copy 2 world_123 0) (length (objs world_123)))
    = objs world_123
  ∧ heap (st (world_destroy 2 (world_copy 2 world_123 0) (length (objs world_123))))
    = heap (st world_123).
Proof.
  assert (H1 : 0 < 2) by lia.
  destruct (copy_then_destroy 2 keep world_123 0 v123 H1 reachable_world_123 objs_world_123_0)
    as (Ha & Hb & _).
  exact (conj H1 (conj reachable_world_123 (conj objs_world_123_0 (conj Ha Hb)))).
Defined.

(** [insert(begin() + 1, 7)] as one of the mutating methods, on the vector
    1, 2, 3, where it works in place. *)
Lemma mutators_contract_witness :
  0 < 2 ∧ rep 2 (st world_123) v123 [1; 2; 3] ∧ allowed (call_insert 1 7) [1; 2; 3]
  ∧ @in_range nat 4 (call_insert 1 7)
  ∧ ∃ s' this',
      run 2 keep (call_insert 1 7) (st world_123) v123 = Returns s' (this', ())
      ∧ rep 2 s' this' [1; 7; 2; 3] ∧ size this' = 4.
Proof.
  assert (H1 : 0 < 2) by lia.
  assert (H3 : allowed (call_insert 1 7) [1; 2; 3]) by (simpl; lia).
  refine (conj H1 (conj rep_v123 (conj H3 (conj I _)))).
  destruct (mutators_contract 2 keep 4 (call_insert 1 7) (st world_123) v123 [1; 2; 3]
              H1 rep_v123 H3 I) as [H Hret].
  destruct (Hret eq_refl) as (s' & this' & Heq). rewrite Heq in H.
  exists s', this'. split; [exact Heq|].
  destruct H as (Ha & _ & Hb & _). exact (conj Ha Hb).
Defined.

(** [erase(begin())] on the copy leaves the original reading 1, 2, 3. *)
Lemma method_call_isolation_witness :
  0 < 2 ∧ reachable 2 keep world_shared ∧ 1 ≠ 0
  ∧ objs world_shared !! 1 = Some v123 ∧ rep 2 (st world_shared) v123 [1; 2; 3]
  ∧ allowed (call_erase1 0) [1; 2; 3] ∧ @in_range nat 4 (call_erase1 0)
  ∧ elements 2 (world_call 2 keep world_shared 1 (call_erase1 0)) 0 = [Some 1; Some 2; Some 3]
  ∧ elements 2 (world_call 2 keep world_shared 1 (call_erase1 0)) 1 = [Some 2; Some 3].
Proof.
  assert (H1 : 0 < 2) by lia.
  assert (H3 : 1 ≠ 0) by lia.
  assert (H4 : allowed (call_erase1 0) [1; 2; 3]) by (simpl; lia).
  destruct (method_call_isolation 2 keep 4 world_shared 1 0 v123 [1; 2; 3] (call_erase1 0) H1
              reachable_world_shared H3 objs_world_shared_1 rep_v123_shared H4 I)
    as (Ha & _ & Hb).
  refine (conj H1 (conj reachable_world_shared (conj H3 (conj objs_world_shared_1
           (conj rep_v123_shared (conj H4 (conj I (conj _ (Hb eq_refl))))))))).
  rewrite Ha. vm_compute. reflexivity.
Defined.

(** The vector 1, 2, 3 of [world_123] is alone on its block. *)
Lemma only_ref_exact_witness :
  0 < 2 ∧ reachable 2 keep world_123 ∧ objs world_123 !! 0 = Some v123
  ∧ is_small_vector_ v123 = false
  ∧ ∀ j vj, j ≠ 0 → objs world_123 !! j = Some vj → const_data_ptr vj ≠ const_data_ptr v123.
Proof.
  assert (H1 : 0 < 2) by lia.
  destruct (only_ref_exact 2 keep world_123 0 v123 H1 reachable_world_123 objs_world_123_0 eq_refl)
    as [H _].
  exact (conj H1 (conj reachable_world_123 (conj objs_world_123_0 (conj eq_refl
           (H exclusive_v123))))).
Defined.

(** [erase] of the element at offset 1 on the copy that shares the block. *)
Lemma erase_shared_witness :
  rep 2 (st world_shared) v123 [1; 2; 3] ∧ 1 ≤ 2 ∧ 2 ≤ length [1; 2; 3]
  ∧ is_only_vector_ref (st world_shared) v123 = false
  ∧ ∃ s' this' it,
      erase 2 keep (st world_shared) v123 1 2 = Returns s' (this', it)
      ∧ rep 2 s' this' [1; 3]
      ∧ capacity 2 s' this' = capacity 2 (st world_shared) v123
      ∧ copies s' = copies (st world_shared) + 2.
Proof.
  assert (H2 : 1 ≤ 2) by lia.
  assert (H3 : 2 ≤ length [1; 2; 3]) by (simpl; lia).
  refine (conj rep_v123_shared (conj H2 (conj H3 (conj shared_v123 _)))).
  pose proof (erase_shared 2 keep (st world_shared) v123 [1; 2; 3] 1 2 rep_v123_shared H2 H3
                shared_v123) as H.
  destruct (erase 2 keep (st world_shared) v123 1 2) as [s' [this' it]|s' this'] eqn:Heq.
  - exists s', this', it. split; [reflexivity|].
    destruct H as (Ha & _ & _ & Hb & _ & Hc & _). exact (conj Ha (conj Hb Hc)).
  - exfalso. vm_compute in Heq. discriminate Heq.
Defined.

(** [insert] of 7 at offset 1 of the full small vector 1, 2. *)
Lemma insert_reallocating_witness :
  0 < 2 ∧ rep 2 (st initial) v12 [1; 2] ∧ 1 ≤ length [1; 2]
  ∧ (size v12 = capacity 2 (st initial) v12
     ∨ is_only_vector_ref (st initial) v12 = false)
  ∧ ∃ s' this' it,
      insert 2 keep (st initial) v12 1 7 = Returns s' (this', it)
      ∧ rep 2 s' this' [1; 7; 2]
      ∧ capacity 2 s' this' = 4
      ∧ copies s' = copies (st (@initial nat)) + 2 + 1.
Proof.
  assert (H1 : 0 < 2) by lia.
  assert (H3 : 1 ≤ length [1; 2]) by (simpl; lia).
  refine (conj H1 (conj (rep_v12 _) (conj H3 (conj (or_introl eq_refl) _)))).
  pose proof (insert_reallocating 2 keep (st initial) v12 [1; 2] 1 7 H1 (rep_v12 _) H3
                (or_introl eq_refl)) as H.
  destruct (insert 2 keep (st initial) v12 1 7) as [s' [this' it]|s' this'] eqn:Heq.
  - exists s', this', it. split; [reflexivity|].
    destruct H as (Ha & _ & _ & _ & Hb & Hc & _). exact (conj Ha (conj Hb Hc)).
  - exfalso. vm_compute in Heq. discriminate Heq.
Defined.

(** Five [push_back]s onto an empty vector. *)
Lemma push_back_growth_witness :
  0 < 2 ∧ throw_in (st (@initial nat)) = None
  ∧ ∃ s' v' k,
      push_back_all 2 keep [1; 2; 3; 4; 5] (st initial) default_vector = Returns s' (v', ())
      ∧ rep 2 s' v' [1; 2; 3; 4; 5]
      ∧ capacity 2 s' v' = 2 * 2 ^ k
      ∧ length [1; 2; 3; 4; 5] ≤ capacity 2 s' v'.
Proof.
  assert (H1 : 0 < 2) by lia.
  refine (conj H1 (conj eq_refl _)).
  destruct (push_back_growth 2 keep [1; 2; 3; 4; 5] (st initial) H1 eq_refl)
    as (s' & v' & k & Ha & Hb & _ & Hc & Hd & _).
  exists s', v', k. exact (conj Ha (conj Hb (conj Hc Hd))).
Defined.

(** A small vector built from the first two elements of 1, 2, 3. *)
Lemma construct_from_contract_witness :
  rep 2 (st world_123) v123 [1; 2; 3] ∧ 2 ≤ length [1; 2; 3] ∧ 2 ≤ 2
  ∧ representable 4 2
  ∧ ∃ s' this',
      construct_from 2 (st world_123) v123 2 2 = Returns s' this'
      ∧ rep 2 s' this' [1; 2] ∧ rep 2 s' v123 [1; 2; 3]
      ∧ is_small_vector_ this' = bool_decide (2 ≤ 2)
      ∧ copies s' = copies (st world_123) + 2.
Proof.
  assert (H2 : 2 ≤ length [1; 2; 3]) by (simpl; lia).
  assert (H3 : 2 ≤ 2) by lia.
  assert (Hk : representable 4 2) by (vm_compute; reflexivity).
  refine (conj rep_v123 (conj H2 (conj H3 (conj Hk _)))).
  pose proof (construct_from_contract 2 4 (st world_123) v123 [1; 2; 3] 2 2 rep_v123 H2 H3 Hk)
    as H.
  destruct (construct_from 2 (st world_123) v123 2 2) as [s' this'|s' []] eqn:Heq.
  - exists s', this'. split; [reflexivity|].
    destruct H as (Ha & Hb & Hc & _ & _ & Hd & _). exact (conj Ha (conj Hb (conj Hc Hd))).
  - exfalso. vm_compute in Heq. discriminate Heq.
Defined.

(** Two small vectors of one element each, swapped one way and the other
    with the exchange of their elements failing at its last step: both
    swaps throw, in the same state. *)
Lemma swap_symmetric_witness :
  agree (swap 2 keep (with_fault (st (@initial nat)) (Some 2)) v1 v7)
        (flip_pair (swap 2 keep (with_fault (st (@initial nat)) (Some 2)) v7 v1))
  ∧ ∃ s' r r',
      swap 2 keep (with_fault (st (@initial nat)) (Some 2)) v1 v7 = Throws s' r
      ∧ swap 2 keep (with_fault (st (@initial nat)) (Some 2)) v7 v1 = Throws s' r'.
Proof.
  pose proof (swap_symmetric 2 keep (with_fault (st (@initial nat)) (Some 2)) v7 v1) as [H _].
  split; [exact H|].
  destruct (swap 2 keep (with_fault (st (@initial nat)) (Some 2)) v1 v7)
    as [s1 r|s1 r] eqn:Heq1.
  { exfalso. vm_compute in Heq1. discriminate Heq1. }
  destruct (swap 2 keep (with_fault (st (@initial nat)) (Some 2)) v7 v1)
    as [s2 [a b]|s2 [a b]] eqn:Heq2.
  { exfalso. vm_compute in Heq2. discriminate Heq2. }
  simpl in H. subst s2. exists s1, r, (a, b). exact (conj eq_refl eq_refl).
Defined.
